(** * jquery-popover: template substitution and the show/hide machine

    The repository holds four revisions of one jQuery widget:
    - [src/jquery.popover.js], first file: registry of instances, regex
      based [replacePlaceholders];
    - [src/jquery.popover.js], second file: no registry, [String.replace]
      with a string pattern;
    - [src/unnamed/part_000]: remote content, no registry;
    - [src/unnamed/part_001]: registry, [String.replace] with a string
      pattern.

    JavaScript strings are modelled as [string]; a character stands for one
    code unit in the range 0-255.  [undefined] is [None]. *)

From Stdlib Require Import Ascii String DecimalString.
From stdpp Require Import base option list strings.

Local Open Scope string_scope.

(** Completion of a call: a normal return or a thrown exception. *)
Inductive completion (A : Type) : Type :=
  | Normal (a : A)
  | Throw (msg : string).
Arguments Normal {A} a.
Arguments Throw {A} msg.

Definition chr (n : nat) : ascii := ascii_of_nat n.
Definition str1 (c : ascii) : string := String c EmptyString.

(** * Template rendering *)
Module Tpl.

(** A data object: its own enumerable properties in enumeration order. *)
Definition data := list (string * string).

(** [data[name]]: the own property, or [undefined]. *)
Fixpoint lookup (d : data) (name : string) : option string :=
  match d with
  | [] => None
  | (k, v) :: rest => if String.eqb k name then Some v else lookup rest name
  end.

(** [ToString] of a property value that may be [undefined]. *)
Definition toString (v : option string) : string :=
  match v with
  | Some s => s
  | None => "undefined"
  end.

(** [htmlEncode]: the text is put into a text node under a fresh [div] and
    the [innerHTML] of the [div] is read back.  The HTML fragment
    serialisation of a text node replaces [&], U+00A0, [<] and [>]; every
    other character, quotes included, is copied. *)
Definition encodeChar (c : ascii) : string :=
  if Ascii.eqb c "&" then "&amp;"
  else if Ascii.eqb c "<" then "&lt;"
  else if Ascii.eqb c ">" then "&gt;"
  else if Ascii.eqb c (chr 160) then "&nbsp;"
  else str1 c.

Fixpoint encodeText (s : string) : string :=
  match s with
  | EmptyString => EmptyString
  | String c r => encodeChar c +:+ encodeText r
  end.

Definition htmlEncode (text : option string) : string :=
  encodeText (toString text).

(** The character class of [/([.*+?\^=!:${}()|\[\]\/\\])/g]. *)
Definition isSpecial (c : ascii) : bool :=
  existsb (Ascii.eqb c)
    (list_ascii_of_string ".*+?^=!:${}()|[]/\").

(** [placeholder.replace(/([.*+?\^=!:${}()|\[\]\/\\])/g, "\\$1")]: every
    character of the class is replaced by a backslash and itself. *)
Fixpoint escapeRegExp (s : string) : string :=
  match s with
  | EmptyString => EmptyString
  | String c r =>
      if isSpecial c then String "\" (String c (escapeRegExp r))
      else String c (escapeRegExp r)
  end.

(** ** Regular expressions, as far as
       [new RegExp('__' + placeholder + '__', 'g')] needs them *)

Inductive atom : Type :=
  | Lit (c : ascii)   (* this character *)
  | Dot.              (* any character but a line terminator *)

(** Pattern characters with a meaning of their own. *)
Definition isSyntax (c : ascii) : bool :=
  existsb (Ascii.eqb c) (list_ascii_of_string "^$\.*+?()[]{}|").

(** A backslash makes these characters stand for themselves in every
    browser: the ones below 128 that are no letter, digit or underscore. *)
Definition isIdentityEscape (c : ascii) : bool :=
  let n := nat_of_ascii c in
  Nat.ltb n 128
  && negb ((Nat.leb 48 n && Nat.leb n 57) || (Nat.leb 65 n && Nat.leb n 90)
           || (Nat.leb 97 n && Nat.leb n 122) || Nat.eqb n 95).

(** [new RegExp(src)].  A backslash before such a character is an
    identity escape; [.] is the wildcard; a character without meaning
    stands for itself.  [None] is returned for a pattern that is a
    [SyntaxError] and for every pattern that uses a construct outside this
    fragment (quantifiers, groups, classes, anchors, other escapes). *)
Fixpoint compile (src : string) : option (list atom) :=
  match src with
  | EmptyString => Some []
  | String c rest =>
      if Ascii.eqb c "\" then
        match rest with
        | EmptyString => None
        | String e rest' =>
            if isIdentityEscape e then cons (Lit e) <$> compile rest'
            else None
        end
      else if Ascii.eqb c "." then cons Dot <$> compile rest
      else if isSyntax c then None
      else cons (Lit c) <$> compile rest
  end.

Definition isLineTerminator (c : ascii) : bool :=
  Ascii.eqb c (chr 10) || Ascii.eqb c (chr 13).

Definition matchAtom (a : atom) (c : ascii) : bool :=
  match a with
  | Lit x => Ascii.eqb x c
  | Dot => negb (isLineTerminator c)
  end.

(** Match the atoms at the start of [s]: the matched text and what
    follows it. *)
Fixpoint matchAt (re : list atom) (s : string) : option (string * string) :=
  match re with
  | [] => Some (EmptyString, s)
  | a :: re' =>
      match s with
      | EmptyString => None
      | String c r =>
          if matchAtom a c then
            match matchAt re' r with
            | Some (m, after) => Some (String c m, after)
            | None => None
            end
          else None
      end
  end.

(** [GetSubstitution] for a match without capture groups: [$$], [$&],
    [$`] and [$'] are expanded; any other [$] is copied, also before a
    digit, there being no group to refer to. *)
Fixpoint getSubstitution (matched before after repl : string) : string :=
  match repl with
  | EmptyString => EmptyString
  | String c rest =>
      if Ascii.eqb c "$" then
        match rest with
        | EmptyString => str1 c
        | String d rest' =>
            if Ascii.eqb d "$" then String "$" (getSubstitution matched before after rest')
            else if Ascii.eqb d "&" then matched +:+ getSubstitution matched before after rest'
            else if Ascii.eqb d "`" then before +:+ getSubstitution matched before after rest'
            else if Ascii.eqb d "'" then after +:+ getSubstitution matched before after rest'
            else String c (getSubstitution matched before after rest)
        end
      else String c (getSubstitution matched before after rest)
  end.

(** [s.replace(re, repl)] for a global [re].  [before] is the part of the
    subject already scanned, [skip] the number of characters of the
    current match still to be passed over.  After an empty match the next
    character is copied and the search resumes behind it. *)
Fixpoint replaceLoop (re : list atom) (repl before : string) (skip : nat)
    (s : string) {struct s} : string :=
  match skip with
  | S k =>
      match s with
      | EmptyString => EmptyString
      | String c r => replaceLoop re repl (before +:+ str1 c) k r
      end
  | O =>
      match matchAt re s with
      | Some (m, after) =>
          getSubstitution m before after repl +:+
          match s with
          | EmptyString => EmptyString
          | String c r =>
              match String.length m with
              | O => String c (replaceLoop re repl (before +:+ str1 c) 0 r)
              | S k => replaceLoop re repl (before +:+ str1 c) k r
              end
          end
      | None =>
          match s with
          | EmptyString => EmptyString
          | String c r => String c (replaceLoop re repl (before +:+ str1 c) 0 r)
          end
      end
  end.

Definition replaceRegExpG (re : list atom) (repl s : string) : string :=
  replaceLoop re repl EmptyString 0 s.

(** [s.replace(pattern, repl)] for a string [pattern]: the first
    occurrence only. *)
Fixpoint replaceFirstFrom (pattern repl before s : string) {struct s} : string :=
  if String.prefix pattern s then
    let after := String.substring (String.length pattern) (String.length s) s in
    getSubstitution pattern before after repl +:+ after
  else
    match s with
    | EmptyString => EmptyString
    | String c r => String c (replaceFirstFrom pattern repl (before +:+ str1 c) r)
    end.

Definition replaceString (pattern repl s : string) : string :=
  replaceFirstFrom pattern repl EmptyString s.

(** [data.hasOwnProperty(name)]: [hasOwnProperty] is read from the data
    object first, where an own property of that name holds a string, and
    calling a string is a [TypeError]. *)
Definition hasOwnProperty (d : data) (name : string) : completion bool :=
  match lookup d "hasOwnProperty" with
  | Some _ => Throw "TypeError: data.hasOwnProperty is not a function"
  | None => Normal (bool_decide (is_Some (lookup d name)))
  end.

(** One turn of the [for (placeholder in data)] loop of the first file of
    [src/jquery.popover.js] and of [part_000].  The loop variable is
    overwritten with its escaped form before [data[placeholder]] is
    read. *)
Definition substituteKey (d : data) (escape : bool) (html placeholder : string)
    : completion string :=
  match hasOwnProperty d placeholder with
  | Throw e => Throw e
  | Normal false => Normal html
  | Normal true =>
      let placeholder := escapeRegExp placeholder in
      let replacement :=
        if escape then htmlEncode (lookup d placeholder)
        else toString (lookup d placeholder) in
      match compile ("__" +:+ placeholder +:+ "__") with
      | Some re => Normal (replaceRegExpG re replacement html)
      | None => Throw "SyntaxError: invalid regular expression"
      end
  end.

Fixpoint forIn (d : data) (escape : bool) (html : string) (keys : list string)
    : completion string :=
  match keys with
  | [] => Normal html
  | k :: rest =>
      match substituteKey d escape html k with
      | Normal html' => forIn d escape html' rest
      | Throw e => Throw e
      end
  end.

(** [replacePlaceholders(html, data, escape)], regex revision;
    [escape = escape !== false]. *)
Definition replacePlaceholders (html : string) (d : data) (escape : option bool)
    : completion string :=
  let escape := match escape with Some false => false | _ => true end in
  forIn d escape html (map fst d).

(** [replacePlaceholders(html, data)] of the second file of
    [src/jquery.popover.js] and of [part_001]: [$.each] over the data and
    [html.replace] with a string pattern; [escapeContent] is
    [opts.escapeContent]. *)
Definition replacePlaceholdersEach (escapeContent : bool) (html : string) (d : data)
    : string :=
  fold_left
    (fun html '(placeholder, value) =>
       replaceString ("__" +:+ placeholder +:+ "__")
         (if escapeContent then htmlEncode (Some value) else value) html)
    d html.

End Tpl.

(** * Literal substitution, as the specification words it *)
Module Spec.

(** Replace every occurrence of [needle], scanning from the left;
    [skip] characters of a replaced occurrence are passed over. *)
Fixpoint substAllFrom (needle repl : string) (skip : nat) (s : string)
    {struct s} : string :=
  match s with
  | EmptyString => EmptyString
  | String c r =>
      match skip with
      | S k => substAllFrom needle repl k r
      | O =>
          if String.prefix needle s
          then repl +:+ substAllFrom needle repl (pred (String.length needle)) r
          else String c (substAllFrom needle repl 0 r)
      end
  end.

Definition substAll (needle repl s : string) : string :=
  substAllFrom needle repl 0 s.

(** [render(template, data, escape)]: each name in turn, every occurrence
    of [__name__] replaced by the value, encoded first when [escape]. *)
Definition render (template : string) (d : Tpl.data) (escape : bool) : string :=
  fold_left
    (fun html '(name, value) =>
       substAll ("__" +:+ name +:+ "__")
         (if escape then Tpl.encodeText value else value) html)
    d template.

End Spec.

(** * Data the regex revision treats as the specification says *)
Module Plain.
Import Tpl.

Definition lits (s : string) : list atom := map Lit (list_ascii_of_string s).

Definition noDollar (s : string) : bool :=
  forallb (fun c => negb (Ascii.eqb c "$")) (list_ascii_of_string s).

Definition plainName (k : string) : bool :=
  forallb (fun c => negb (isSpecial c)) (list_ascii_of_string k)
  && negb (String.eqb k "hasOwnProperty").

Fixpoint distinctKeys (d : data) : bool :=
  match d with
  | [] => true
  | (k, _) :: rest => negb (bool_decide (is_Some (lookup rest k))) && distinctKeys rest
  end.

(** Data the regex revision handles as the specification says: distinct
    names without pattern characters, none called [hasOwnProperty], and
    values without [$]. *)
Definition plainData (d : data) : bool :=
  distinctKeys d && forallb (fun kv => plainName (fst kv) && noDollar (snd kv)) d.

Definition escapes (escape : option bool) : bool :=
  match escape with Some false => false | _ => true end.

End Plain.

Local Open Scope list_scope.

(** * The page: plugin objects, popover elements, timers, listeners *)
Module Env.

(** [opts.content]: an object to fill the template, or a string. *)
Inductive content : Type :=
  | CData (d : Tpl.data)
  | CText (s : string).

(** The options an instance ends up with after [$.extend].  [tpl] is the
    text [getTemplate(opts.tpl)] returns: the outer HTML of an element or
    the inner HTML of a script template, which need not be markup; a
    template that [getTemplate] does not find is not modelled.
    [showOnHoverDelay] is left out: delays are not modelled, a pending
    callback may run at any later step. *)
Record options : Type := Options {
  tpl : string;
  content_ : content;
  prepareContent : content -> content;
  escapeContent : bool;
  showOnClick : bool;
  showOnHover : bool;
  animSpeed : nat }.

(** A running [fadeTo]: towards opacity 1, or towards opacity 0 with the
    callback that detaches the popover. *)
Inductive fade : Type := ToOpaque | ToTransparent.

(** [$popover], the collection [$(text)] has given: the elements parsed
    from markup, taken as one, with their three handlers; or the empty
    collection, which has no parent, runs no animation and carries no
    handler. *)
Inductive elem : Type :=
  | Elem (owner : nat) (markup : string) (attached : bool)
      (anim : option fade) (handlers : bool)
  | NoNodes (owner : nat) (markup : string).

(** The object that made it. *)
Definition owner (x : elem) : nat :=
  match x with Elem o _ _ _ _ => o | NoNodes o _ => o end.

(** The string handed to [$]. *)
Definition markup (x : elem) : string :=
  match x with Elem _ m _ _ _ => m | NoNodes _ m => m end.

(** [$popover.parent().length] *)
Definition attached (x : elem) : bool :=
  match x with Elem _ _ a _ _ => a | NoNodes _ _ => false end.

Definition anim (x : elem) : option fade :=
  match x with Elem _ _ _ a _ => a | NoNodes _ _ => None end.

(** The [.popover] handlers are bound. *)
Definition handlers (x : elem) : bool :=
  match x with Elem _ _ _ _ h => h | NoNodes _ _ => false end.

(** [$popover.length] is not 0. *)
Definition nodes (x : elem) : bool :=
  match x with Elem _ _ _ _ _ => true | NoNodes _ _ => false end.

(** The closure variables of one [Plugin] object. *)
Record instance : Type := Instance {
  el : option nat;          (* [$el]; [None] is [null] *)
  bound : bool;             (* the handlers of [init] are on the trigger *)
  opts : options;
  popover : option nat;     (* [$popover]: [undefined] or a collection *)
  wasClicked : bool;        (* [explicitlyShown] in part_000 *)
  showTimeout : nat;
  hideTimeout : nat;
  runningRequest : option nat }.

(** Callbacks handed to [setTimeout]. *)
Inductive task : Type :=
  | TShow (i : nat)
  | THide (i : nat)
  | TBindDoc (i : nat).

(** The page.  [jQuery] is [$(text)] for the text of a popover: an
    exception of the selector engine or a collection, [true] for new
    elements parsed from markup, [false] for the empty collection of a
    selector that finds nothing.  The text of a popover is taken not to
    select elements of the page. *)
Record world : Type := World {
  instances : list nat;         (* the [instances] array *)
  heap : list instance;         (* every [Plugin] object constructed *)
  dom : list elem;              (* every popover collection constructed *)
  timers : list (nat * task);   (* pending timeouts by id *)
  nextTimer : nat;
  docClick : list nat;          (* [hide] of these is bound to the document click *)
  requests : list (nat * nat);  (* requests in flight: id and instance *)
  nextRequest : nat;
  aborted : list nat;           (* ghost: requests cut off by [abort()] *)
  hideCalls : list nat;         (* ghost: instances whose [hide] was entered *)
  jQuery : string -> completion bool }.

(** The page before any plugin object exists, [q] being its [$]. *)
Definition blankWith (q : string -> completion bool) : world :=
  World [] [] [] [] 1 [] [] 1 [] [] q.

(** jQuery takes a string of three characters or more that starts with
    [<] and ends with [>] for markup, without looking further. *)
Definition isMarkup (s : string) : bool :=
  match String.get 0 s, String.get (String.length s - 1) s with
  | Some a, Some b =>
      Ascii.eqb a "<" && Ascii.eqb b ">" && Nat.leb 3 (String.length s)
  | _, _ => false
  end.

Definition isLetter (c : ascii) : bool :=
  let n := nat_of_ascii c in
  (Nat.leb 65 n && Nat.leb n 90) || (Nat.leb 97 n && Nat.leb n 122).

(** [$] on the page of the examples, as far as the examples need it.  Of
    the strings that are no markup by [isMarkup], a name made of letters
    is the selector of elements of that name, of which this page has
    none; the rest is taken to be rejected by the selector engine, as is
    a line of text with a comma and an exclamation mark.  What jQuery makes
    of markup after white space, of [#id] and of other selectors is left
    out here: the theorems on the pages that can be reached hold for
    every [$]. *)
Definition jQuery0 (s : string) : completion bool :=
  if isMarkup s then Normal true
  else if Nat.leb 1 (String.length s) && forallb isLetter (list_ascii_of_string s)
       then Normal false
       else Throw ("Syntax error, unrecognized expression: " +:+ s).

(** The page of the examples before any plugin object exists. *)
Definition blank : world := blankWith jQuery0.

(** How a method or handler ends: normally, or with an exception and
    the page as it was when the exception was thrown. *)
Inductive result : Type :=
  | Ok (w : world)
  | Err (msg : string) (w : world).

Definition state (r : result) : world :=
  match r with Ok w => w | Err _ w => w end.

Definition updHeap (f : list instance -> list instance) (w : world) : world :=
  World (instances w) (f (heap w)) (dom w) (timers w) (nextTimer w) (docClick w)
    (requests w) (nextRequest w) (aborted w) (hideCalls w) (jQuery w).

Definition updDom (f : list elem -> list elem) (w : world) : world :=
  World (instances w) (heap w) (f (dom w)) (timers w) (nextTimer w) (docClick w)
    (requests w) (nextRequest w) (aborted w) (hideCalls w) (jQuery w).

Definition updDoc (f : list nat -> list nat) (w : world) : world :=
  World (instances w) (heap w) (dom w) (timers w) (nextTimer w) (f (docClick w))
    (requests w) (nextRequest w) (aborted w) (hideCalls w) (jQuery w).

Definition updI (i : nat) (f : instance -> instance) : world -> world :=
  updHeap (alter f i).

Definition updE (e : nat) (f : elem -> elem) : world -> world :=
  updDom (alter f e).

Definition setPopover (p : option nat) (s : instance) : instance :=
  Instance (el s) (bound s) (opts s) p (wasClicked s) (showTimeout s)
    (hideTimeout s) (runningRequest s).

Definition setWasClicked (b : bool) (s : instance) : instance :=
  Instance (el s) (bound s) (opts s) (popover s) b (showTimeout s)
    (hideTimeout s) (runningRequest s).

Definition setShowTimeout (t : nat) (s : instance) : instance :=
  Instance (el s) (bound s) (opts s) (popover s) (wasClicked s) t
    (hideTimeout s) (runningRequest s).

Definition setHideTimeout (t : nat) (s : instance) : instance :=
  Instance (el s) (bound s) (opts s) (popover s) (wasClicked s) (showTimeout s)
    t (runningRequest s).

Definition setRunning (r : option nat) (s : instance) : instance :=
  Instance (el s) (bound s) (opts s) (popover s) (wasClicked s) (showTimeout s)
    (hideTimeout s) r.

(** [$el.find('*').addBack().off('.popover'); ...; $el = null].  Trigger
    elements are taken not to lie inside one another, so [off] reaches the
    handlers of this instance only. *)
Definition release (s : instance) : instance :=
  Instance None false (opts s) (popover s) (wasClicked s) (showTimeout s)
    (hideTimeout s) (runningRequest s).

(** A method of jQuery does nothing on the empty collection. *)
Definition setAttached (b : bool) (x : elem) : elem :=
  match x with
  | Elem o m _ a h => Elem o m b a h
  | NoNodes _ _ => x
  end.

Definition setAnim (a : option fade) (x : elem) : elem :=
  match x with
  | Elem o m b _ h => Elem o m b a h
  | NoNodes _ _ => x
  end.

(** [$(text)] where [$] does not throw, before [on] has bound the
    handlers. *)
Definition collection (i : nat) (text : string) (parsed : bool) : elem :=
  if parsed then Elem i text false None true else NoNodes i text.

(** [setTimeout(task, delay)]: the id returned and the new page. *)
Definition setTimeout (t : task) (w : world) : nat * world :=
  (nextTimer w,
   World (instances w) (heap w) (dom w) (timers w ++ [(nextTimer w, t)])
     (S (nextTimer w)) (docClick w) (requests w) (nextRequest w) (aborted w)
     (hideCalls w) (jQuery w)).

Definition clearTimeout (id : nat) (w : world) : world :=
  World (instances w) (heap w) (dom w)
    (filter (fun t => t.1 <> id) (timers w))
    (nextTimer w) (docClick w) (requests w) (nextRequest w) (aborted w)
    (hideCalls w) (jQuery w).

(** [$doc.one('click.popover', self.hide)] and
    [$doc.off('click.popover', self.hide)]; [off] removes every binding of
    that function. *)
Definition docOne (i : nat) : world -> world := updDoc (fun l => l ++ [i]).
Definition docOff (i : nat) : world -> world := updDoc (filter (fun j => j <> i)).

Definition isAttached (e : nat) (w : world) : bool :=
  match dom w !! e with
  | Some x => attached x
  | None => false
  end.

(** [$popover.stop(true)]: the running animation is dropped where it
    stands, its callback is not called. *)
Definition stop (e : nat) : world -> world := updE e (setAnim None).

(** The end of an animation: a fade to 0 runs its callback,
    [$popover.detach()]. *)
Definition finishElem (x : elem) : elem :=
  match anim x with
  | Some ToTransparent => setAttached false (setAnim None x)
  | Some ToOpaque => setAnim None x
  | None => x
  end.

(** [$popover.fadeTo(speed, target, callback)], called after [stop(true)]:
    with duration 0 the first tick, run at once, already ends the
    animation. *)
Definition fadeTo (speed : nat) (target : fade) (e : nat) (w : world) : world :=
  match speed with
  | O => updE e (fun x => finishElem (setAnim (Some target) x)) w
  | S _ => updE e (setAnim (Some target)) w
  end.

(** Every animation still running has ended. *)
Definition settle : world -> world := updDom (fmap finishElem).

Definition logHide (i : nat) (w : world) : world :=
  World (instances w) (heap w) (dom w) (timers w) (nextTimer w) (docClick w)
    (requests w) (nextRequest w) (aborted w) (hideCalls w ++ [i]) (jQuery w).

(** The popover elements made for instance [i], and those in the
    document. *)
Definition popoversOf (i : nat) (w : world) : list elem :=
  filter (fun x => owner x = i) (dom w).

Definition attachedPopovers (w : world) : list elem :=
  filter (fun x => attached x = true) (dom w).

(** [defOpts] of [part_000]; the other files have the same values for
    the options they know. *)
Definition defOpts : options :=
  Options
    ("<div class=" +:+ str1 (chr 34) +:+ "popover" +:+ str1 (chr 34)
       +:+ "><h6>__headline__</h6><p>__text__</p></div>")
    (CData [("headline", "This is a popover");
            ("text", "This is the default text for a popover.")])
    (fun c => c) true true true 100.

(** Who points at which element: the registry, [$popover] of every
    object and the owner of every element. *)
Definition skel (w : world) : list nat * list (option nat) * list nat :=
  (instances w, popover <$> heap w, owner <$> dom w).

(** Objects and elements point at each other. *)
Definition linked (w : world) : Prop :=
  (forall i s e, heap w !! i = Some s -> popover s = Some e ->
     exists x, dom w !! e = Some x /\ owner x = i) /\
  (forall e x, dom w !! e = Some x ->
     exists s, heap w !! owner x = Some s /\ popover s = Some e).

End Env.


(** * The registry revisions: first file of [src/jquery.popover.js]
      and [part_001] *)
Module Exclusive.
Import Env.

(** for-in over a string value visits its indices. *)
Fixpoint stringProps (n : nat) (s : string) : Tpl.data :=
  match s with
  | EmptyString => []
  | String c r =>
      (NilEmpty.string_of_uint (Nat.to_uint n), str1 c) :: stringProps (S n) r
  end.

Definition dataOf (c : content) : Tpl.data :=
  match c with
  | CData d => d
  | CText s => stringProps 0 s
  end.

(** [replacePlaceholders(getTemplate(opts.tpl), opts.content)] of the
    first file, [escape] left out. *)
Definition render1 (o : options) : completion string :=
  Tpl.replacePlaceholders (tpl o) (dataOf (content_ o)) None.

Section Machine.

(** The text of a new popover, handed to [$]: [render1] in the first file;
    [part_001] builds it with [Tpl.replacePlaceholdersEach]. *)
Variable render : options -> completion string.

(** [this.hide] *)
Definition hide (i : nat) (w : world) : world :=
  match heap w !! i with
  | None => w
  | Some s =>
      let w := logHide i w in
      let w := clearTimeout (hideTimeout s) w in
      let w := docOff i w in
      let w := updI i (setWasClicked false) w in
      match popover s with
      | Some e => fadeTo (animSpeed (opts s)) ToTransparent e (stop e w)
      | None => w
      end
  end.

(** [if (!$popover) { $popover = $(...).on(...) }] *)
Definition build (i : nat) (s : instance) (w : world) : completion (nat * world) :=
  match popover s with
  | Some e => Normal (e, w)
  | None =>
      match render (opts s) with
      | Throw m => Throw m
      | Normal html =>
          match jQuery w html with
          | Throw m => Throw m
          | Normal parsed =>
              let e := length (dom w) in
              Normal (e, updI i (setPopover (Some e))
                           (updDom (fun d => d ++ [collection i html parsed]) w))
          end
      end
  end.

(** [$.each(instances, function (idx, instance) {
       instance === self || instance.hide(); })] *)
Definition sweep (i : nat) (l : list nat) (w : world) : world :=
  fold_left (fun w j => if decide (j = i) then w else hide j w) l w.

Definition hideOthers (i : nat) (w : world) : world := sweep i (instances w) w.

(** [$popover.stop(true); if (!$popover.parent().length) { ... }];
    [$el.position()] fails on [null]. *)
Definition place (e : nat) (s : instance) (w : world) : result :=
  let w := stop e w in
  if isAttached e w then Ok w
  else
    match el s with
    | None => Err "TypeError: $el is null" w
    | Some _ => Ok (updE e (setAttached true) w)
    end.

(** [this.show] *)
Definition show (i : nat) (w : world) : result :=
  match heap w !! i with
  | None => Ok w
  | Some s =>
      let w := clearTimeout (showTimeout s) w in
      match build i s w with
      | Throw m => Err m w
      | Normal (e, w) =>
          let w := hideOthers i w in
          match place e s w with
          | Err m w => Err m w
          | Ok w =>
              let w := fadeTo (animSpeed (opts s)) ToOpaque e w in
              Ok (setTimeout (TBindDoc i) w).2
          end
      end
  end.

(** [this.destroy] *)
Definition destroy (i : nat) (w : world) : result :=
  match heap w !! i with
  | None => Ok w
  | Some s =>
      match el s with
      | None => Err "TypeError: $el is null" w
      | Some _ => Ok (updI i release w)
      end
  end.

(** [new Plugin(el, args)] with [init] run to its end: the object is
    registered and the trigger handlers are bound.  [o] is what
    [$.extend] has made of defaults, arguments and attribute. *)
Definition Plugin (elId : nat) (o : options) (w : world) : world :=
  let i := length (heap w) in
  World (if bool_decide (i ∈ instances w) then instances w else instances w ++ [i])
    (heap w ++ [Instance (Some elId) true o None false 0 0 None])
    (dom w) (timers w) (nextTimer w) (docClick w) (requests w) (nextRequest w)
    (aborted w) (hideCalls w) (jQuery w).

(** A click reaching the document: the listeners bound at that moment
    run, each unbound before its [hide] is entered. *)
Definition docDispatch (w : world) : world :=
  fold_left (fun w i => hide i w) (docClick w) w.

(** The handlers [init] binds on the trigger. *)
Definition onClick (i : nat) (w : world) : result :=
  match heap w !! i with
  | Some s =>
      if bound s then
        if match popover s with Some e => isAttached e w | None => false end
        then Ok (hide i w)
        else
          match show i w with
          | Ok w => Ok (updI i (setWasClicked true) w)
          | Err m w => Err m w
          end
      else Ok w
  | None => Ok w
  end.

Definition onMouseEnter (i : nat) (w : world) : world :=
  match heap w !! i with
  | Some s =>
      if bound s then
        let '(t, w) := setTimeout (TShow i) (clearTimeout (hideTimeout s) w) in
        updI i (setShowTimeout t) w
      else w
  | None => w
  end.

Definition scheduleHide (i : nat) (w : world) : world :=
  let '(t, w) := setTimeout (THide i) w in updI i (setHideTimeout t) w.

Definition onMouseLeave (i : nat) (w : world) : world :=
  match heap w !! i with
  | Some s =>
      if bound s then
        let w := clearTimeout (showTimeout s) w in
        if wasClicked s then w else scheduleHide i w
      else w
  | None => w
  end.

(** The handlers [show] binds on the popover; they can run while the
    popover is in the document. *)
Definition overPopover (i : nat) (w : world) : option instance :=
  match heap w !! i with
  | Some s =>
      match popover s with
      | Some e =>
          match dom w !! e with
          | Some x => if attached x && handlers x then Some s else None
          | None => None
          end
      | None => None
      end
  | None => None
  end.

Definition onPopoverEnter (i : nat) (w : world) : world :=
  match overPopover i w with
  | Some s => clearTimeout (hideTimeout s) w
  | None => w
  end.

Definition onPopoverLeave (i : nat) (w : world) : world :=
  match overPopover i w with
  | Some s =>
      if wasClicked s then w
      else scheduleHide i (clearTimeout (showTimeout s) w)
  | None => w
  end.

(** A pending timeout comes due. *)
Definition fire (id : nat) (w : world) : result :=
  match list_find (fun t => t.1 = id) (timers w) with
  | Some (_, (_, t)) =>
      let w := clearTimeout id w in
      match t with
      | TShow i => show i w
      | THide i => Ok (hide i w)
      | TBindDoc i => Ok (docOne i w)
      end
  | None => Ok w
  end.

Inductive event : Type :=
  | Create (elId : nat) (o : options)
  | CallShow (i : nat)
  | CallHide (i : nat)
  | CallDestroy (i : nat)
  | Click (i : nat)          (* on the trigger of [i]; bubbles to the document *)
  | MouseEnter (i : nat)
  | MouseLeave (i : nat)
  | PopoverClick (i : nat)   (* propagation is stopped *)
  | PopoverEnter (i : nat)
  | PopoverLeave (i : nat)
  | DocClick                 (* a click elsewhere in the document *)
  | Timeout (id : nat)
  | AnimEnd (e : nat).

Definition step (ev : event) (w : world) : world :=
  match ev with
  | Create elId o => Plugin elId o w
  | CallShow i => state (show i w)
  | CallHide i => hide i w
  | CallDestroy i => state (destroy i w)
  | Click i => docDispatch (state (onClick i w))
  | MouseEnter i => onMouseEnter i w
  | MouseLeave i => onMouseLeave i w
  | PopoverClick i => w
  | PopoverEnter i => onPopoverEnter i w
  | PopoverLeave i => onPopoverLeave i w
  | DocClick => docDispatch w
  | Timeout id => state (fire id w)
  | AnimEnd e => updE e finishElem w
  end.

Definition run (evs : list event) (w : world) : world :=
  fold_left (fun w ev => step ev w) evs w.

Inductive reachable : world -> Prop :=
  | reach_init q : reachable (blankWith q)
  | reach_step ev w : reachable w -> reachable (step ev w).

End Machine.

(** ** Auxiliary notions for the proofs *)

(** The registry holds every object ever constructed. *)
Definition Inv (w : world) : Prop :=
  linked w /\ instances w = seq 0 (length (heap w)).

(** What [hide] does to the element it fades. *)
Definition fadeOut (speed : nat) (x : elem) : elem :=
  match speed with
  | O => finishElem (setAnim (Some ToTransparent) (setAnim None x))
  | S _ => setAnim (Some ToTransparent) (setAnim None x)
  end.

(** On its way out of the document, or out already. *)
Definition leaving (x : elem) : Prop :=
  attached x = true -> anim x = Some ToTransparent.

(** Everything but the elements. *)
Definition rest (w : world) :=
  (instances w, heap w, timers w, nextTimer w, docClick w, requests w,
   nextRequest w, aborted w, hideCalls w, jQuery w).

(** What [show] does to its own element: the running animation is
    dropped, the element is put behind the trigger and faded in. *)
Definition fadeIn (speed : nat) (x : elem) : elem :=
  let y := setAttached true (setAnim None x) in
  match speed with
  | O => finishElem (setAnim (Some ToOpaque) y)
  | S _ => setAnim (Some ToOpaque) y
  end.

(** The page after [build] has made the collection [x]. *)
Definition built (i : nat) (x : elem) (w : world) : world :=
  updI i (setPopover (Some (length (dom w))))
    (updDom (fun d => d ++ [x]) w).

(** The text of a popover that is not made yet can be rendered. *)
Definition buildable (render : options -> completion string) (s : instance) : Prop :=
  popover s = None -> exists html, render (opts s) = Normal html.

(** [build] will not throw: the text of a popover that is not made yet
    can be rendered, and [$] takes it. *)
Definition builds (render : options -> completion string) (s : instance)
    (w : world) : Prop :=
  popover s = None ->
  exists html parsed, render (opts s) = Normal html /\ jQuery w html = Normal parsed.

(** The popover has elements to show: the collection made earlier is not
    empty or, where none is made yet, the text can be rendered and [$]
    parses it as markup. *)
Definition presentable (render : options -> completion string) (s : instance)
    (w : world) : Prop :=
  match popover s with
  | Some e => exists x, dom w !! e = Some x /\ nodes x = true
  | None => exists html, render (opts s) = Normal html /\ jQuery w html = Normal true
  end.

End Exclusive.


(** * The remote-content revision: [part_000] *)
Module Remote.
Import Env.

(** [opts.content.match(/^(https?:\/)?\.?\//)] *)
Definition isUrl (s : string) : bool :=
  existsb (fun p => String.prefix p s)
    ["/"; "./"; "http://"; "http:/./"; "https://"; "https:/./"].

(** [this.hide] *)
Definition hide (i : nat) (w : world) : world :=
  match heap w !! i with
  | None => w
  | Some s =>
      let w := logHide i w in
      let w := clearTimeout (hideTimeout s) w in
      let w := updI i (setWasClicked false) w in
      let w := docOff i w in
      match popover s with
      | Some e => fadeTo (animSpeed (opts s)) ToTransparent e (stop e w)
      | None => w
      end
  end.

(** [runningRequest.abort()]: a request still in flight is cut off and
    its [complete] callback sets [runningRequest] to [null]; a request
    that is over is left alone. *)
Definition abort (i r : nat) (w : world) : world :=
  if bool_decide ((r, i) ∈ requests w) then
    updI i (setRunning None)
      (World (instances w) (heap w) (dom w) (timers w) (nextTimer w) (docClick w)
         (filter (fun q => q.1 <> r) (requests w)) (nextRequest w)
         (aborted w ++ [r]) (hideCalls w) (jQuery w))
  else w.

(** [runningRequest = $.ajax({...})] *)
Definition ajax (i : nat) (w : world) : world :=
  updI i (setRunning (Some (nextRequest w)))
    (World (instances w) (heap w) (dom w) (timers w) (nextTimer w) (docClick w)
       (requests w ++ [(nextRequest w, i)]) (S (nextRequest w))
       (aborted w) (hideCalls w) (jQuery w)).

(** [loadRemoteContent(url, callback)] *)
Definition loadRemoteContent (i : nat) (w : world) : world :=
  match heap w !! i with
  | None => w
  | Some s =>
      let w :=
        match runningRequest s with
        | Some r => abort i r w
        | None => w
        end in
      ajax i w
  end.

(** [typeof content == 'object'
       ? replacePlaceholders(getTemplate(opts.tpl), content, opts.escapeContent)
       : content] *)
Definition markupFor (o : options) (c : content) : completion string :=
  match c with
  | CData d => Tpl.replacePlaceholders (tpl o) d (Some (escapeContent o))
  | CText html => Normal html
  end.

(** [buildPopover(content)] *)
Definition buildPopover (i : nat) (c : content) (w : world) : completion world :=
  match heap w !! i with
  | None => Normal w
  | Some s =>
      match markupFor (opts s) c with
      | Throw m => Throw m
      | Normal html =>
          match jQuery w html with
          | Throw m => Throw m
          | Normal parsed =>
              Normal (updI i (setPopover (Some (length (dom w))))
                        (updDom (fun d => d ++ [collection i html parsed]) w))
          end
      end
  end.

(** [showPopover()], the statements of [show] in the registry revisions
    from [$popover.stop(true)] on.  The popover markup is taken not to
    carry the activation attribute, so the [DOMContentAdded] it triggers
    makes no new instance; with an empty collection the event has no
    nodes and Auto pilot looks through the document, whose triggers are
    taken to have their objects by then. *)
Definition showPopover (i : nat) (w : world) : result :=
  match heap w !! i with
  | None => Ok w
  | Some s =>
      match popover s with
      | None => Err "TypeError: $popover is undefined" w
      | Some e =>
          match Exclusive.place e s w with
          | Err m w => Err m w
          | Ok w =>
              let w := fadeTo (animSpeed (opts s)) ToOpaque e w in
              Ok (setTimeout (TBindDoc i) w).2
          end
      end
  end.

Definition buildAndShow (i : nat) (c : content) (w : world) : result :=
  match buildPopover i c w with
  | Throw m => Err m w
  | Normal w => showPopover i w
  end.

Definition remote (o : options) : bool :=
  match content_ o with
  | CText s => isUrl s
  | CData _ => false
  end.

(** The inner [show()] *)
Definition show (i : nat) (w : world) : result :=
  match heap w !! i with
  | None => Ok w
  | Some s =>
      match popover s with
      | None =>
          if remote (opts s) then Ok (loadRemoteContent i w)
          else buildAndShow i (prepareContent (opts s) (content_ (opts s))) w
      | Some _ => showPopover i w
      end
  end.

(** [this.show]; the global [debug] it logs to is taken to exist. *)
Definition publicShow (i : nat) (w : world) : result :=
  match heap w !! i with
  | None => Ok w
  | Some s =>
      show i (updI i (setWasClicked true) (clearTimeout (showTimeout s) w))
  end.

(** [this.destroy] *)
Definition destroy (i : nat) (w : world) : result :=
  match heap w !! i with
  | None => Ok w
  | Some s =>
      let w := docOff i w in
      match el s with
      | None => Err "TypeError: $el is null" w
      | Some _ => Ok (updI i release w)
      end
  end.

(** [new Plugin(el, args)] with [init] run to its end. *)
Definition Plugin (elId : nat) (o : options) (w : world) : world :=
  updHeap (fun h => h ++ [Instance (Some elId) true o None false 0 0 None]) w.

Definition docDispatch (w : world) : world :=
  fold_left (fun w i => hide i w) (docClick w) w.

(** An answer to request [r]: [success] with the content, then
    [complete]; an exception in [success] leaves [complete] uncalled. *)
Definition respond (r : nat) (answer : option content) (w : world) : result :=
  match list_find (fun q => q.1 = r) (requests w) with
  | None => Ok w
  | Some (_, (_, i)) =>
      let w :=
        World (instances w) (heap w) (dom w) (timers w) (nextTimer w) (docClick w)
          (filter (fun q => q.1 <> r) (requests w)) (nextRequest w)
          (aborted w) (hideCalls w) (jQuery w) in
      match
        match answer, heap w !! i with
        | Some c, Some s => buildAndShow i (prepareContent (opts s) c) w
        | _, _ => Ok w
        end
      with
      | Err m w => Err m w
      | Ok w => Ok (updI i (setRunning None) w)
      end
  end.

Definition onClick (i : nat) (w : world) : result :=
  match heap w !! i with
  | Some s =>
      if bound s && showOnClick (opts s) then
        if match popover s with Some e => isAttached e w | None => false end
        then Ok (hide i w)
        else
          match show i w with
          | Ok w => Ok (updI i (setWasClicked true) w)
          | Err m w => Err m w
          end
      else Ok w
  | None => Ok w
  end.

Definition onMouseEnter (i : nat) (w : world) : world :=
  match heap w !! i with
  | Some s =>
      if bound s && showOnHover (opts s) then
        let '(t, w) := setTimeout (TShow i) (clearTimeout (hideTimeout s) w) in
        updI i (setShowTimeout t) w
      else w
  | None => w
  end.

Definition onMouseLeave (i : nat) (w : world) : world :=
  match heap w !! i with
  | Some s =>
      if bound s && showOnHover (opts s) then
        let w := clearTimeout (showTimeout s) w in
        if wasClicked s then w else Exclusive.scheduleHide i w
      else w
  | None => w
  end.

(** The click handler of the popover: a click on an element that
    matches [selectHideTrigger] goes on to the document. *)
Definition onPopoverClick (i : nat) (onHideTrigger : bool) (w : world) : world :=
  match Exclusive.overPopover i w with
  | Some _ => if onHideTrigger then docDispatch w else w
  | None => w
  end.

Definition onPopoverEnter (i : nat) (w : world) : world :=
  match Exclusive.overPopover i w with
  | Some s => if showOnHover (opts s) then clearTimeout (hideTimeout s) w else w
  | None => w
  end.

Definition onPopoverLeave (i : nat) (w : world) : world :=
  match Exclusive.overPopover i w with
  | Some s =>
      if showOnHover (opts s) && negb (wasClicked s)
      then Exclusive.scheduleHide i (clearTimeout (showTimeout s) w)
      else w
  | None => w
  end.

Definition fire (id : nat) (w : world) : result :=
  match list_find (fun t => t.1 = id) (timers w) with
  | Some (_, (_, t)) =>
      let w := clearTimeout id w in
      match t with
      | TShow i => show i w
      | THide i => Ok (hide i w)
      | TBindDoc i => Ok (docOne i w)
      end
  | None => Ok w
  end.

Inductive event : Type :=
  | Create (elId : nat) (o : options)
  | CallShow (i : nat)
  | CallHide (i : nat)
  | CallDestroy (i : nat)
  | Click (i : nat)
  | MouseEnter (i : nat)
  | MouseLeave (i : nat)
  | PopoverClick (i : nat) (onHideTrigger : bool)
  | PopoverEnter (i : nat)
  | PopoverLeave (i : nat)
  | DocClick
  | Timeout (id : nat)
  | AnimEnd (e : nat)
  | Response (r : nat) (answer : option content).

Definition step (ev : event) (w : world) : world :=
  match ev with
  | Create elId o => Plugin elId o w
  | CallShow i => state (publicShow i w)
  | CallHide i => hide i w
  | CallDestroy i => state (destroy i w)
  | Click i => docDispatch (state (onClick i w))
  | MouseEnter i => onMouseEnter i w
  | MouseLeave i => onMouseLeave i w
  | PopoverClick i b => onPopoverClick i b w
  | PopoverEnter i => onPopoverEnter i w
  | PopoverLeave i => onPopoverLeave i w
  | DocClick => docDispatch w
  | Timeout id => state (fire id w)
  | AnimEnd e => updE e finishElem w
  | Response r answer => state (respond r answer w)
  end.

Definition run (evs : list event) (w : world) : world :=
  fold_left (fun w ev => step ev w) evs w.

Inductive reachable : world -> Prop :=
  | reach_init q : reachable (blankWith q)
  | reach_step ev w : reachable w -> reachable (step ev w).

(** ** Auxiliary notions for the proofs *)

(** What the invariant reads of an object. *)
Definition view (s : instance) : option nat * option nat * bool :=
  (popover s, runningRequest s, remote (opts s)).

Definition rskel (w : world) :=
  (skel w, view <$> heap w, requests w, nextRequest w).

(** A request in flight belongs to an object with remote content that
    has no element yet and holds it in [runningRequest]. *)
Definition pending (w : world) : Prop :=
  forall r i, (r, i) ∈ requests w ->
    r < nextRequest w /\ (view <$> heap w) !! i = Some (None, Some r, true).

Definition RInv (w : world) : Prop :=
  linked w /\ NoDup (requests w).*1 /\ pending w.

(** Objects without a request in flight may get their element. *)
Definition idle (i : nat) (w : world) : Prop :=
  forall r, (r, i) ∉ requests w.

(** [this.show] has elements to show at once: the collection made
    earlier is not empty or, where none is made yet, the content is no
    URL and gives a text that [$] parses as markup. *)
Definition presentable (s : instance) (w : world) : Prop :=
  match popover s with
  | Some e => exists x, dom w !! e = Some x /\ nodes x = true
  | None =>
      remote (opts s) = false /\
      exists html,
        markupFor (opts s) (prepareContent (opts s) (content_ (opts s)))
        = Normal html
        /\ jQuery w html = Normal true
  end.

End Remote.

(** * The second file of [src/jquery.popover.js] *)
Module Simple.
Import Env.

(** [this.hide].  The document listener of this file is an anonymous
    function; [hide] does not unbind it. *)
Definition hide (i : nat) (w : world) : world :=
  match heap w !! i with
  | None => w
  | Some s =>
      let w := logHide i w in
      let w := clearTimeout (hideTimeout s) w in
      let w := updI i (setWasClicked false) w in
      match popover s with
      | Some e => fadeTo (animSpeed (opts s)) ToTransparent e (stop e w)
      | None => w
      end
  end.

End Simple.

(** * Method dispatch of [$.fn.popover] *)
Module Dispatch.

Definition PLUGIN_NAME : string := "popover".

(** [args[0]] *)
Inductive arg : Type :=
  | Undefined
  | Str (s : string)
  | Obj.

(** The functions a [Plugin] object has of its own, *)
Definition publicOperations : list string := ["show"; "hide"; "destroy"].

(** and those it finds on its prototype chain: [constructor] on
    [Plugin.prototype], the rest on [Object.prototype]. *)
Definition inheritedFunctions : list string :=
  ["constructor"; "toString"; "toLocaleString"; "valueOf"; "hasOwnProperty";
   "isPrototypeOf"; "propertyIsEnumerable"; "__defineGetter__";
   "__defineSetter__"; "__lookupGetter__"; "__lookupSetter__"].

(** [typeof instance[name] === 'function'] *)
Definition isFunction (name : string) : bool :=
  bool_decide (name ∈ publicOperations ++ inheritedFunctions).

(** What the callback of [this.each] does for one element. *)
Inductive outcome : Type :=
  | Invoked (name : string)   (* [instance[name](args[1])] *)
  | Raised (msg : string)     (* [$.error(msg)], which throws *)
  | Skipped.

(** The first file of [src/jquery.popover.js] and [part_000]. *)
Definition dispatch (a : arg) : outcome :=
  match a with
  | Str name =>
      if isFunction name then Invoked name
      else Raised ("Method " +:+ str1 (chr 34) +:+ name +:+ str1 (chr 34)
                     +:+ " does not exist for " +:+ PLUGIN_NAME +:+ " plugin")
  | _ => Skipped
  end.

(** [ToString(args[0])] *)
Definition argText (a : arg) : string :=
  match a with
  | Undefined => "undefined"
  | Str s => s
  | Obj => "[object Object]"
  end.

(** [part_001]: whatever is not the name of a function is reported. *)
Definition dispatch1 (a : arg) : outcome :=
  match a with
  | Str name =>
      if isFunction name then Invoked name
      else Raised ("Method '" +:+ name +:+ "' doesn't exist for "
                     +:+ PLUGIN_NAME +:+ " plugin")
  | _ => Raised ("Method '" +:+ argText a +:+ "' doesn't exist for "
                     +:+ PLUGIN_NAME +:+ " plugin")
  end.

End Dispatch.

(** * Pages used in the examples *)
Module Scenes.
Import Env.

(** A page of [part_000] with one trigger whose content is a URL. *)
Definition remoteOpts : options :=
  Options (tpl defOpts) (CText "/popover.json") (prepareContent defOpts)
    true true true 100.

(** The page after a click on the trigger has shown its popover and the
    mouse has come back over the trigger. *)
Definition shownAndHovered : world :=
  Exclusive.run Exclusive.render1
    [Exclusive.Create 0 defOpts; Exclusive.CallShow 0; Exclusive.Timeout 1;
     Exclusive.MouseEnter 0] blank.

End Scenes.
(** * Notions for stating what substitution leaves alone *)
Module Text.

(** [s.indexOf(needle) >= 0] *)
Fixpoint occurs (needle s : string) : bool :=
  String.prefix needle s
  || match s with
     | EmptyString => false
     | String _ r => occurs needle r
     end.

(** The characters the serialisation of a text node writes as entities. *)
Definition needsEntity (c : ascii) : bool :=
  Ascii.eqb c "&" || Ascii.eqb c "<" || Ascii.eqb c ">" || Ascii.eqb c (chr 160).

Definition entityFree (s : string) : bool :=
  forallb (fun c => negb (needsEntity c)) (list_ascii_of_string s).

End Text.

(** * The elementary changes a handler is made of *)
From stdpp Require Import relations.

Module Trace.
Import Env.

Definition taskOwner (t : task) : nat :=
  match t with
  | TShow i => i
  | THide i => i
  | TBindDoc i => i
  end.

(** Assignments to [$popover] and [wasClicked]; [$popover] is never set
    back to [undefined]. *)
Definition tame (f : instance -> instance) : Prop :=
  forall s, el (f s) = el s /\ bound (f s) = bound s /\ opts (f s) = opts s
            /\ showTimeout (f s) = showTimeout s
            /\ hideTimeout (f s) = hideTimeout s
            /\ (popover s <> None -> popover (f s) <> None).

(** The object has its collection. *)
Definition hasPopover (i : nat) (w : world) : Prop :=
  exists s, heap w !! i = Some s /\ popover s <> None.

(** Changes that leave the triggers and their bindings alone. *)
Inductive quiet : world -> world -> Prop :=
  | q_clear id w : quiet w (clearTimeout id w)
  | q_defer i w :
      hasPopover i w -> quiet w (setTimeout (TBindDoc i) w).2
  | q_showLater i w :
      is_Some (heap w !! i) ->
      quiet w (updI i (setShowTimeout (nextTimer w)) (setTimeout (TShow i) w).2)
  | q_hideLater i w :
      is_Some (heap w !! i) -> quiet w (Exclusive.scheduleHide i w)
  | q_docOff i w : quiet w (docOff i w)
  | q_bind id i w :
      (id, TBindDoc i) ∈ timers w -> quiet w (docOne i (clearTimeout id w))
  | q_inst i f w : tame f -> quiet w (updI i f w)
  | q_elem e f w : quiet w (updE e f w)
  | q_new x w : quiet w (updDom (fun d => d ++ [x]) w)
  | q_log i w : quiet w (logHide i w).

Inductive move : world -> world -> Prop :=
  | mv_quiet w w' : quiet w w' -> move w w'
  | mv_release i w : move w (updI i release w)
  | mv_plugin elId o w : move w (Exclusive.Plugin elId o w).

(** Timeout ids: those pending are distinct and below the next id to be
    given out, as are the ids the objects have stored; no object has
    stored the id of a deferred registration.  Callbacks and document
    listeners belong to objects that exist. *)
Record Sound (w : world) : Prop := {
  sound_next : 0 < nextTimer w;
  sound_timers : forall id t, (id, t) ∈ timers w ->
    0 < id < nextTimer w /\ taskOwner t < length (heap w);
  sound_ids : NoDup (timers w).*1;
  sound_doc : forall i, i ∈ docClick w -> i < length (heap w);
  sound_stored : forall i s, heap w !! i = Some s ->
    showTimeout s < nextTimer w /\ hideTimeout s < nextTimer w;
  sound_deferred : forall id j i s,
    (id, TBindDoc j) ∈ timers w -> heap w !! i = Some s ->
    showTimeout s <> id /\ hideTimeout s <> id }.

(** A document listener, bound or deferred, belongs to an object that
    has its collection. *)
Definition Listening (w : world) : Prop :=
  forall i, i ∈ docClick w \/ (exists id, (id, TBindDoc i) ∈ timers w) ->
    hasPopover i w.


(** Events other than the construction and the destruction of an
    object. *)
Definition isQuiet (ev : Exclusive.event) : bool :=
  match ev with
  | Exclusive.Create _ _ => false
  | Exclusive.CallDestroy _ => false
  | _ => true
  end.

End Trace.

(** * [$.fn.popover] and the data store of jQuery: the registry revisions *)
From stdpp Require Import gmap.

Module Page.
Import Env.

(** The page together with [$.data(el, 'popover')] of every trigger. *)
Record page : Type := Page {
  world_of : world;
  store : gmap nat nat }.

(** How a call ends.  [Beyond]: the call leaves what is modelled here; a
    function the object inherits from its prototypes was called or, in the
    second file, [init] threw on an object that was stored already. *)
Inductive outcome : Type :=
  | Done (p : page)
  | Failed (msg : string) (p : page)
  | Beyond.

Definition after (o : outcome) : option page :=
  match o with
  | Done p => Some p
  | Failed _ p => Some p
  | Beyond => None
  end.

(** A call [$(els).popover(arg0, ...)]: its first argument and, for
    every trigger, the options [init] would end up with,
    [$.extend({}, defOpts, initOpts, attrOpts)]; [$.parseJSON] throws on
    an attribute that is not JSON. *)
Record call : Type := Call {
  arg0 : Dispatch.arg;
  settings : nat -> completion options }.

Definition lift (st : gmap nat nat) (r : result) : outcome :=
  match r with
  | Ok w => Done (Page w st)
  | Err m w => Failed m (Page w st)
  end.

Section Registration.

Variable render : options -> completion string.

(** [Dispatch.dispatch] in the first file of [src/jquery.popover.js],
    [Dispatch.dispatch1] in [part_001]. *)
Variable dispatch : Dispatch.arg -> Dispatch.outcome.

(** [this.destroy], [$el.removeData(PLUGIN_NAME)] included. *)
Definition destroy (i : nat) (p : page) : outcome :=
  match heap (world_of p) !! i with
  | None => Done p
  | Some s =>
      match el s with
      | None => Failed "TypeError: $el is null" p
      | Some elId =>
          Done (Page (updI i release (world_of p)) (delete elId (store p)))
      end
  end.

(** [instance[args[0]](args[1])] *)
Definition invoke (name : string) (i : nat) (p : page) : outcome :=
  if String.eqb name "show" then
    lift (store p) (Exclusive.show render i (world_of p))
  else if String.eqb name "hide" then
    Done (Page (Exclusive.hide i (world_of p)) (store p))
  else if String.eqb name "destroy" then destroy i p
  else Beyond.

(** [var instance = $.data(this, PLUGIN_NAME);
     if (!instance) {
         instance = new Plugin(this, ...);
         $.data(this, PLUGIN_NAME, instance);
     }] *)
Definition instanceFor (c : call) (elId : nat) (p : page)
    : completion (nat * page) :=
  match store p !! elId with
  | Some i => Normal (i, p)
  | None =>
      match settings c elId with
      | Throw m => Throw m
      | Normal o =>
          let i := length (heap (world_of p)) in
          Normal (i, Page (Exclusive.Plugin elId o (world_of p))
                       (<[elId := i]> (store p)))
      end
  end.

(** The callback of [this.each] for one trigger. *)
Definition each (c : call) (elId : nat) (p : page) : outcome :=
  match instanceFor c elId p with
  | Throw m => Failed m p
  | Normal (i, p) =>
      match dispatch (arg0 c) with
      | Dispatch.Invoked name => invoke name i p
      | Dispatch.Raised m => Failed m p
      | Dispatch.Skipped => Done p
      end
  end.

(** [$.fn.popover]: the triggers of the collection in turn; an exception
    ends the loop. *)
Fixpoint fnPopover (c : call) (els : list nat) (p : page) : outcome :=
  match els with
  | [] => Done p
  | elId :: rest =>
      match each c elId p with
      | Done p => fnPopover c rest p
      | o => o
      end
  end.

(** Auto pilot: [marked] are the triggers with a [data-popover]
    attribute in the content that was added. *)
Definition autoPilot (defaults : nat -> completion options) (marked : list nat)
    : page -> outcome :=
  fnPopover (Call Dispatch.Undefined defaults) marked.

(** The pages that calls of the plugin, calls of [destroy()] and events
    lead to. *)
Inductive reachable : page -> Prop :=
  | reach_blank q : reachable (Page (blankWith q) ∅)
  | reach_call c els p p' :
      reachable p -> after (fnPopover c els p) = Some p' -> reachable p'
  | reach_destroy i p p' :
      reachable p -> after (destroy i p) = Some p' -> reachable p'
  | reach_event ev p :
      reachable p -> Trace.isQuiet ev = true ->
      reachable (Page (Exclusive.step render ev (world_of p)) (store p)).

End Registration.

(** The data store knows exactly the objects that have a trigger. *)
Definition registered (p : page) : Prop :=
  forall elId i,
    store p !! elId = Some i
    <-> (el <$> heap (world_of p)) !! i = Some (Some elId).

End Page.

(** * The second file of [src/jquery.popover.js]: methods and
      [$.fn.popover] *)
Module Second.
Import Env Page.

Definition setBound (b : bool) (s : instance) : instance :=
  Instance (el s) b (opts s) (popover s) (wasClicked s) (showTimeout s)
    (hideTimeout s) (runningRequest s).

Definition setOpts (o : options) (s : instance) : instance :=
  Instance (el s) (bound s) o (popover s) (wasClicked s) (showTimeout s)
    (hideTimeout s) (runningRequest s).

(** [new Plugin(this)] followed by [instance.init(...)]; this file keeps
    no registry. *)
Definition Plugin (elId : nat) (o : options) (w : world) : world :=
  updHeap (fun h => h ++ [Instance (Some elId) true o None false 0 0 None]) w.

(** [this.init] on an object whose trigger has no handlers of the plugin:
    the options are set and the handlers are bound. *)
Definition init (o : options) (i : nat) : world -> world :=
  updI i (fun s => setBound true (setOpts o s)).

(** [this.destroy]: [$doc.off('.popover')] takes the document listeners
    of every object away. *)
Definition destroy (i : nat) (w : world) : world :=
  match heap w !! i with
  | None => w
  | Some _ => updI i (setBound false) (updDoc (fun _ => []) w)
  end.

Section Methods.

(** The text of a new popover, handed to [$]:
    [replacePlaceholders($tpl[0].innerHTML, opts.content)]. *)
Variable render : options -> completion string.

(** [this.show]: a popover that is in the document is left alone. *)
Definition show (i : nat) (w : world) : result :=
  match heap w !! i with
  | None => Ok w
  | Some s =>
      let w := clearTimeout (showTimeout s) w in
      match Exclusive.build render i s w with
      | Throw m => Err m w
      | Normal (e, w) =>
          if isAttached e w then Ok w
          else
            let w := updE e (setAttached true) w in
            let w := fadeTo (animSpeed (opts s)) ToOpaque e (stop e w) in
            Ok (setTimeout (TBindDoc i) w).2
      end
  end.

(** The names under which an object of this file has a property that is
    not falsy: its four methods and what it inherits. *)
Definition isTruthy (name : string) : bool :=
  bool_decide (name ∈ ["init"; "destroy"; "show"; "hide"]
                      ++ Dispatch.inheritedFunctions ++ ["__proto__"]).

(** [instance[args[0]](args[1])] *)
Definition invoke (name : string) (i : nat) (p : page) : outcome :=
  if String.eqb name "show" then lift (store p) (show i (world_of p))
  else if String.eqb name "hide" then
    Done (Page (Simple.hide i (world_of p)) (store p))
  else if String.eqb name "destroy" then
    Done (Page (destroy i (world_of p)) (store p))
  else Beyond.

(** [var instance = $.data(this, PLUGIN_NAME)] and, for a trigger
    without object, [new Plugin(this)], [$.data(this, PLUGIN_NAME, instance)]
    and [instance.init(...)].  Where this [init] throws, the object is in
    the data store already, without options and without handlers: [None],
    such an object is not followed. *)
Definition instanceFor (c : call) (elId : nat) (p : page)
    : option (nat * page) :=
  match store p !! elId with
  | Some i => Some (i, p)
  | None =>
      match settings c elId with
      | Throw _ => None
      | Normal o =>
          let i := length (heap (world_of p)) in
          Some (i, Page (Plugin elId o (world_of p)) (<[elId := i]> (store p)))
      end
  end.

(** The callback of [this.each] for one trigger.  A method that is named
    is called by the first [if] and again by the third. *)
Definition each (c : call) (elId : nat) (p : page) : outcome :=
  match instanceFor c elId p with
  | None => Beyond
  | Some (i, p) =>
      match arg0 c with
      | Dispatch.Str name =>
          if isTruthy name && negb (String.eqb name "init") then
            match invoke name i p with
            | Done p => invoke name i p
            | o => o
            end
          else
            Failed ("Method '" +:+ name +:+ "' doesn't exist for "
                      +:+ Dispatch.PLUGIN_NAME +:+ " plugin") p
      | Dispatch.Obj =>
          let p := Page (destroy i (world_of p)) (store p) in
          match settings c elId with
          | Throw m => Failed m p
          | Normal o => Done (Page (init o i (world_of p)) (store p))
          end
      | Dispatch.Undefined => Done p
      end
  end.

End Methods.

End Second.

(** * Examples *)

Example render_escaped :
  Tpl.replacePlaceholders "__a__-__b__" [("a", "<x>"); ("b", "y")] (Some true)
  = Normal "&lt;x&gt;-y".
Proof. reflexivity. Qed.

Example render_raw :
  Tpl.replacePlaceholders "__a__-__b__" [("a", "<x>"); ("b", "y")] (Some false)
  = Normal "<x>-y".
Proof. reflexivity. Qed.

Example render_dot :
  Tpl.replacePlaceholders "__a.b__ __aXb__" [("a.b", "v")] None
  = Normal "undefined __aXb__".
Proof. reflexivity. Qed.

Example render_first :
  Tpl.replacePlaceholdersEach true "__a__ __a__" [("a", "x")] = "x __a__".
Proof. reflexivity. Qed.

(** * Facts about the template functions *)
Section TplFacts.
Import Tpl Plain.

Ltac ascii_cases c :=
  destruct c as [[] [] [] [] [] [] [] []]; vm_compute; try congruence; try reflexivity.

Lemma special_escapable c : isSpecial c = true -> isIdentityEscape c = true.
Proof. ascii_cases c. Qed.

Lemma plain_not_syntax c :
  isSpecial c = false ->
  Ascii.eqb c "\" = false /\ Ascii.eqb c "." = false /\ isSyntax c = false.
Proof. ascii_cases c; auto. Qed.

Lemma append_cons c s t : String c s +:+ t = String c (s +:+ t).
Proof. reflexivity. Qed.

Lemma append_nil t : EmptyString +:+ t = t.
Proof. reflexivity. Qed.

Lemma compile_escape_app k t :
  compile (escapeRegExp k +:+ t) = (app (lits k)) <$> compile t.
Proof.
  induction k as [|c k IH].
  - change (compile t = (fun m => m) <$> compile t).
    destruct (compile t); reflexivity.
  - change (lits (String c k)) with (Lit c :: lits k).
    cbn [escapeRegExp]. destruct (isSpecial c) eqn:Hc.
    + rewrite !append_cons. cbn [compile]. rewrite Ascii.eqb_refl.
      rewrite (special_escapable c Hc), IH.
      destruct (compile t); reflexivity.
    + destruct (plain_not_syntax c Hc) as (H1 & H2 & H3).
      rewrite append_cons. cbn [compile]. rewrite H1, H2, H3, IH.
      destruct (compile t); reflexivity.
Qed.

Lemma lits_app a b : lits (a +:+ b) = (lits a ++ lits b)%list.
Proof.
  induction a as [|c a IH]; [reflexivity|].
  rewrite append_cons. unfold lits in *. simpl. by rewrite IH.
Qed.

(** Whatever the name, the pattern built from its escaped form compiles,
    and to the characters of [__name__] taken literally. *)
Lemma compile_placeholder k :
  compile ("__" +:+ escapeRegExp k +:+ "__") = Some (lits ("__" +:+ k +:+ "__")).
Proof.
  change (compile ("__" +:+ escapeRegExp k +:+ "__"))
    with (cons (Lit "_") <$> (cons (Lit "_") <$> compile (escapeRegExp k +:+ "__"))).
  rewrite compile_escape_app, !lits_app. reflexivity.
Qed.

Lemma escape_plain k :
  forallb (fun c => negb (isSpecial c)) (list_ascii_of_string k) = true ->
  escapeRegExp k = k.
Proof.
  induction k as [|c k IH]; simpl; [reflexivity|].
  intros [Hc Hk]%andb_prop. apply negb_true_iff in Hc. rewrite Hc, IH; auto.
Qed.

Lemma matchAt_lits n s :
  match matchAt (lits n) s with
  | Some (m, _) => String.prefix n s = true /\ m = n
  | None => String.prefix n s = false
  end.
Proof.
  revert s. induction n as [|a n IH]; intros s.
  - destruct s; simpl; auto.
  - change (lits (String a n)) with (Lit a :: lits n).
    destruct s as [|c r]; simpl; [reflexivity|].
    destruct (ascii_dec a c) as [->|Hne].
    + rewrite Ascii.eqb_refl. specialize (IH r).
      destruct (matchAt (lits n) r) as [[m after]|]; [|exact IH].
      destruct IH as [? ->]. auto.
    + apply Ascii.eqb_neq in Hne. rewrite Hne. reflexivity.
Qed.

Lemma getSubstitution_plain m b a repl :
  noDollar repl = true -> getSubstitution m b a repl = repl.
Proof.
  unfold noDollar. induction repl as [|c r IH]; simpl; [reflexivity|].
  intros [Hc Hr]%andb_prop. apply negb_true_iff in Hc. rewrite Hc, IH; auto.
Qed.

(** On a pattern of literal characters and a replacement without [$] the
    global regex replace is the literal substitution. *)
Lemma replaceLoop_lits n repl :
  noDollar repl = true -> n <> EmptyString ->
  forall s before skip,
    replaceLoop (lits n) repl before skip s = Spec.substAllFrom n repl skip s.
Proof.
  intros Hrepl Hn. induction s as [|c r IH]; intros before skip.
  - destruct skip; simpl; [|reflexivity].
    destruct n as [|a n]; [congruence|reflexivity].
  - destruct skip as [|k]; [|simpl; apply IH].
    cbn [replaceLoop Spec.substAllFrom].
    pose proof (matchAt_lits n (String c r)) as Hm.
    destruct (matchAt (lits n) (String c r)) as [[m after]|].
    + destruct Hm as [-> ->]. rewrite getSubstitution_plain by exact Hrepl.
      destruct n as [|a n]; [congruence|]. simpl String.length.
      cbn [pred]. by rewrite IH.
    + rewrite Hm. by rewrite IH.
Qed.

Lemma noDollar_app a b : noDollar (a +:+ b) = noDollar a && noDollar b.
Proof.
  unfold noDollar. induction a as [|c a IH]; [reflexivity|].
  rewrite append_cons. simpl. by rewrite IH, andb_assoc.
Qed.

Lemma noDollar_encode v : noDollar v = true -> noDollar (encodeText v) = true.
Proof.
  induction v as [|c v IH]; [reflexivity|].
  change (noDollar (String c v)) with (negb (Ascii.eqb c "$") && noDollar v).
  intros [Hc Hv]%andb_prop. cbn [encodeText].
  rewrite noDollar_app, (IH Hv), andb_true_r.
  revert Hc. clear. ascii_cases c.
Qed.

Lemma lookup_distinct d k v :
  distinctKeys d = true -> In (k, v) d -> lookup d k = Some v.
Proof.
  induction d as [|[k0 v0] d IH]; simpl; [tauto|].
  intros [Hk0 Hd]%andb_prop [Heq|Hin].
  - inversion Heq; subst. by rewrite String.eqb_refl.
  - specialize (IH Hd Hin). destruct (String.eqb k0 k) eqn:E; [|exact IH].
    apply String.eqb_eq in E. subst k0. rewrite IH in Hk0.
    rewrite bool_decide_eq_true_2 in Hk0 by eauto. discriminate.
Qed.

Lemma lookup_absent d name :
  (forall k v, In (k, v) d -> String.eqb k name = false) -> lookup d name = None.
Proof.
  induction d as [|[k0 v0] d IH]; simpl; [reflexivity|].
  intros H. rewrite (H k0 v0) by auto. apply IH. intros k v Hin. eauto.
Qed.

Lemma forIn_plain d escape :
  lookup d "hasOwnProperty" = None ->
  forall d2 html,
    (forall k v, In (k, v) d2 ->
       lookup d k = Some v /\ plainName k = true /\ noDollar v = true) ->
    forIn d escape html (map fst d2) = Normal (Spec.render html d2 escape).
Proof.
  intros Hown. induction d2 as [|[k v] d2 IH]; intros html Hall; [reflexivity|].
  destruct (Hall k v (or_introl eq_refl)) as (Hk & Hplain & Hv).
  apply andb_prop in Hplain as [Hplain _].
  cbn [map fst forIn]. unfold substituteKey, hasOwnProperty.
  rewrite Hown, Hk, bool_decide_eq_true_2 by eauto.
  rewrite compile_placeholder, (escape_plain k Hplain), Hk.
  unfold replaceRegExpG, htmlEncode, toString.
  rewrite replaceLoop_lits.
  - rewrite IH; [reflexivity|]. intros k' v' Hin. apply Hall. by right.
  - destruct escape; [by apply noDollar_encode|exact Hv].
  - discriminate.
Qed.

Lemma replacePlaceholders_plain html d escape :
  plainData d = true ->
  replacePlaceholders html d escape = Normal (Spec.render html d (escapes escape)).
Proof.
  intros [Hd Hall]%andb_prop. rewrite forallb_forall in Hall.
  unfold replacePlaceholders. fold (escapes escape).
  apply forIn_plain.
  - apply lookup_absent. intros k v Hin.
    specialize (Hall _ Hin). cbn in Hall.
    apply andb_prop in Hall as [[_ Hn]%andb_prop _].
    by apply negb_true_iff in Hn.
  - intros k v Hin. split; [by apply lookup_distinct|].
    specialize (Hall _ Hin). by apply andb_prop in Hall.
Qed.

(** What [htmlEncode] leaves behind: no [<] and no [>]. *)
Lemma encodeText_no_angle v c :
  In c (list_ascii_of_string (encodeText v)) -> c <> "<"%char /\ c <> ">"%char.
Proof.
  induction v as [|a v IH]; [intros []|].
  cbn [encodeText]. unfold lits. intros Hin.
  assert (In c (list_ascii_of_string (encodeChar a)) \/
          In c (list_ascii_of_string (encodeText v))) as [H|H].
  { revert Hin. generalize (encodeChar a) (encodeText v). clear.
    intros x y. induction x as [|b x IH]; [auto|].
    rewrite append_cons. simpl. intros [->|H]; [auto|]. destruct (IH H); auto. }
  - revert H. clear. unfold encodeChar.
    destruct (Ascii.eqb a "&") eqn:E1; [simpl; intuition (subst; discriminate)|].
    destruct (Ascii.eqb a "<") eqn:E2; [simpl; intuition (subst; discriminate)|].
    destruct (Ascii.eqb a ">") eqn:E3; [simpl; intuition (subst; discriminate)|].
    destruct (Ascii.eqb a (chr 160)) eqn:E4; [simpl; intuition (subst; discriminate)|].
    simpl. intros [<-|[]]. apply Ascii.eqb_neq in E2, E3. auto.
  - auto.
Qed.

End TplFacts.


(** ** What the operations leave alone *)
Section EnvFacts.
Import Env.

Lemma fmap_alter_same {A B} (p : A -> B) (f : A -> A) i (l : list A) :
  (forall x, p (f x) = p x) -> p <$> alter f i l = p <$> l.
Proof.
  intros Hf. revert i. induction l as [|x l IH]; intros [|i]; simpl; try done.
  - by rewrite Hf.
  - f_equal. apply IH.
Qed.

Lemma skel_updI i f w :
  (forall s, popover (f s) = popover s) -> skel (updI i f w) = skel w.
Proof. intros Hf. unfold skel. simpl. by rewrite fmap_alter_same. Qed.

Lemma skel_updE e f w :
  (forall x, owner (f x) = owner x) -> skel (updE e f w) = skel w.
Proof. intros Hf. unfold skel. simpl. by rewrite fmap_alter_same. Qed.

Lemma owner_setAttached b x : owner (setAttached b x) = owner x.
Proof. by destruct x. Qed.

Lemma owner_setAnim a x : owner (setAnim a x) = owner x.
Proof. by destruct x. Qed.

Lemma owner_finishElem x : owner (finishElem x) = owner x.
Proof. destruct x as [o m b [[]|] h|]; done. Qed.

Lemma markup_setAttached b x : markup (setAttached b x) = markup x.
Proof. by destruct x. Qed.

Lemma markup_setAnim a x : markup (setAnim a x) = markup x.
Proof. by destruct x. Qed.

Lemma markup_finishElem x : markup (finishElem x) = markup x.
Proof. destruct x as [o m b [[]|] h|]; done. Qed.

Lemma nodes_setAttached b x : nodes (setAttached b x) = nodes x.
Proof. by destruct x. Qed.

Lemma nodes_setAnim a x : nodes (setAnim a x) = nodes x.
Proof. by destruct x. Qed.

Lemma nodes_finishElem x : nodes (finishElem x) = nodes x.
Proof. destruct x as [o m b [[]|] h|]; done. Qed.

Lemma attached_setAnim a x : attached (setAnim a x) = attached x.
Proof. by destruct x. Qed.

Lemma anim_setAttached b x : anim (setAttached b x) = anim x.
Proof. by destruct x. Qed.

Lemma attached_setAttached b x : nodes x = true -> attached (setAttached b x) = b.
Proof. by destruct x. Qed.

Lemma anim_setAnim a x : nodes x = true -> anim (setAnim a x) = a.
Proof. by destruct x. Qed.

(** Only a collection with elements can be in the document. *)
Lemma attached_nodes x : attached x = true -> nodes x = true.
Proof. by destruct x. Qed.

Lemma owner_collection i text parsed : owner (collection i text parsed) = i.
Proof. by destruct parsed. Qed.

Lemma markup_collection i text parsed : markup (collection i text parsed) = text.
Proof. by destruct parsed. Qed.

Lemma attached_collection i text parsed :
  attached (collection i text parsed) = false.
Proof. by destruct parsed. Qed.

Lemma nodes_collection i text parsed : nodes (collection i text parsed) = parsed.
Proof. by destruct parsed. Qed.

Lemma skel_stop e w : skel (stop e w) = skel w.
Proof. apply skel_updE. intros x. apply owner_setAnim. Qed.

Lemma skel_fadeTo speed t e w : skel (fadeTo speed t e w) = skel w.
Proof.
  destruct speed; apply skel_updE; intros x.
  - by rewrite owner_finishElem, owner_setAnim.
  - apply owner_setAnim.
Qed.

Lemma skel_clearTimeout id w : skel (clearTimeout id w) = skel w.
Proof. done. Qed.

Lemma skel_setTimeout t w : skel (setTimeout t w).2 = skel w.
Proof. done. Qed.

Lemma skel_docOff i w : skel (docOff i w) = skel w.
Proof. done. Qed.

Lemma skel_docOne i w : skel (docOne i w) = skel w.
Proof. done. Qed.

Lemma skel_logHide i w : skel (logHide i w) = skel w.
Proof. done. Qed.

Lemma linked_skel w w' : skel w' = skel w -> linked w -> linked w'.
Proof.
  unfold skel. intros [= Hi Hp Ho] [H1 H2]. split.
  - intros i s e Hs Hpop.
    assert ((popover <$> heap w) !! i = Some (Some e)) as Hl.
    { rewrite <- Hp, list_lookup_fmap, Hs. simpl. by rewrite Hpop. }
    rewrite list_lookup_fmap in Hl.
    destruct (heap w !! i) as [s0|] eqn:Hs0; [|done]. simpl in Hl.
    destruct (H1 i s0 e Hs0) as (x & Hx & Hox); [congruence|].
    assert ((owner <$> dom w') !! e = Some i) as Hl'.
    { rewrite Ho, list_lookup_fmap, Hx. simpl. by rewrite Hox. }
    rewrite list_lookup_fmap in Hl'.
    destruct (dom w' !! e) as [x'|]; [|done]. simpl in Hl'. exists x'.
    split; congruence.
  - intros e x Hx.
    assert ((owner <$> dom w) !! e = Some (owner x)) as Hl.
    { rewrite <- Ho, list_lookup_fmap, Hx. done. }
    rewrite list_lookup_fmap in Hl.
    destruct (dom w !! e) as [x0|] eqn:Hx0; [|done]. simpl in Hl.
    destruct (H2 e x0 Hx0) as (s & Hs & Hpop).
    assert ((popover <$> heap w') !! owner x = Some (Some e)) as Hl'.
    { rewrite Hp, list_lookup_fmap. injection Hl as <-. rewrite Hs. simpl.
      by rewrite Hpop. }
    rewrite list_lookup_fmap in Hl'.
    destruct (heap w' !! owner x) as [s'|]; [|done]. simpl in Hl'. exists s'.
    split; congruence.
Qed.

(** A new collection for an object that has none. *)
Lemma linked_build i s x0 w :
  heap w !! i = Some s -> popover s = None -> owner x0 = i -> linked w ->
  linked (updI i (setPopover (Some (length (dom w))))
            (updDom (fun d => d ++ [x0]) w)).
Proof.
  intros Hs Hnone Hown [H1 H2]. split.
  - intros j sj e. simpl. intros Hj Hpop.
    destruct (decide (j = i)) as [->|Hne].
    + rewrite list_lookup_alter_eq, Hs in Hj. simpl in Hj.
      injection Hj as <-. simpl in Hpop. injection Hpop as <-.
      eexists. split; [apply list_lookup_middle; done|done].
    + rewrite list_lookup_alter_ne in Hj by done.
      destruct (H1 j sj e Hj Hpop) as (x & Hx & Ho).
      exists x. split; [|done]. by apply lookup_app_l_Some.
  - intros e x. simpl. intros Hx.
    destruct (decide (e < length (dom w))) as [Hlt|Hge].
    + rewrite lookup_app_l in Hx by done.
      destruct (H2 e x Hx) as (sx & Hsx & Hpop).
      destruct (decide (owner x = i)) as [Hi|Hne].
      * rewrite Hi in Hsx. congruence.
      * exists sx. by rewrite list_lookup_alter_ne.
    + rewrite lookup_app_r in Hx by lia.
      destruct (e - length (dom w)) as [|n] eqn:En; [|done].
      simpl in Hx. injection Hx as <-. rewrite Hown. simpl.
      rewrite list_lookup_alter_eq, Hs. simpl. eexists. split; [done|].
      simpl. f_equal. lia.
Qed.

(** A new object. *)
Lemma linked_grow s w :
  popover s = None -> linked w -> linked (updHeap (fun h => h ++ [s]) w).
Proof.
  intros Hnone [H1 H2]. split.
  - intros j sj e. simpl. intros Hj Hpop. apply (H1 j sj e); [|done].
    destruct (decide (j < length (heap w))) as [Hlt|Hge].
    + by rewrite lookup_app_l in Hj.
    + rewrite lookup_app_r in Hj by lia.
      destruct (j - length (heap w)) as [|n]; [|done].
      simpl in Hj. congruence.
  - intros e x Hx. destruct (H2 e x Hx) as (sx & Hsx & Hpop).
    exists sx. split; [|done]. simpl. by apply lookup_app_l_Some.
Qed.

Lemma filter_none {A} (P : A -> Prop) `{!forall x, Decision (P x)} (l : list A) :
  (forall j y, l !! j = Some y -> ~ P y) -> filter P l = [].
Proof.
  induction l as [|a l IH]; intros Hno; [done|].
  rewrite filter_cons_False by exact (Hno 0 a eq_refl).
  apply IH. intros j y Hj. exact (Hno (S j) y Hj).
Qed.

(** At most one element in a list has a property that only one index
    can have. *)
Lemma filter_at_most_one {A} (P : A -> Prop) `{!forall x, Decision (P x)}
    (l : list A) :
  (forall i j x y, l !! i = Some x -> l !! j = Some y -> P x -> P y -> i = j) ->
  length (filter P l) <= 1.
Proof.
  induction l as [|a l IH]; intros Huniq; [simpl; lia|].
  rewrite filter_cons. destruct (decide (P a)) as [Ha|Ha].
  - assert (filter P l = []) as ->; [|simpl; lia].
    apply filter_none. intros j y Hj Py.
    specialize (Huniq 0 (S j) a y eq_refl Hj Ha Py). done.
  - apply IH. intros i j x y Hi Hj Px Py.
    specialize (Huniq (S i) (S j) x y Hi Hj Px Py). lia.
Qed.

Lemma filter_exactly_one {A} (P : A -> Prop) `{!forall x, Decision (P x)}
    (l : list A) i x :
  l !! i = Some x -> P x ->
  (forall j y, l !! j = Some y -> P y -> j = i) ->
  length (filter P l) = 1.
Proof.
  intros Hi Px Huniq.
  assert (length (filter P l) <= 1).
  { apply filter_at_most_one. intros a b u v Ha Hb Pu Pv.
    rewrite (Huniq a u Ha Pu), (Huniq b v Hb Pv). done. }
  assert (x ∈ filter P l) as Hin.
  { apply list_elem_of_filter. split; [done|]. by eapply list_elem_of_lookup_2. }
  destruct (filter P l); [by apply elem_of_nil in Hin|simpl in *; lia].
Qed.

Lemma linked_at_most_one i w : linked w -> length (popoversOf i w) <= 1.
Proof.
  intros [_ H2]. apply filter_at_most_one. intros e1 e2 x y H1x H2y Hx Hy.
  destruct (H2 e1 x H1x) as (s1 & Hs1 & Hp1).
  destruct (H2 e2 y H2y) as (s2 & Hs2 & Hp2). congruence.
Qed.

End EnvFacts.



(** * Facts about the registry revisions *)
Module ExclusiveFacts.
Import Env Exclusive.

Section Facts.
Variable render : options -> completion string.

Lemma Inv_skel w w' : skel w' = skel w -> Inv w -> Inv w'.
Proof.
  intros Hsk [Hl Hr]. split; [by eapply linked_skel|].
  pose proof Hsk as [= Hi Hp _].
  rewrite Hi, Hr. f_equal.
  by rewrite <- (length_fmap popover (heap w')), Hp, length_fmap.
Qed.

Lemma leaving_fadeOut speed x : leaving (fadeOut speed x).
Proof. destruct x, speed; unfold leaving; simpl; done. Qed.

Lemma owner_fadeOut speed x : owner (fadeOut speed x) = owner x.
Proof. by destruct x, speed. Qed.

Lemma markup_fadeOut speed x : markup (fadeOut speed x) = markup x.
Proof. by destruct x, speed. Qed.

Lemma nodes_fadeOut speed x : nodes (fadeOut speed x) = nodes x.
Proof. by destruct x, speed. Qed.

Lemma alter_alter {A} (f g : A -> A) i (l : list A) :
  alter f i (alter g i l) = alter (fun x => f (g x)) i l.
Proof.
  revert i. induction l as [|x l IH]; intros [|i]; simpl; try done.
  f_equal. apply IH.
Qed.

Lemma alter_absent {A} (f : A -> A) i (l : list A) :
  l !! i = None -> alter f i l = l.
Proof.
  revert i. induction l as [|x l IH]; intros [|i]; simpl; try done.
  intros H. f_equal. by apply IH.
Qed.

Lemma hide_dom i s w :
  heap w !! i = Some s ->
  dom (hide i w) =
    match popover s with
    | Some e => alter (fadeOut (animSpeed (opts s))) e (dom w)
    | None => dom w
    end.
Proof.
  intros Hs. unfold hide. rewrite Hs.
  destruct (popover s) as [e|]; [|done].
  unfold fadeTo, fadeOut. destruct (animSpeed (opts s)); simpl;
    by rewrite alter_alter.
Qed.

Lemma hide_heap i w :
  heap (hide i w) = alter (setWasClicked false) i (heap w).
Proof.
  unfold hide. destruct (heap w !! i) as [s|] eqn:Hs.
  - destruct (popover s); [unfold fadeTo; destruct (animSpeed (opts s))|]; done.
  - by rewrite alter_absent.
Qed.

Lemma hide_instances i w : instances (hide i w) = instances w.
Proof.
  unfold hide. destruct (heap w !! i) as [s|]; [|done].
  destruct (popover s); [unfold fadeTo; destruct (animSpeed (opts s))|]; done.
Qed.

Lemma hide_hideCalls i w :
  is_Some (heap w !! i) -> hideCalls (hide i w) = hideCalls w ++ [i].
Proof.
  intros [s Hs]. unfold hide. rewrite Hs.
  destruct (popover s); [unfold fadeTo; destruct (animSpeed (opts s))|]; done.
Qed.

Lemma hide_timers i s w :
  heap w !! i = Some s ->
  timers (hide i w) = filter (fun t => t.1 <> hideTimeout s) (timers w).
Proof.
  intros Hs. unfold hide. rewrite Hs.
  destruct (popover s); [unfold fadeTo; destruct (animSpeed (opts s))|]; done.
Qed.

Lemma hide_docClick i w :
  is_Some (heap w !! i) ->
  docClick (hide i w) = filter (fun j => j <> i) (docClick w).
Proof.
  intros [s Hs]. unfold hide. rewrite Hs.
  destruct (popover s); [unfold fadeTo; destruct (animSpeed (opts s))|]; done.
Qed.

Lemma skel_hide i w : skel (hide i w) = skel w.
Proof.
  unfold skel. rewrite hide_instances, hide_heap.
  rewrite fmap_alter_same by done. f_equal.
  destruct (heap w !! i) as [s|] eqn:Hs.
  - rewrite (hide_dom i s w Hs). destruct (popover s); [|done].
    apply fmap_alter_same, owner_fadeOut.
  - unfold hide. by rewrite Hs.
Qed.

(** [hide] of one object leaves the elements of the others as they
    are. *)
Lemma hide_dom_other i w e x :
  linked w -> dom w !! e = Some x -> owner x <> i ->
  dom (hide i w) !! e = Some x.
Proof.
  intros [H1 _] Hx Hne.
  destruct (heap w !! i) as [s|] eqn:Hs; [|unfold hide; by rewrite Hs].
  rewrite (hide_dom i s w Hs).
  destruct (popover s) as [e'|] eqn:Hp; [|done].
  destruct (H1 i s e' Hs Hp) as (x' & Hx' & Ho).
  rewrite list_lookup_alter_ne; [done|]. intros ->. congruence.
Qed.

Lemma hide_dom_own i w e x :
  linked w -> dom w !! e = Some x -> owner x = i ->
  exists x', dom (hide i w) !! e = Some x' /\ owner x' = i /\ leaving x'.
Proof.
  intros [_ H2] Hx Ho. destruct (H2 e x Hx) as (s & Hs & Hp).
  rewrite Ho in Hs. rewrite (hide_dom i s w Hs), Hp.
  rewrite list_lookup_alter_eq, Hx. simpl. eexists. split; [done|].
  split; [by rewrite owner_fadeOut|apply leaving_fadeOut].
Qed.

Lemma sweep_cons i j l w :
  sweep i (j :: l) w = sweep i l (if decide (j = i) then w else hide j w).
Proof. done. Qed.

Lemma skel_sweep i l w : skel (sweep i l w) = skel w.
Proof.
  revert w. induction l as [|j l IH]; intros w; [done|].
  rewrite sweep_cons, IH. case_decide; [done|apply skel_hide].
Qed.

Lemma sweep_heap_self i l w : heap (sweep i l w) !! i = heap w !! i.
Proof.
  revert w. induction l as [|j l IH]; intros w; [done|].
  rewrite sweep_cons, IH. case_decide; [done|].
  by rewrite hide_heap, list_lookup_alter_ne.
Qed.

(** The calls the sweep makes: [hide] of every registered object but
    [i], in the order of the registry. *)
Lemma sweep_hideCalls i l w :
  (forall j, j ∈ l -> is_Some (heap w !! j)) ->
  hideCalls (sweep i l w) = hideCalls w ++ filter (fun j => j <> i) l.
Proof.
  revert w. induction l as [|j l IH]; intros w Hl.
  - by rewrite filter_nil, app_nil_r.
  - rewrite sweep_cons, filter_cons. case_decide as Hj.
    + subst j. rewrite decide_False by tauto.
      apply IH. intros k Hk. apply Hl. by right.
    + rewrite decide_True by done. rewrite IH.
      * rewrite hide_hideCalls by (apply Hl; by left).
        by rewrite <- app_assoc.
      * intros k Hk. rewrite hide_heap.
        destruct (Hl k) as [s Hs]; [by right|].
        destruct (decide (j = k)) as [->|Hne].
        -- rewrite list_lookup_alter_eq, Hs. by eexists.
        -- rewrite list_lookup_alter_ne by done. by eexists.
Qed.

(** After the sweep the element of [i] is as before and the element of
    every other registered object is leaving. *)
Lemma sweep_dom i l w e x :
  linked w -> dom w !! e = Some x ->
  exists x', dom (sweep i l w) !! e = Some x' /\ owner x' = owner x /\
    (owner x = i -> x' = x) /\
    (leaving x -> leaving x') /\
    (owner x ∈ l -> owner x <> i -> leaving x').
Proof.
  revert w x. induction l as [|j l IH]; intros w x Hw Hx.
  - exists x. repeat split; try done. intros Hin. by apply elem_of_nil in Hin.
  - rewrite sweep_cons. case_decide as Hj.
    + subst j. destruct (IH w x Hw Hx) as (x' & Hx' & Ho & Hsame & Hl & Hin).
      exists x'. repeat split; try done.
      intros [->|Hmem]%elem_of_cons Hne; [done|auto].
    + assert (linked (hide j w)) as Hw1 by (eapply linked_skel, Hw; apply skel_hide).
      destruct (decide (owner x = j)) as [Hoj|Hoj].
      * destruct (hide_dom_own j w e x Hw Hx Hoj) as (x1 & Hx1 & Ho1 & Hl1).
        destruct (IH _ x1 Hw1 Hx1) as (x' & Hx' & Ho & Hsame & Hl & Hin).
        exists x'. split; [done|]. split; [congruence|].
        split; [intros Hoi; congruence|].
        split; [intros _; exact (Hl Hl1)|intros _ _; exact (Hl Hl1)].
      * pose proof (hide_dom_other j w e x Hw Hx Hoj) as Hx1.
        destruct (IH _ x Hw1 Hx1) as (x' & Hx' & Ho & Hsame & Hl & Hin).
        exists x'. repeat split; try done.
        intros [Heq|Hmem]%elem_of_cons Hne; [done|auto].
Qed.

(** What the sweep does to an element, when no object is registered
    twice: the element of [i] is left alone, the element of any other
    registered object is faded out once. *)
Lemma sweep_dom_exact i l : NoDup l ->
  forall w e x s,
    linked w -> dom w !! e = Some x -> heap w !! owner x = Some s ->
    dom (sweep i l w) !! e
    = Some (if bool_decide (owner x ∈ l /\ owner x <> i)
            then fadeOut (animSpeed (opts s)) x else x).
Proof.
  induction 1 as [|j l Hj Hl IH]; intros w e x s Hw Hx Hs.
  - case_bool_decide as H; [|done].
    destruct H as [Hin _]. by apply elem_of_nil in Hin.
  - rewrite sweep_cons. case_decide as Hji.
    + subst j. rewrite (IH w e x s Hw Hx Hs).
      rewrite (bool_decide_ext (owner x ∈ l /\ owner x <> i)
                 (owner x ∈ i :: l /\ owner x <> i)); [done|].
      rewrite elem_of_cons. tauto.
    + assert (linked (hide j w)) as Hw1 by (eapply linked_skel, Hw; apply skel_hide).
      destruct (decide (owner x = j)) as [Hoj|Hoj].
      * assert (popover s = Some e) as Hp.
        { destruct Hw as [_ H2]. destruct (H2 e x Hx) as (s' & Hs' & Hp').
          congruence. }
        rewrite Hoj in Hs.
        assert (dom (hide j w) !! e = Some (fadeOut (animSpeed (opts s)) x)) as Hx1.
        { by rewrite (hide_dom j s w Hs), Hp, list_lookup_alter_eq, Hx. }
        assert (heap (hide j w) !! owner (fadeOut (animSpeed (opts s)) x)
                = Some (setWasClicked false s)) as Hs1.
        { by rewrite owner_fadeOut, Hoj, hide_heap, list_lookup_alter_eq, Hs. }
        rewrite (IH _ e _ _ Hw1 Hx1 Hs1), owner_fadeOut, Hoj.
        rewrite bool_decide_eq_false_2 by (intros [? _]; done).
        rewrite bool_decide_eq_true_2; [done|]. split; [by left|done].
      * pose proof (hide_dom_other j w e x Hw Hx Hoj) as Hx1.
        assert (heap (hide j w) !! owner x = Some s) as Hs1.
        { rewrite hide_heap, list_lookup_alter_ne; done. }
        rewrite (IH _ e x s Hw1 Hx1 Hs1).
        rewrite (bool_decide_ext (owner x ∈ l /\ owner x <> i)
                   (owner x ∈ j :: l /\ owner x <> i)); [done|].
        rewrite elem_of_cons. tauto.
Qed.

(** What is faded in is in the document, unless it is the empty
    collection. *)
Lemma attached_fadeIn speed x : attached (fadeIn speed x) = nodes x.
Proof. by destruct x, speed. Qed.

Lemma owner_fadeIn speed x : owner (fadeIn speed x) = owner x.
Proof. by destruct x, speed. Qed.

Lemma nodes_fadeIn speed x : nodes (fadeIn speed x) = nodes x.
Proof. by destruct x, speed. Qed.

Lemma markup_fadeIn speed x : markup (fadeIn speed x) = markup x.
Proof. by destruct x, speed. Qed.

Lemma anim_fadeIn speed x : anim (fadeIn speed x) <> Some ToTransparent.
Proof. by destruct x, speed. Qed.


Lemma place_spec e s w :
  el s <> None ->
  exists w', place e s w = Ok w' /\ rest w' = rest w /\
    dom w' = alter (fun x => setAttached true (setAnim None x)) e (dom w).
Proof.
  intros Hel. unfold place, isAttached. simpl.
  rewrite list_lookup_alter_eq.
  destruct (dom w !! e) as [x|] eqn:Hx; simpl.
  - rewrite attached_setAnim. destruct (attached x) eqn:Ha.
    + eexists. split; [done|]. split; [done|]. simpl.
      apply list_eq. intros k. destruct (decide (e = k)) as [->|Hne].
      * rewrite !list_lookup_alter_eq, Hx. simpl. f_equal.
        destruct x; simpl in *; by subst.
      * by rewrite !list_lookup_alter_ne.
    + destruct (el s); [|done]. eexists. split; [done|]. split; [done|].
      simpl. by rewrite alter_alter.
  - destruct (el s); [|done]. eexists. split; [done|]. split; [done|].
    simpl. by rewrite alter_alter.
Qed.

Lemma show_unbuilt i s html parsed w :
  heap w !! i = Some s -> popover s = None -> render (opts s) = Normal html ->
  jQuery w html = Normal parsed ->
  show render i w = show render i (built i (collection i html parsed) w).
Proof.
  intros Hs Hp Hr Hq. unfold show at 1. rewrite Hs. unfold build. rewrite Hp, Hr.
  cbn [jQuery clearTimeout]. rewrite Hq.
  unfold show. simpl. rewrite list_lookup_alter_eq, Hs. simpl. done.
Qed.

(** [show] whose [build] throws ends there. *)
Lemma show_fails i s w :
  heap w !! i = Some s -> popover s = None ->
  (forall html parsed, render (opts s) = Normal html ->
     jQuery w html <> Normal parsed) ->
  exists m, show render i w = Err m (clearTimeout (showTimeout s) w).
Proof.
  intros Hs Hp Hno. unfold show. rewrite Hs. unfold build. rewrite Hp.
  destruct (render (opts s)) as [html|m] eqn:Hr; [|by eexists].
  cbn [jQuery clearTimeout].
  destruct (jQuery w html) as [parsed|m] eqn:Hq; [|by eexists].
  by destruct (Hno html parsed).
Qed.

(** [show] of a live object whose element exists. *)
Lemma show_built i s e w :
  heap w !! i = Some s -> popover s = Some e -> el s <> None ->
  exists w',
    show render i w = Ok w' /\
    let w2 := sweep i (instances w) (clearTimeout (showTimeout s) w) in
    dom w' = alter (fadeIn (animSpeed (opts s))) e (dom w2) /\
    instances w' = instances w /\ heap w' = heap w2 /\
    hideCalls w' = hideCalls w2 /\ docClick w' = docClick w2 /\
    timers w' = timers w2 ++ [(nextTimer w2, TBindDoc i)].
Proof.
  intros Hs Hp Hel. unfold show. rewrite Hs. unfold build. rewrite Hp.
  unfold hideOthers. simpl instances.
  set (w2 := sweep i (instances w) (clearTimeout (showTimeout s) w)).
  destruct (place_spec e s w2 Hel) as (w3 & -> & Hrest & Hdom).
  injection Hrest as Hi Hh Ht Hn Hd _ _ _ Hc _.
  eexists. split; [done|]. simpl.
  assert (instances w2 = instances w) as Hi2.
  { pose proof (skel_sweep i (instances w) (clearTimeout (showTimeout s) w)) as [= H _ _].
    exact H. }
  unfold fadeTo, fadeIn. destruct (animSpeed (opts s)); simpl;
    rewrite Hdom, alter_alter, Hi, Hh, Ht, Hn, Hd, Hc; done.
Qed.

Lemma skel_place e s w : skel (state (place e s w)) = skel w.
Proof.
  unfold place. destruct (isAttached e (stop e w)); [apply skel_stop|].
  destruct (el s); simpl; [|apply skel_stop].
  rewrite skel_updE; [apply skel_stop|]. intros x. apply owner_setAttached.
Qed.

Lemma Inv_built i s x w :
  heap w !! i = Some s -> popover s = None -> owner x = i -> Inv w ->
  Inv (built i x w).
Proof.
  intros Hs Hp Ho [Hl Hr]. split; [by eapply linked_build|].
  simpl. by rewrite length_alter.
Qed.

(** A property of the page that only reads who points at what, and
    survives a new collection and a new object, survives every step. *)
Section Preserved.
Variable P : world -> Prop.
Hypothesis P_skel : forall w w', skel w' = skel w -> P w -> P w'.
Hypothesis P_built : forall i s x w,
  heap w !! i = Some s -> popover s = None -> owner x = i -> P w ->
  P (built i x w).
Hypothesis P_create : forall elId o w, P w -> P (Plugin elId o w).

Lemma preserved_show i w : P w -> P (state (show render i w)).
Proof.
  intros Hw. unfold show.
  destruct (heap w !! i) as [s|] eqn:Hs; [|done].
  assert (forall e w1, P w1 ->
    P (state (match place e s (hideOthers i w1) with
              | Err m w => Err m w
              | Ok w => Ok (setTimeout (TBindDoc i)
                             (fadeTo (animSpeed (opts s)) ToOpaque e w)).2
              end))) as Htail.
  { intros e w1 Hw1.
    pose proof (skel_place e s (hideOthers i w1)) as Hp.
    destruct (place e s (hideOthers i w1)) as [w3|m w3]; cbn [state] in *.
    - eapply P_skel, Hw1.
      rewrite skel_setTimeout, skel_fadeTo, Hp. apply skel_sweep.
    - eapply P_skel, Hw1. rewrite Hp. apply skel_sweep. }
  unfold build. destruct (popover s) as [e|] eqn:Hp.
  - apply Htail. by eapply P_skel, Hw.
  - destruct (render (opts s)) as [html|m]; [|by eapply P_skel, Hw].
    destruct (jQuery _ html) as [parsed|m]; [|by eapply P_skel, Hw].
    apply Htail.
    apply (P_skel (built i (collection i html parsed) w)).
    + unfold built, skel. simpl. reflexivity.
    + eapply P_built; [done|done|apply owner_collection|done].
Qed.

Lemma preserved_docDispatch w : P w -> P (docDispatch w).
Proof.
  unfold docDispatch. generalize (docClick w). intros l. revert w.
  induction l as [|i l IH]; intros w Hw; [done|].
  simpl. apply IH. eapply P_skel, Hw. apply skel_hide.
Qed.

Lemma preserved_step ev w : P w -> P (step render ev w).
Proof.
  intros Hw. destruct ev as [elId o|i|i|i|i|i|i|i|i|i| |id|e]; simpl.
  - by apply P_create.
  - by apply preserved_show.
  - eapply P_skel, Hw. apply skel_hide.
  - unfold destroy. destruct (heap w !! i) as [s|]; [|done].
    destruct (el s); [|done]. eapply P_skel, Hw. by apply skel_updI.
  - apply preserved_docDispatch. unfold onClick.
    destruct (heap w !! i) as [s|]; [|done]. destruct (bound s); [|done].
    destruct (match popover s with Some e => isAttached e w | None => false end).
    + eapply P_skel, Hw. apply skel_hide.
    + pose proof (preserved_show i w Hw) as Hsh.
      destruct (show render i w) as [w1|m w1]; simpl in *; [|done].
      eapply P_skel, Hsh. by apply skel_updI.
  - unfold onMouseEnter. destruct (heap w !! i) as [s|]; [|done].
    destruct (bound s); [|done]. eapply P_skel, Hw. simpl.
    by apply (skel_updI _ _ (setTimeout (TShow i) (clearTimeout (hideTimeout s) w)).2).
  - unfold onMouseLeave. destruct (heap w !! i) as [s|]; [|done].
    destruct (bound s); [|done].
    destruct (wasClicked s); [by eapply P_skel, Hw|].
    eapply P_skel, Hw.
    by apply (skel_updI _ _ (setTimeout (THide i) (clearTimeout (showTimeout s) w)).2).
  - done.
  - unfold onPopoverEnter. destruct (overPopover i w); [|done].
    by eapply P_skel, Hw.
  - unfold onPopoverLeave. destruct (overPopover i w) as [s|]; [|done].
    destruct (wasClicked s); [done|]. eapply P_skel, Hw.
    by apply (skel_updI _ _ (setTimeout (THide i) (clearTimeout (showTimeout s) w)).2).
  - by apply preserved_docDispatch.
  - unfold fire. destruct (list_find _ _) as [[k [k' t]]|]; [|done].
    assert (P (clearTimeout id w)) as Hw' by (by eapply P_skel, Hw).
    destruct t as [i|i|i]; simpl.
    + by apply preserved_show.
    + eapply P_skel, Hw. by rewrite skel_hide.
    + by eapply P_skel, Hw.
  - eapply P_skel, Hw. apply skel_updE. apply owner_finishElem.
Qed.

Lemma preserved_run evs w : P w -> P (run render evs w).
Proof.
  revert w. induction evs as [|ev evs IH]; intros w Hw; [done|].
  simpl. apply IH. by apply preserved_step.
Qed.

End Preserved.

Lemma Inv_create elId o w : Inv w -> Inv (Plugin elId o w).
Proof.
  intros [Hl Hr]. split.
  - exact (linked_grow (Instance (Some elId) true o None false 0 0 None) w eq_refl Hl).
  - unfold Plugin. simpl. rewrite Hr, length_app. simpl.
    rewrite bool_decide_eq_false_2.
    + by rewrite Nat.add_1_r, seq_S.
    + rewrite elem_of_seq. lia.
Qed.

Lemma Inv_step ev w : Inv w -> Inv (step render ev w).
Proof.
  apply (preserved_step Inv).
  - exact Inv_skel.
  - exact Inv_built.
  - exact Inv_create.
Qed.

Lemma Inv_show i w : Inv w -> Inv (state (show render i w)).
Proof.
  apply (preserved_show Inv).
  - exact Inv_skel.
  - exact Inv_built.
Qed.

(** Once in the registry, always in the registry. *)
Lemma registered_run i evs w :
  i ∈ instances w -> i ∈ instances (run render evs w).
Proof.
  apply (preserved_run (fun w => i ∈ instances w)).
  - intros w1 w2 Hsk. pose proof Hsk as [= -> _ _]. done.
  - done.
  - intros elId o w1 Hin. unfold Plugin. simpl.
    case_bool_decide; [done|]. apply elem_of_app. by left.
Qed.

Lemma Inv_blank q : Inv (blankWith q).
Proof.
  split; [|done]. split.
  - intros i s e Hs. by destruct i.
  - intros e x Hx. by destruct e.
Qed.

Lemma reachable_Inv w : reachable render w -> Inv w.
Proof. induction 1; [apply Inv_blank|by apply Inv_step]. Qed.

Lemma reachable_run evs w : reachable render w -> reachable render (run render evs w).
Proof.
  revert w. induction evs as [|ev evs IH]; intros w Hw; [done|].
  simpl. apply IH. by constructor.
Qed.

Lemma Inv_registered w j : Inv w -> j ∈ instances w -> is_Some (heap w !! j).
Proof.
  intros [_ Hr]. rewrite Hr, elem_of_seq. intros [_ Hlt].
  by apply lookup_lt_is_Some.
Qed.

Lemma NoDup_registry w : Inv w -> NoDup (instances w).
Proof. intros [_ ->]. apply NoDup_seq. Qed.

Lemma Inv_owner_registered w e x :
  Inv w -> dom w !! e = Some x -> owner x ∈ instances w.
Proof.
  intros [[_ H2] Hr] Hx. destruct (H2 e x Hx) as (s & Hs & _).
  rewrite Hr, elem_of_seq. split; [lia|]. simpl.
  apply lookup_lt_is_Some. by eexists.
Qed.

(** The element of an object is the only one made for it. *)
Lemma linked_exactly_one i s e w :
  linked w -> heap w !! i = Some s -> popover s = Some e ->
  exists x, dom w !! e = Some x /\ popoversOf i w = [x].
Proof.
  intros Hl Hs Hp. pose proof (linked_at_most_one i w Hl) as Hle.
  destruct Hl as [H1 H2]. destruct (H1 i s e Hs Hp) as (x & Hx & Ho).
  exists x. split; [done|].
  assert (x ∈ popoversOf i w) as Hin.
  { apply list_elem_of_filter. split; [done|]. by eapply list_elem_of_lookup_2. }
  destruct (popoversOf i w) as [|y [|z l]]; simpl in Hle.
  - by apply elem_of_nil in Hin.
  - by apply list_elem_of_singleton in Hin as ->.
  - lia.
Qed.

Lemma show_once_built i s e w :
  Inv w -> heap w !! i = Some s -> el s <> None -> popover s = Some e ->
  exists w' x0,
    show render i w = Ok w' /\ Inv w' /\ heap w' !! i = Some s /\
    dom w !! e = Some x0 /\ owner x0 = i /\
    dom w' !! e = Some (fadeIn (animSpeed (opts s)) x0) /\
    (forall e' y, dom w' !! e' = Some y -> owner y <> i -> leaving y) /\
    (forall e' y s', dom w !! e' = Some y -> owner y <> i ->
       heap w !! owner y = Some s' ->
       dom w' !! e' = Some (fadeOut (animSpeed (opts s')) y)) /\
    hideCalls w' = hideCalls w ++ filter (fun j => j <> i) (instances w) /\
    instances w' = instances w.
Proof.
  intros Hw Hs Hel Hp.
  destruct (show_built i s e w Hs Hp Hel) as (w' & Hshow & Hdom & Hins & Hheap & Hcalls & _).
  set (w0 := clearTimeout (showTimeout s) w) in *.
  set (w2 := sweep i (instances w) w0) in *.
  assert (Inv w0) as Hw0 by (by eapply Inv_skel, Hw).
  assert (Inv w') as Hw'.
  { pose proof (Inv_show i w Hw) as H. by rewrite Hshow in H. }
  destruct Hw0 as [Hl0 Hr0]. pose proof Hl0 as [H1 H2].
  destruct (H1 i s e Hs Hp) as (x0 & Hx0 & Ho0).
  destruct (sweep_dom i (instances w) w0 e x0 Hl0 Hx0)
    as (x0' & Hx0' & _ & Hsame & _). rewrite (Hsame Ho0) in Hx0'.
  fold w2 in Hx0'.
  exists w', x0.
  split; [done|]. split; [done|].
  split; [by rewrite Hheap; unfold w2; rewrite sweep_heap_self|].
  split; [done|]. split; [done|].
  split; [by rewrite Hdom, list_lookup_alter_eq, Hx0'|].
  split; [|split; [|split; [|done]]].
  2:{ intros e' y s' Hy Hoy Hs'.
      assert (e <> e') as Hee.
      { intros <-. change (dom w) with (dom w0) in Hy. rewrite Hx0 in Hy.
        injection Hy as <-. done. }
      rewrite Hdom, list_lookup_alter_ne by done. unfold w2.
      rewrite (sweep_dom_exact i (instances w) (NoDup_registry w Hw) w0 e' y s' Hl0 Hy Hs').
      rewrite bool_decide_eq_true_2; [done|]. split; [|done].
      apply (Inv_owner_registered w0 e' y); [by split|done]. }
  - intros e' y Hy Hne. rewrite Hdom in Hy.
    destruct (decide (e = e')) as [<-|Hee].
    + rewrite list_lookup_alter_eq, Hx0' in Hy. simpl in Hy. injection Hy as <-.
      by rewrite owner_fadeIn in Hne.
    + rewrite list_lookup_alter_ne in Hy by done.
      assert (is_Some (dom w0 !! e')) as [y0 Hy0].
      { apply lookup_lt_is_Some.
        pose proof (f_equal (fun t => length t.2)
                      (skel_sweep i (instances w) w0)) as Hlen.
        cbn [skel snd] in Hlen. rewrite !length_fmap in Hlen.
        fold w2 in Hlen. rewrite <- Hlen. by eapply lookup_lt_Some. }
      destruct (sweep_dom i (instances w) w0 e' y0 Hl0 Hy0)
        as (y' & Hy' & Hoy & _ & _ & Hleave).
      fold w2 in Hy'. rewrite Hy in Hy'. injection Hy' as <-.
      apply Hleave; [|congruence].
      apply (Inv_owner_registered w0 e' y0); [by split|done].
  - rewrite Hcalls. unfold w2. rewrite sweep_hideCalls; [done|].
    intros j Hj. apply (Inv_registered w); done.
Qed.

Lemma presentable_builds s w : presentable render s w -> builds render s w.
Proof.
  unfold presentable, builds. intros H Hp. rewrite Hp in H.
  destruct H as (html & Hr & Hq). by exists html, true.
Qed.

(** [show] of a live object whose [build] does not throw: its collection
    exists afterwards and is in the document unless it is empty, [hide]
    of every other registered object has run, and the element of every
    other object is leaving. *)
Lemma show_runs i s w :
  Inv w -> heap w !! i = Some s -> el s <> None -> builds render s w ->
  exists w' s' e x,
    show render i w = Ok w' /\ Inv w' /\
    heap w' !! i = Some s' /\ el s' = el s /\ popover s' = Some e /\
    dom w' !! e = Some x /\ attached x = nodes x /\ popoversOf i w' = [x] /\
    (presentable render s w -> nodes x = true) /\
    anim x <> Some ToTransparent /\
    (forall e' y, dom w' !! e' = Some y -> owner y <> i -> leaving y) /\
    (forall e' y s', dom w !! e' = Some y -> owner y <> i ->
       heap w !! owner y = Some s' ->
       dom w' !! e' = Some (fadeOut (animSpeed (opts s')) y)) /\
    hideCalls w' = hideCalls w ++ filter (fun j => j <> i) (instances w) /\
    instances w' = instances w.
Proof.
  intros Hw Hs Hel Hb. destruct (popover s) as [e|] eqn:Hp.
  - destruct (show_once_built i s e w Hw Hs Hel Hp)
      as (w' & x0 & Hsh & Hw' & Hs' & Hx0 & Ho & Hx & Hoth & Hper & Hc & Hi).
    exists w', s, e, (fadeIn (animSpeed (opts s)) x0). split_and!; try done.
    + by rewrite attached_fadeIn, nodes_fadeIn.
    + destruct (linked_exactly_one i s e w' (proj1 Hw') Hs' Hp) as (x' & Hx' & ->).
      congruence.
    + unfold presentable. rewrite Hp. intros (x1 & Hx1 & Hn).
      rewrite nodes_fadeIn. congruence.
    + apply anim_fadeIn.
  - destruct (Hb Hp) as (html & parsed & Hr & Hq).
    rewrite (show_unbuilt i s html parsed w Hs Hp Hr Hq).
    set (x1 := collection i html parsed).
    set (e := length (dom w)). set (s1 := setPopover (Some e) s).
    assert (heap (built i x1 w) !! i = Some s1) as Hs1.
    { unfold built. simpl. by rewrite list_lookup_alter_eq, Hs. }
    destruct (show_once_built i s1 e (built i x1 w))
      as (w' & x0 & Hsh & Hw' & Hs' & Hx0 & Ho & Hx & Hoth & Hper & Hc & Hi);
      [eapply Inv_built; [done|done|apply owner_collection|done]|done|done|done|].
    assert (x0 = x1) as ->.
    { unfold built in Hx0. cbn in Hx0. rewrite list_lookup_middle in Hx0 by done.
      congruence. }
    change (opts s1) with (opts s) in Hx.
    exists w', s1, e, (fadeIn (animSpeed (opts s)) x1). split_and!; try done.
    + by rewrite attached_fadeIn, nodes_fadeIn.
    + destruct (linked_exactly_one i s1 e w' (proj1 Hw') Hs' eq_refl) as (x' & Hx' & ->).
      congruence.
    + unfold presentable. rewrite Hp. intros (html' & Hr' & Hq').
      rewrite nodes_fadeIn. unfold x1. rewrite nodes_collection. congruence.
    + apply anim_fadeIn.
    + intros e' y sy Hy Hoy Hsy. apply Hper; [|done|].
      * simpl. by apply lookup_app_l_Some.
      * simpl. by rewrite list_lookup_alter_ne.
Qed.

(** [show] of a live object whose popover has elements: its element
    exists afterwards and is in the document, [hide] of every other
    registered object has run, and the element of every other object is
    leaving. *)
Lemma show_once i s w :
  Inv w -> heap w !! i = Some s -> el s <> None -> presentable render s w ->
  exists w' s' e x,
    show render i w = Ok w' /\ Inv w' /\
    heap w' !! i = Some s' /\ el s' = el s /\ popover s' = Some e /\
    dom w' !! e = Some x /\ attached x = true /\ popoversOf i w' = [x] /\
    anim x <> Some ToTransparent /\
    (forall e' y, dom w' !! e' = Some y -> owner y <> i -> leaving y) /\
    (forall e' y s', dom w !! e' = Some y -> owner y <> i ->
       heap w !! owner y = Some s' ->
       dom w' !! e' = Some (fadeOut (animSpeed (opts s')) y)) /\
    hideCalls w' = hideCalls w ++ filter (fun j => j <> i) (instances w) /\
    instances w' = instances w.
Proof.
  intros Hw Hs Hel Hb.
  destruct (show_runs i s w Hw Hs Hel (presentable_builds s w Hb))
    as (w' & s' & e & x & Hsh & Hw' & Hs' & Hel' & Hp & Hx & Ha & Hone & Hn
        & Han & Hoth & Hper & Hc & Hi).
  exists w', s', e, x. split_and!; try done. rewrite Ha. by apply Hn.
Qed.


Lemma setPopover_same e s : popover s = Some e -> setPopover (Some e) s = s.
Proof. destruct s. cbn. by intros ->. Qed.

(** What [build] does where the popover has, or will have, elements. *)
Lemma build_presentable i s w :
  Inv w -> heap w !! i = Some s -> presentable render s w ->
  exists e wb x,
    build render i s w = Normal (e, wb) /\ Inv wb /\
    heap wb !! i = Some (setPopover (Some e) s) /\
    dom wb !! e = Some x /\ nodes x = true /\ owner x = i /\
    (popover s = None -> attached x = false) /\
    (forall e' y, dom w !! e' = Some y -> dom wb !! e' = Some y) /\
    (forall j, j <> i -> heap wb !! j = heap w !! j) /\
    instances wb = instances w /\ hideCalls wb = hideCalls w.
Proof.
  intros Hw Hs Hpres. unfold presentable in Hpres. unfold build.
  destruct (popover s) as [e|] eqn:Hp.
  - destruct Hpres as (x & Hx & Hn). exists e, w, x.
    rewrite (setPopover_same e s Hp). split_and!; try done.
    destruct (proj1 (proj1 Hw) i s e Hs Hp) as (x' & Hx' & Ho). congruence.
  - destruct Hpres as (html & Hr & Hq). rewrite Hr, Hq.
    eexists _, _, (collection i html true). split; [reflexivity|].
    split; [apply (Inv_built i s); [done|done|reflexivity|done]|].
    split_and!; try done.
    + cbn. by rewrite list_lookup_alter_eq, Hs.
    + cbn. by rewrite lookup_app_r, Nat.sub_diag.
    + intros e' y Hy. cbn. by apply lookup_app_l_Some.
    + intros j Hj. cbn. by rewrite list_lookup_alter_ne.
Qed.

Lemma place_hideCalls e s w : hideCalls (state (place e s w)) = hideCalls w.
Proof.
  unfold place. destruct (isAttached e (stop e w)); [done|]. by destruct (el s).
Qed.

(** Whether the object is live or not, a [show] that gets its element
    sweeps the registry. *)
Lemma show_hideCalls j sj w :
  Inv w -> heap w !! j = Some sj -> builds render sj w ->
  hideCalls (state (show render j w))
  = hideCalls w ++ filter (fun k => k <> j) (instances w).
Proof.
  assert (forall w sj e, Inv w -> heap w !! j = Some sj -> popover sj = Some e ->
    hideCalls (state (show render j w))
    = hideCalls w ++ filter (fun k => k <> j) (instances w)) as Hbuilt.
  { intros w0 s e Hw Hs Hp. unfold show. rewrite Hs. unfold build. rewrite Hp.
    unfold hideOthers. simpl instances.
    set (w2 := sweep j (instances w0) (clearTimeout (showTimeout s) w0)).
    pose proof (place_hideCalls e s w2) as Hpl.
    assert (hideCalls w2 = hideCalls w0 ++ filter (fun k => k <> j) (instances w0)) as <-.
    { unfold w2. rewrite sweep_hideCalls; [done|].
      intros k Hk. by apply (Inv_registered w0). }
    destruct (place e s w2) as [w3|m w3]; cbn [state] in *; [|done].
    rewrite <- Hpl. unfold fadeTo. by destruct (animSpeed (opts s)). }
  intros Hw Hs Hb. destruct (popover sj) as [e|] eqn:Hp; [by eapply Hbuilt|].
  destruct (Hb Hp) as (html & parsed & Hr & Hq).
  rewrite (show_unbuilt j sj html parsed w Hs Hp Hr Hq).
  rewrite (Hbuilt (built j (collection j html parsed) w)
             (setPopover (Some (length (dom w))) sj) (length (dom w)));
    [done|eapply Inv_built; [done|done|apply owner_collection|done]| |done].
  unfold built. simpl. by rewrite list_lookup_alter_eq, Hs.
Qed.

(** [finishElem] takes a leaving element out of the document. *)
Lemma leaving_finish x : leaving x -> attached (finishElem x) = false.
Proof.
  unfold leaving. destruct x as [o m [] [[]|] h|]; cbn; intros H; try done;
    by specialize (H eq_refl).
Qed.

End Facts.

End ExclusiveFacts.


(** * Facts about the remote-content revision *)
Module RemoteFacts.
Import Env Remote.

Section Facts.

Lemma hide_same i w : hide i w = Exclusive.hide i w.
Proof.
  unfold hide, Exclusive.hide. destruct (heap w !! i) as [s|]; [|done].
  by destruct (popover s).
Qed.

Lemma RInv_rskel w w' : rskel w' = rskel w -> RInv w -> RInv w'.
Proof.
  intros Heq (Hl & Hd & Hp).
  assert (skel w' = skel w) as Hsk by exact (f_equal (fun t => t.1.1.1) Heq).
  assert (view <$> heap w' = view <$> heap w) as Hv
    by exact (f_equal (fun t => t.1.1.2) Heq).
  assert (requests w' = requests w) as Hr by exact (f_equal (fun t => t.1.2) Heq).
  assert (nextRequest w' = nextRequest w) as Hn by exact (f_equal snd Heq).
  split; [|split].
  - by eapply linked_skel, Hl.
  - by rewrite Hr.
  - unfold pending. by rewrite Hr, Hn, Hv.
Qed.

Lemma rskel_updI i f w :
  (forall s, view (f s) = view s) -> rskel (updI i f w) = rskel w.
Proof.
  intros Hf. unfold rskel. simpl. rewrite (fmap_alter_same view) by done.
  rewrite skel_updI; [done|]. intros s. specialize (Hf s).
  by injection Hf.
Qed.

Lemma rskel_updE e f w :
  (forall x, owner (f x) = owner x) -> rskel (updE e f w) = rskel w.
Proof. intros Hf. unfold rskel. by rewrite skel_updE. Qed.

Lemma rskel_fadeTo speed t e w : rskel (fadeTo speed t e w) = rskel w.
Proof.
  destruct speed; apply rskel_updE; intros x.
  - by rewrite owner_finishElem, owner_setAnim.
  - apply owner_setAnim.
Qed.

Lemma rskel_hide i w : rskel (hide i w) = rskel w.
Proof.
  unfold hide. destruct (heap w !! i) as [s|]; [|done].
  destruct (popover s) as [e|].
  - rewrite rskel_fadeTo. unfold stop.
    rewrite rskel_updE by (intros; apply owner_setAnim).
    by apply (rskel_updI i _ (clearTimeout (hideTimeout s) (logHide i w))).
  - by apply (rskel_updI i _ (clearTimeout (hideTimeout s) (logHide i w))).
Qed.

Lemma rskel_place e s w : rskel (state (Exclusive.place e s w)) = rskel w.
Proof.
  unfold Exclusive.place, stop.
  assert (rskel (updE e (setAnim None) w) = rskel w) as Hstop
    by (apply rskel_updE; intros; apply owner_setAnim).
  destruct (isAttached e (updE e (setAnim None) w)); [done|].
  destruct (el s); simpl; [|done].
  rewrite rskel_updE; [done|]. intros; apply owner_setAttached.
Qed.

Lemma rskel_showPopover i w : rskel (state (showPopover i w)) = rskel w.
Proof.
  unfold showPopover. destruct (heap w !! i) as [s|]; [|done].
  destruct (popover s) as [e|]; [|done].
  pose proof (rskel_place e s w) as Hp.
  destruct (Exclusive.place e s w) as [w1|m w1]; cbn [state] in *; [|done].
  by rewrite <- Hp, <- (rskel_fadeTo (animSpeed (opts s)) ToOpaque e w1).
Qed.

Lemma RInv_buildPopover i c w w' :
  (forall s, heap w !! i = Some s -> popover s = None) -> idle i w ->
  buildPopover i c w = Normal w' -> RInv w -> RInv w'.
Proof.
  intros Hnone Hidle Hb (Hl & Hd & Hp). unfold buildPopover in Hb.
  destruct (heap w !! i) as [s|] eqn:Hs; [|by injection Hb as <-].
  destruct (markupFor (opts s) c) as [html|m]; [|done].
  destruct (jQuery w html) as [parsed|m]; [|done].
  injection Hb as <-. split; [|split].
  - apply (linked_build i s); auto. apply owner_collection.
  - done.
  - intros r j Hin. simpl in *. destruct (Hp r j Hin) as [Hlt Hv].
    split; [done|]. destruct (decide (j = i)) as [->|Hne].
    + by destruct (Hidle r).
    + rewrite list_lookup_fmap, list_lookup_alter_ne by done.
      by rewrite <- list_lookup_fmap.
Qed.

Lemma RInv_buildAndShow i c w :
  (forall s, heap w !! i = Some s -> popover s = None) -> idle i w ->
  RInv w -> RInv (state (buildAndShow i c w)).
Proof.
  intros Hnone Hidle Hw. unfold buildAndShow.
  destruct (buildPopover i c w) as [w1|m] eqn:Hb; [|done].
  eapply RInv_rskel; [apply rskel_showPopover|].
  by eapply RInv_buildPopover.
Qed.

(** No request of an object is in flight unless [runningRequest] names
    it. *)
Lemma pending_named i s r w :
  pending w -> heap w !! i = Some s -> (r, i) ∈ requests w ->
  runningRequest s = Some r /\ popover s = None /\ remote (opts s) = true.
Proof.
  intros Hp Hs Hin. destruct (Hp r i Hin) as [_ Hv].
  rewrite list_lookup_fmap, Hs in Hv. simpl in Hv.
  unfold view in Hv. by injection Hv as -> -> ->.
Qed.

Lemma elem_of_fst_filter (r : nat) (l : list (nat * nat)) q :
  q ∈ filter (fun q => q.1 <> r) l <-> q.1 <> r /\ q ∈ l.
Proof. by rewrite list_elem_of_filter. Qed.

Lemma NoDup_fst_filter (r : nat) (l : list (nat * nat)) :
  NoDup l.*1 -> NoDup (filter (fun q => q.1 <> r) l).*1.
Proof.
  induction l as [|q l IH]; [done|]. simpl. intros [Hq Hl]%NoDup_cons.
  rewrite filter_cons. case_decide; [|by apply IH].
  simpl. apply NoDup_cons. split; [|by apply IH].
  intros Hin. apply Hq. apply list_elem_of_fmap in Hin as (q' & -> & Hq').
  apply elem_of_fst_filter in Hq' as [_ Hq'].
  apply list_elem_of_fmap. by exists q'.
Qed.

(** Taking request [r] of object [i] out of flight leaves [i] idle. *)
Lemma idle_after r i w :
  NoDup (requests w).*1 -> pending w -> (r, i) ∈ requests w ->
  forall r', (r', i) ∉ filter (fun q => q.1 <> r) (requests w).
Proof.
  intros Hd Hp Hin r' Hin'. apply elem_of_fst_filter in Hin' as [Hne Hin'].
  simpl in Hne. destruct (Hp r i Hin) as [_ Hv]. destruct (Hp r' i Hin') as [_ Hv'].
  congruence.
Qed.

Lemma RInv_abort i r s w :
  heap w !! i = Some s -> runningRequest s = Some r ->
  RInv w -> RInv (abort i r w) /\ idle i (abort i r w).
Proof.
  intros Hs Hr (Hl & Hd & Hp). unfold abort. case_bool_decide as Hin.
  - split; [split; [|split]|].
    + apply (linked_skel w); [|done]. by rewrite skel_updI.
    + simpl. by apply NoDup_fst_filter.
    + intros r' j Hin'. simpl in *.
      apply elem_of_fst_filter in Hin' as [Hne Hin'].
      destruct (Hp r' j Hin') as [Hlt Hv]. split; [done|].
      destruct (decide (j = i)) as [->|Hji].
      * destruct (pending_named i s r' w Hp Hs Hin') as [Hr' _]. simpl in Hne.
        congruence.
      * rewrite list_lookup_fmap, list_lookup_alter_ne by done.
        by rewrite <- list_lookup_fmap.
    + intros r'. simpl. by apply idle_after.
  - split; [done|]. intros r' Hin'.
    destruct (pending_named i s r' w Hp Hs Hin') as [Hr' _]. congruence.
Qed.

Lemma RInv_ajax i s w :
  heap w !! i = Some s -> popover s = None -> remote (opts s) = true ->
  idle i w -> RInv w -> RInv (ajax i w).
Proof.
  intros Hs Hnone Hrem Hidle (Hl & Hd & Hp). unfold ajax. split; [|split].
  - apply (linked_skel w); [|done]. by rewrite skel_updI.
  - simpl. rewrite fmap_app. simpl. apply NoDup_app. split; [done|].
    split; [|apply NoDup_singleton].
    intros r Hin ->%list_elem_of_singleton.
    apply list_elem_of_fmap in Hin as ([r' j] & Heq & Hin). simpl in Heq. subst r'.
    destruct (Hp _ _ Hin). lia.
  - intros r j. simpl. intros [Hin|Hin]%elem_of_app.
    + destruct (Hp r j Hin) as [Hlt Hv]. split; [lia|].
      destruct (decide (j = i)) as [->|Hji]; [by destruct (Hidle r)|].
      rewrite list_lookup_fmap, list_lookup_alter_ne by done.
      by rewrite <- list_lookup_fmap.
    + apply list_elem_of_singleton in Hin. injection Hin as -> ->.
      split; [lia|]. rewrite list_lookup_fmap, list_lookup_alter_eq, Hs. simpl.
      unfold view. simpl. by rewrite Hnone, Hrem.
Qed.

Lemma RInv_load i s w :
  heap w !! i = Some s -> popover s = None -> remote (opts s) = true ->
  RInv w -> RInv (loadRemoteContent i w).
Proof.
  intros Hs Hnone Hrem Hw. unfold loadRemoteContent. rewrite Hs.
  destruct (runningRequest s) as [r|] eqn:Hr.
  - destruct (RInv_abort i r s w Hs Hr Hw) as [Hw1 Hidle].
    assert (exists s1, heap (abort i r w) !! i = Some s1 /\ popover s1 = None /\
                       remote (opts s1) = true) as (s1 & Hs1 & Hn1 & Hr1).
    { unfold abort. case_bool_decide; [|by exists s].
      simpl. rewrite list_lookup_alter_eq, Hs. simpl. by eexists. }
    by eapply RInv_ajax.
  - eapply RInv_ajax; try done. intros r Hin.
    destruct Hw as (_ & _ & Hp).
    destruct (pending_named i s r w Hp Hs Hin) as [Hr' _]. congruence.
Qed.

Lemma requests_buildAndShow i c w :
  requests (state (buildAndShow i c w)) = requests w.
Proof.
  unfold buildAndShow, buildPopover.
  destruct (heap w !! i) as [s|].
  - destruct (markupFor (opts s) c) as [html|m]; [|done].
    destruct (jQuery w html) as [parsed|m]; [|done].
    pose proof (rskel_showPopover i
      (updI i (setPopover (Some (length (dom w))))
         (updDom (fun d => d ++ [collection i html parsed]) w))) as H.
    exact (f_equal (fun t => t.1.2) H).
  - exact (f_equal (fun t => t.1.2) (rskel_showPopover i w)).
Qed.

Lemma RInv_setRunning i x w :
  idle i w -> RInv w -> RInv (updI i (setRunning x) w).
Proof.
  intros Hidle (Hl & Hd & Hp). split; [|split].
  - eapply linked_skel, Hl. by apply skel_updI.
  - done.
  - intros r j Hin. simpl in *. destruct (Hp r j Hin) as [Hlt Hv].
    split; [done|]. destruct (decide (j = i)) as [->|Hji]; [by destruct (Hidle r)|].
    rewrite list_lookup_fmap, list_lookup_alter_ne by done.
    by rewrite <- list_lookup_fmap.
Qed.

Lemma RInv_show i w : RInv w -> RInv (state (show i w)).
Proof.
  intros Hw. unfold show. destruct (heap w !! i) as [s|] eqn:Hs; [|done].
  destruct (popover s) as [e|] eqn:Hp.
  - eapply RInv_rskel, Hw. apply rskel_showPopover.
  - destruct (remote (opts s)) eqn:Hrem; [by eapply RInv_load|].
    apply RInv_buildAndShow; [congruence| |done].
    intros r Hin. destruct Hw as (_ & _ & Hpend).
    destruct (pending_named i s r w Hpend Hs Hin) as (_ & _ & ?). congruence.
Qed.

Lemma RInv_publicShow i w : RInv w -> RInv (state (publicShow i w)).
Proof.
  intros Hw. unfold publicShow. destruct (heap w !! i) as [s|]; [|done].
  apply RInv_show. eapply RInv_rskel, Hw.
  by apply (rskel_updI i _ (clearTimeout (showTimeout s) w)).
Qed.

Lemma RInv_docDispatch w : RInv w -> RInv (docDispatch w).
Proof.
  unfold docDispatch. generalize (docClick w). intros l. revert w.
  induction l as [|i l IH]; intros w Hw; [done|].
  simpl. apply IH. eapply RInv_rskel, Hw. apply rskel_hide.
Qed.

Lemma RInv_respond r answer w : RInv w -> RInv (state (respond r answer w)).
Proof.
  intros Hw. unfold respond.
  destruct (list_find _ _) as [[k [r' i]]|] eqn:Hf; [|done].
  apply list_find_Some in Hf as (Hk & Hr' & _). simpl in Hr'. subst r'.
  apply list_elem_of_lookup_2 in Hk.
  set (w1 := World _ _ _ _ _ _ _ _ _ _ _).
  destruct Hw as (Hl & Hd & Hp).
  assert (idle i w1) as Hidle by (intros r'; simpl; by apply idle_after).
  assert (RInv w1) as Hw1.
  { split; [done|]. split; [by apply NoDup_fst_filter|].
    intros r' j [_ Hin]%elem_of_fst_filter. by apply Hp. }
  assert (forall w2, requests w2 = requests w1 -> RInv w2 ->
            RInv (updI i (setRunning None) w2)) as Hdone.
  { intros w2 Hreq Hw2. apply RInv_setRunning; [|done].
    intros r'. rewrite Hreq. apply Hidle. }
  destruct answer as [c|]; [|by apply Hdone].
  change (heap w1) with (heap w).
  destruct (heap w !! i) as [s|] eqn:Hs; [|by apply Hdone].
  pose proof (RInv_buildAndShow i (prepareContent (opts s) c) w1) as Hb.
  pose proof (requests_buildAndShow i (prepareContent (opts s) c) w1) as Hreq.
  destruct (buildAndShow i (prepareContent (opts s) c) w1) as [w2|m w2];
    cbn [state] in *.
  - apply Hdone; [done|]. apply Hb; [|done..].
    intros s' Hs'. simpl in Hs'.
    destruct (pending_named i s' r w Hp Hs' Hk) as (_ & ? & _). done.
  - apply Hb; [|done..].
    intros s' Hs'. simpl in Hs'.
    destruct (pending_named i s' r w Hp Hs' Hk) as (_ & ? & _). done.
Qed.

Lemma RInv_create elId o w : RInv w -> RInv (Plugin elId o w).
Proof.
  intros (Hl & Hd & Hp). split; [|split].
  - by apply linked_grow.
  - done.
  - intros r i Hin. simpl in *. destruct (Hp r i Hin) as [Hlt Hv].
    split; [done|]. rewrite fmap_app. by apply lookup_app_l_Some.
Qed.

Lemma rskel_scheduleHide i w : rskel (Exclusive.scheduleHide i w) = rskel w.
Proof. by apply (rskel_updI i _ (setTimeout (THide i) w).2). Qed.

Lemma RInv_step ev w : RInv w -> RInv (step ev w).
Proof.
  intros Hw. destruct ev as [elId o|i|i|i|i|i|i|i b|i|i| |id|e|r answer]; simpl.
  - by apply RInv_create.
  - by apply RInv_publicShow.
  - eapply RInv_rskel, Hw. apply rskel_hide.
  - unfold destroy. destruct (heap w !! i) as [s|]; [|done].
    destruct (el s); [|done]. eapply RInv_rskel, Hw.
    by apply (rskel_updI i _ (docOff i w)).
  - apply RInv_docDispatch. unfold onClick.
    destruct (heap w !! i) as [s|]; [|done].
    destruct (bound s && showOnClick (opts s)); [|done].
    destruct (match popover s with Some e => isAttached e w | None => false end).
    + eapply RInv_rskel, Hw. apply rskel_hide.
    + pose proof (RInv_show i w Hw) as Hsh.
      destruct (show i w) as [w1|m w1]; cbn [state] in *; [|done].
      eapply RInv_rskel, Hsh. by apply rskel_updI.
  - unfold onMouseEnter. destruct (heap w !! i) as [s|]; [|done].
    destruct (bound s && showOnHover (opts s)); [|done]. eapply RInv_rskel, Hw.
    by apply (rskel_updI _ _ (setTimeout (TShow i) (clearTimeout (hideTimeout s) w)).2).
  - unfold onMouseLeave. destruct (heap w !! i) as [s|]; [|done].
    destruct (bound s && showOnHover (opts s)); [|done].
    destruct (wasClicked s); [done|].
    eapply RInv_rskel, Hw. by rewrite rskel_scheduleHide.
  - unfold onPopoverClick. destruct (Exclusive.overPopover i w); [|done].
    destruct b; [by apply RInv_docDispatch|done].
  - unfold onPopoverEnter. destruct (Exclusive.overPopover i w) as [s|]; [|done].
    by destruct (showOnHover (opts s)).
  - unfold onPopoverLeave. destruct (Exclusive.overPopover i w) as [s|]; [|done].
    destruct (showOnHover (opts s) && negb (wasClicked s)); [|done].
    eapply RInv_rskel, Hw. by rewrite rskel_scheduleHide.
  - by apply RInv_docDispatch.
  - unfold fire. destruct (list_find _ _) as [[k [k' t]]|]; [|done].
    destruct t as [i|i|i]; cbn [state].
    + by apply RInv_show.
    + eapply RInv_rskel, Hw. by rewrite rskel_hide.
    + done.
  - eapply RInv_rskel, Hw. apply rskel_updE. apply owner_finishElem.
  - by apply RInv_respond.
Qed.

Lemma RInv_blank q : RInv (blankWith q).
Proof.
  split; [|split].
  - split.
    + intros i s e Hs. by destruct i.
    + intros e x Hx. by destruct e.
  - apply NoDup_nil_2.
  - intros r i Hin. by apply elem_of_nil in Hin.
Qed.

Lemma reachable_RInv w : reachable w -> RInv w.
Proof. induction 1; [apply RInv_blank|by apply RInv_step]. Qed.

Lemma reachable_after evs w : reachable w -> reachable (run evs w).
Proof.
  revert w. induction evs as [|ev evs IH]; intros w Hw; [done|].
  simpl. apply IH. by constructor.
Qed.

(** With the invariant, the requests of one object in flight. *)
Lemma RInv_one_request i w :
  RInv w -> length (filter (fun q => q.2 = i) (requests w)) <= 1.
Proof.
  intros (_ & Hd & Hp). apply filter_at_most_one.
  intros a b [r1 i1] [r2 i2] Ha Hb. simpl. intros -> ->.
  pose proof (list_elem_of_lookup_2 _ _ _ Ha) as Hina.
  pose proof (list_elem_of_lookup_2 _ _ _ Hb) as Hinb.
  destruct (Hp _ _ Hina) as [_ Hva]. destruct (Hp _ _ Hinb) as [_ Hvb].
  assert (r1 = r2) as -> by congruence.
  eapply NoDup_lookup; [exact Hd| |].
  - by rewrite list_lookup_fmap, Ha.
  - by rewrite list_lookup_fmap, Hb.
Qed.

Lemma showPopover_spec i s e w :
  heap w !! i = Some s -> popover s = Some e -> el s <> None ->
  exists w', showPopover i w = Ok w' /\ heap w' = heap w /\
    dom w' = alter (Exclusive.fadeIn (animSpeed (opts s))) e (dom w) /\
    requests w' = requests w /\ aborted w' = aborted w.
Proof.
  intros Hs Hp Hel. unfold showPopover. rewrite Hs, Hp.
  destruct (ExclusiveFacts.place_spec e s w Hel) as (w1 & -> & Hrest & Hdom).
  injection Hrest as _ Hh _ _ _ Hr _ Ha _ _.
  eexists. split; [done|]. unfold fadeTo, Exclusive.fadeIn.
  destruct (animSpeed (opts s)); simpl; rewrite Hdom, ExclusiveFacts.alter_alter; done.
Qed.


Lemma show_inline i s html parsed w :
  heap w !! i = Some s -> popover s = None -> remote (opts s) = false ->
  markupFor (opts s) (prepareContent (opts s) (content_ (opts s))) = Normal html ->
  jQuery w html = Normal parsed ->
  show i w = showPopover i (Exclusive.built i (collection i html parsed) w).
Proof.
  intros Hs Hp Hrem Hm Hq. unfold show. rewrite Hs, Hp, Hrem.
  unfold buildAndShow, buildPopover. by rewrite Hs, Hm, Hq.
Qed.


Lemma no_popover_yet i s w :
  linked w -> heap w !! i = Some s -> popover s = None -> popoversOf i w = [].
Proof.
  intros [_ H2] Hs Hp. apply filter_none. intros e x Hx Ho.
  destruct (H2 e x Hx) as (s' & Hs' & Hp'). rewrite Ho in Hs'. congruence.
Qed.

Lemma filter_idle i w :
  idle i w -> filter (fun q => q.2 = i) (requests w) = [].
Proof.
  intros Hidle. apply filter_none. intros k [r j] Hk. simpl. intros ->.
  apply (Hidle r). by eapply list_elem_of_lookup_2.
Qed.

(** [loadRemoteContent] on an object that waits for its content: a
    request in flight is aborted, then the new one is the only one. *)
Lemma load_spec i s w :
  RInv w -> heap w !! i = Some s ->
  let w' := loadRemoteContent i w in
  dom w' = dom w /\ nextRequest w' = S (nextRequest w) /\
  filter (fun q => q.2 = i) (requests w') = [(nextRequest w, i)] /\
  (forall r, runningRequest s = Some r -> (r, i) ∈ requests w ->
     r ∈ aborted w' /\ (r, i) ∉ requests w') /\
  exists s', heap w' !! i = Some s' /\ popover s' = popover s /\
    el s' = el s /\ opts s' = opts s /\
    runningRequest s' = Some (nextRequest w).
Proof.
  intros Hw Hs. unfold loadRemoteContent. rewrite Hs.
  set (wa := match runningRequest s with Some r => abort i r w | None => w end).
  assert (idle i wa /\ dom wa = dom w /\ nextRequest wa = nextRequest w /\
          (forall r, (r, i) ∈ requests wa -> (r, i) ∈ requests w) /\
          (forall r, runningRequest s = Some r -> (r, i) ∈ requests w ->
             r ∈ aborted wa) /\
          exists sa, heap wa !! i = Some sa /\ popover sa = popover s /\
            el sa = el s /\ opts sa = opts s) as (Hidle & Hd & Hn & Hsub & Hab & sa & Hsa & Hpa & Hea & Hoa).
  { unfold wa. destruct (runningRequest s) as [r|] eqn:Hr.
    - destruct (RInv_abort i r s w Hs Hr Hw) as [_ Hidle].
      split; [done|]. unfold abort. case_bool_decide as Hin.
      + simpl. repeat (split; [done|]).
        split; [by intros r' [_ ?]%elem_of_fst_filter|].
        split.
        * intros r' [= <-] _. apply elem_of_app. right. by left.
        * rewrite list_lookup_alter_eq, Hs. simpl. by eexists.
      + repeat (split; [done|]). split; [|by exists s].
        intros r' [= <-] ?. done.
    - split.
      + intros r Hin. destruct Hw as (_ & _ & Hp).
        destruct (pending_named i s r w Hp Hs Hin) as [? _]. congruence.
      + repeat (split; [done|]). by exists s. }
  unfold ajax. simpl. rewrite Hd, Hn. repeat (split; [done|]).
  split; [|split].
  - rewrite filter_app, (filter_idle i wa Hidle). simpl.
    by rewrite filter_cons_True, filter_nil.
  - intros r Hr Hin. split; [by apply Hab|].
    intros [Hin'|Hin']%elem_of_app.
    + by apply (Hidle r).
    + apply list_elem_of_singleton in Hin'. injection Hin' as Hrn.
      destruct Hw as (_ & _ & Hp). destruct (Hp r i Hin) as [Hlt _]. lia.
  - rewrite list_lookup_alter_eq, Hsa. simpl. by eexists.
Qed.

Lemma NoDup_fst_agree (l : list (nat * nat)) r i j :
  NoDup l.*1 -> (r, i) ∈ l -> (r, j) ∈ l -> i = j.
Proof.
  intros Hd [a Ha]%list_elem_of_lookup [b Hb]%list_elem_of_lookup.
  assert (a = b) as ->.
  { eapply NoDup_lookup; [exact Hd| |].
    - by rewrite list_lookup_fmap, Ha.
    - by rewrite list_lookup_fmap, Hb. }
  congruence.
Qed.


(** [this.show] of an object that waits for remote content. *)
Lemma publicShow_remote i s w :
  RInv w -> heap w !! i = Some s -> popover s = None -> remote (opts s) = true ->
  exists w' s',
    publicShow i w = Ok w' /\ RInv w' /\ dom w' = dom w /\
    nextRequest w' = S (nextRequest w) /\
    filter (fun q => q.2 = i) (requests w') = [(nextRequest w, i)] /\
    (forall r, runningRequest s = Some r -> (r, i) ∈ requests w ->
       r ∈ aborted w' /\ (r, i) ∉ requests w') /\
    heap w' !! i = Some s' /\ popover s' = None /\ el s' = el s /\
    opts s' = opts s /\ runningRequest s' = Some (nextRequest w) /\
    jQuery w' = jQuery w.
Proof.
  intros Hw Hs Hp Hrem.
  pose proof (RInv_publicShow i w Hw) as Hw'.
  set (w0 := updI i (setWasClicked true) (clearTimeout (showTimeout s) w)).
  assert (heap w0 !! i = Some (setWasClicked true s)) as Hs0.
  { unfold w0. simpl. by rewrite list_lookup_alter_eq, Hs. }
  assert (publicShow i w = Ok (loadRemoteContent i w0)) as Hpub.
  { unfold publicShow. rewrite Hs. fold w0. unfold show. rewrite Hs0.
    simpl popover. simpl opts. by rewrite Hp, Hrem. }
  rewrite Hpub in Hw'. cbn [state] in Hw'.
  assert (RInv w0) as Hw0.
  { eapply RInv_rskel, Hw. by apply (rskel_updI i _ (clearTimeout (showTimeout s) w)). }
  destruct (load_spec i _ w0 Hw0 Hs0)
    as (Hd & Hn & Hf & Hab & s' & Hs' & Hp' & He' & Ho' & Hr').
  exists (loadRemoteContent i w0), s'. split_and!; try done.
  - by rewrite Hp'.
  - unfold loadRemoteContent. rewrite Hs0. unfold ajax, abort.
    destruct (runningRequest (setWasClicked true s)); [case_bool_decide|]; done.
Qed.

End Facts.

End RemoteFacts.

(** * More facts about the template functions *)
Section TplMore.
Import Tpl Plain Text.

Lemma forIn_total d escape :
  lookup d "hasOwnProperty" = None ->
  forall keys html, exists out, forIn d escape html keys = Normal out.
Proof.
  intros Hown. induction keys as [|k keys IH]; intros html; [by eexists|].
  cbn [forIn]. unfold substituteKey, hasOwnProperty. rewrite Hown.
  destruct (bool_decide _); [|apply IH].
  rewrite compile_placeholder. apply IH.
Qed.

Lemma replaceLoop_absent n repl s :
  occurs n s = false -> forall before, replaceLoop (lits n) repl before 0 s = s.
Proof.
  induction s as [|c r IH]; intros Ho before.
  - cbn [occurs] in Ho. apply orb_false_elim in Ho as [Hp _].
    cbn [replaceLoop]. pose proof (matchAt_lits n EmptyString) as Hm.
    destruct (matchAt (lits n) EmptyString) as [[m after]|]; [|reflexivity].
    destruct Hm as [Hm _]. congruence.
  - cbn [occurs] in Ho. apply orb_false_elim in Ho as [Hp Hr].
    cbn [replaceLoop]. pose proof (matchAt_lits n (String c r)) as Hm.
    destruct (matchAt (lits n) (String c r)) as [[m after]|].
    + destruct Hm as [Hm _]. congruence.
    + by rewrite IH.
Qed.

Lemma replaceFirstFrom_absent p repl s :
  occurs p s = false -> forall before, replaceFirstFrom p repl before s = s.
Proof.
  induction s as [|c r IH]; intros Ho before.
  - cbn [occurs] in Ho. apply orb_false_elim in Ho as [Hp _].
    cbn [replaceFirstFrom]. by rewrite Hp.
  - cbn [occurs] in Ho. apply orb_false_elim in Ho as [Hp Hr].
    cbn [replaceFirstFrom]. rewrite Hp. by rewrite IH.
Qed.

Lemma forIn_absent d escape html :
  lookup d "hasOwnProperty" = None ->
  forall keys,
    (forall k, In k keys -> occurs ("__" +:+ k +:+ "__") html = false) ->
    forIn d escape html keys = Normal html.
Proof.
  intros Hown. induction keys as [|k keys IH]; intros Hall; [reflexivity|].
  cbn [forIn]. unfold substituteKey, hasOwnProperty. rewrite Hown.
  destruct (bool_decide _).
  - rewrite compile_placeholder. unfold replaceRegExpG.
    rewrite replaceLoop_absent by (apply Hall; by left).
    apply IH. intros k' Hk'. apply Hall. by right.
  - apply IH. intros k' Hk'. apply Hall. by right.
Qed.

Lemma each_absent b html d :
  (forall k, In k (map fst d) -> occurs ("__" +:+ k +:+ "__") html = false) ->
  replacePlaceholdersEach b html d = html.
Proof.
  unfold replacePlaceholdersEach.
  induction d as [|[k v] d IH]; intros Hall; [reflexivity|].
  cbn [fold_left]. unfold replaceString at 2.
  rewrite replaceFirstFrom_absent by (apply Hall; by left).
  apply IH. intros k' Hk'. apply Hall. by right.
Qed.

Lemma length_append a b : String.length (a +:+ b) = String.length a + String.length b.
Proof. induction a as [|c a IH]; [reflexivity|]. rewrite append_cons. simpl. by rewrite IH. Qed.

Lemma encodeChar_free c : needsEntity c = false -> encodeChar c = str1 c.
Proof.
  unfold needsEntity, encodeChar. intros H.
  repeat (apply orb_false_elim in H as [H ?]). by rewrite H, H0, H1, H2.
Qed.

Lemma encodeChar_entity c :
  needsEntity c = true ->
  exists t, encodeChar c = String "&" t /\ 3 <= String.length t /\
    (c = "&"%char -> t = "amp;").
Proof.
  unfold needsEntity, encodeChar. intros H.
  destruct (Ascii.eqb c "&") eqn:E1; [eexists; repeat split; simpl; lia|].
  destruct (Ascii.eqb c "<") eqn:E2;
    [eexists; repeat split; [simpl; lia|intros ->; discriminate]|].
  destruct (Ascii.eqb c ">") eqn:E3;
    [eexists; repeat split; [simpl; lia|intros ->; discriminate]|].
  destruct (Ascii.eqb c (chr 160)) eqn:E4;
    [eexists; repeat split; [simpl; lia|intros ->; discriminate]|].
  discriminate.
Qed.

Lemma encodeText_length s : String.length s <= String.length (encodeText s).
Proof.
  induction s as [|c s IH]; [reflexivity|].
  cbn [encodeText]. rewrite length_append. simpl String.length at 1.
  destruct (needsEntity c) eqn:Hc.
  - destruct (encodeChar_entity c Hc) as (t & -> & Ht & _). simpl. lia.
  - rewrite (encodeChar_free c Hc). simpl. lia.
Qed.

Lemma encodeText_fixed s : encodeText s = s <-> entityFree s = true.
Proof.
  unfold entityFree. induction s as [|c s IH]; [done|].
  cbn [encodeText list_ascii_of_string forallb].
  destruct (needsEntity c) eqn:Hc; cbn [negb andb].
  - split; [|discriminate]. intros H. exfalso.
    destruct (encodeChar_entity c Hc) as (t & Ht & Hlen & Hamp).
    rewrite Ht, append_cons in H. injection H as Hc' Hs. symmetry in Hc'.
    apply (f_equal String.length) in Hs. rewrite length_append in Hs.
    pose proof (encodeText_length s). lia.
  - rewrite (encodeChar_free c Hc). unfold str1. rewrite append_cons, append_nil.
    rewrite <- IH. split; [by intros [= ?]|by intros ->].
Qed.

Lemma encodeText_injective a : forall b, encodeText a = encodeText b -> a = b.
Proof.
  induction a as [|x a IH]; intros [|y b] H; [done| | |].
  - exfalso. cbn [encodeText] in H. revert H. unfold encodeChar.
    repeat (case (Ascii.eqb _ _); [discriminate|]). discriminate.
  - exfalso. cbn [encodeText] in H. revert H. unfold encodeChar.
    repeat (case (Ascii.eqb _ _); [discriminate|]). discriminate.
  - cbn [encodeText] in H.
    assert (x = y /\ encodeText a = encodeText b) as [-> Hab].
    { revert H. generalize (encodeText a) (encodeText b). intros u v.
      unfold encodeChar.
      destruct (Ascii.eqb x "&") eqn:X1; [apply Ascii.eqb_eq in X1|];
      [|destruct (Ascii.eqb x "<") eqn:X2; [apply Ascii.eqb_eq in X2|]];
      [| |destruct (Ascii.eqb x ">") eqn:X3; [apply Ascii.eqb_eq in X3|]];
      [| | |destruct (Ascii.eqb x (chr 160)) eqn:X4; [apply Ascii.eqb_eq in X4|]];
      (destruct (Ascii.eqb y "&") eqn:Y1; [apply Ascii.eqb_eq in Y1|];
       [|destruct (Ascii.eqb y "<") eqn:Y2; [apply Ascii.eqb_eq in Y2|]];
       [| |destruct (Ascii.eqb y ">") eqn:Y3; [apply Ascii.eqb_eq in Y3|]];
       [| | |destruct (Ascii.eqb y (chr 160)) eqn:Y4; [apply Ascii.eqb_eq in Y4|]]);
      subst; unfold str1; rewrite ?append_cons, ?append_nil; intros H;
      try discriminate H;
      try (injection H as ?; subst; try rewrite Ascii.eqb_refl in *; try discriminate; by auto). }
    f_equal. by apply IH.
Qed.


Lemma append_nil_r s : s +:+ EmptyString = s.
Proof. induction s as [|c s IH]; [reflexivity|]. by rewrite append_cons, IH. Qed.

Lemma substring_all s m : String.length s <= m -> substring 0 m s = s.
Proof.
  revert m. induction s as [|c s IH]; intros [|m] H; simpl in *; try reflexivity; try lia.
  rewrite IH; [reflexivity|lia].
Qed.

Lemma substring_long k : forall s m,
  String.length s <= m -> substring k m s = substring k (String.length s) s.
Proof.
  induction k as [|k IH]; intros s m H.
  - by rewrite !substring_all.
  - destruct s as [|c s]; [reflexivity|]. simpl in *.
    rewrite (IH s m) by lia. rewrite (IH s (S (String.length s))) by lia. reflexivity.
Qed.

Lemma prefix_split n : forall s,
  String.prefix n s = true ->
  s = n +:+ substring (String.length n) (String.length s) s.
Proof.
  induction n as [|a n IH]; intros s H.
  - rewrite append_nil. simpl. by rewrite substring_all.
  - destruct s as [|c s]; [discriminate|]. simpl in H.
    destruct (ascii_dec a c) as [->|Hne]; [|discriminate].
    rewrite append_cons. f_equal. simpl String.length.
    cbn [substring]. rewrite substring_long by lia. by apply IH.
Qed.

Lemma getSubstitution_amp m b a : getSubstitution m b a "$&" = m.
Proof. cbn. apply append_nil_r. Qed.

(** Replacing every match by itself gives the subject back. *)
Lemma replaceLoop_amp n :
  n <> EmptyString ->
  forall s before skip,
    replaceLoop (lits n) "$&" before skip s
    = substring skip (String.length s) s.
Proof.
  intros Hn. induction s as [|c r IH]; intros before skip.
  - destruct skip; cbn [replaceLoop]; [|reflexivity].
    destruct n as [|a n]; [congruence|reflexivity].
  - destruct skip as [|k].
    + cbn [replaceLoop]. pose proof (matchAt_lits n (String c r)) as Hm.
      destruct (matchAt (lits n) (String c r)) as [[m after]|].
      * destruct Hm as [Hp ->]. rewrite getSubstitution_amp.
        destruct n as [|a n]; [congruence|]. simpl String.length at 1.
        lazy iota. rewrite IH. rewrite substring_all by lia.
        etransitivity; [|symmetry; exact (prefix_split _ _ Hp)].
        f_equal. simpl String.length. cbn [substring].
        by rewrite (substring_long _ r (S _)) by lia.
      * rewrite IH, !substring_all by (simpl; lia). reflexivity.
    + cbn [replaceLoop]. rewrite IH. simpl String.length. cbn [substring].
      by rewrite (substring_long _ r (S _)) by lia.
Qed.

Lemma replaceFirstFrom_amp p s : forall before, replaceFirstFrom p "$&" before s = s.
Proof.
  induction s as [|c r IH]; intros before; cbn [replaceFirstFrom].
  - destruct (String.prefix p EmptyString) eqn:Hp; [|reflexivity].
    rewrite getSubstitution_amp. symmetry. exact (prefix_split _ _ Hp).
  - destruct (String.prefix p (String c r)) eqn:Hp; [|by rewrite IH].
    rewrite getSubstitution_amp. symmetry. exact (prefix_split _ _ Hp).
Qed.

Lemma forIn_amp d :
  lookup d "hasOwnProperty" = None ->
  forall (d2 : data) html,
    (forall k v, In (k, v) d2 ->
       lookup d k = Some "$&" /\ plainName k = true) ->
    forIn d false html (map fst d2) = Normal html.
Proof.
  intros Hown. induction d2 as [|[k v] d2 IH]; intros html Hall; [reflexivity|].
  destruct (Hall k v (or_introl eq_refl)) as (Hk & Hplain).
  apply andb_prop in Hplain as [Hplain _].
  cbn [map fst forIn]. unfold substituteKey, hasOwnProperty.
  rewrite Hown, Hk, bool_decide_eq_true_2 by eauto.
  rewrite compile_placeholder, (escape_plain k Hplain), Hk.
  unfold replaceRegExpG, toString.
  rewrite replaceLoop_amp by discriminate. rewrite substring_all by lia.
  apply IH. intros k' v' Hin. apply (Hall k' v'). by right.
Qed.

Lemma lookup_app a b k :
  lookup (a ++ b) k = match lookup a k with Some v => Some v | None => lookup b k end.
Proof.
  induction a as [|[k0 v0] a IH]; [reflexivity|]. simpl.
  destruct (String.eqb k0 k); [reflexivity|exact IH].
Qed.

Lemma distinctKeys_app a b :
  distinctKeys (a ++ b) = true -> distinctKeys a = true /\ distinctKeys b = true.
Proof.
  induction a as [|[k v] a IH]; [auto|]. simpl.
  intros [Hk Hd]%andb_prop. destruct (IH Hd) as [Ha Hb]. split; [|exact Hb].
  rewrite Ha, andb_true_r. apply negb_true_iff in Hk. apply negb_true_iff.
  apply bool_decide_eq_false in Hk. apply bool_decide_eq_false.
  intros [x Hx]. apply Hk. rewrite lookup_app, Hx. eauto.
Qed.

Lemma plainData_app a b :
  plainData (a ++ b) = true -> plainData a = true /\ plainData b = true.
Proof.
  unfold plainData. intros [Hd Hall]%andb_prop.
  apply distinctKeys_app in Hd as [Ha Hb]. rewrite forallb_app in Hall.
  apply andb_prop in Hall as [Hfa Hfb]. by rewrite Ha, Hb, Hfa, Hfb.
Qed.

End TplMore.

(** * Handlers as sequences of elementary changes *)
Module TraceFacts.
Import Env Trace Exclusive ExclusiveFacts.
Section Facts.
Variable render : options -> completion string.

Lemma quiet_stop e w : quiet w (stop e w).
Proof. apply q_elem. Qed.

Lemma quiet_fadeTo speed t e w : quiet w (fadeTo speed t e w).
Proof. destruct speed; apply q_elem. Qed.

Lemma tame_setWasClicked b : tame (setWasClicked b).
Proof. by intros []. Qed.
Lemma tame_setPopover e : tame (setPopover (Some e)).
Proof. by intros []. Qed.

Ltac one_move :=
  first [ apply quiet_fadeTo | apply quiet_stop | apply q_clear | apply q_docOff
        | apply q_log | apply q_new | apply q_elem
        | apply q_inst; first [apply tame_setWasClicked | apply tame_setPopover] ].

Ltac peel := eapply rtc_r; [|one_move].
Ltac peels := repeat peel; try reflexivity.

Lemma quiets_hide i w : rtc quiet w (hide i w).
Proof.
  unfold hide. destruct (heap w !! i) as [s|]; [|reflexivity].
  destruct (popover s); peels.
Qed.

Lemma quiets_sweep i l w : rtc quiet w (sweep i l w).
Proof.
  revert w. induction l as [|j l IH]; intros w; [reflexivity|].
  rewrite sweep_cons. etrans; [|apply IH].
  destruct (decide (j = i)); [reflexivity|apply quiets_hide].
Qed.

Lemma quiets_place e s w : rtc quiet w (state (place e s w)).
Proof.
  unfold place. destruct (isAttached e (stop e w)); cbn [state]; [peels|].
  destruct (el s); cbn [state]; peels.
Qed.

Lemma quiets_show i w : rtc quiet w (state (show render i w)).
Proof.
  unfold show. destruct (heap w !! i) as [s|] eqn:Hs; [|reflexivity].
  unfold build.
  assert (forall e w0, rtc quiet w w0 ->
    (popover <$> heap w0) !! i = Some (Some e) ->
    rtc quiet w (state match place e s (hideOthers i w0) with
        | Ok w1 => Ok (setTimeout (TBindDoc i) (fadeTo (animSpeed (opts s)) ToOpaque e w1)).2
        | Err m w1 => Err m w1 end)) as Hrest.
  { intros e w0 Hw0 Hi.
    assert (hasPopover i (state (place e s (hideOthers i w0)))) as Hlive.
    { pose proof (skel_place e s (hideOthers i w0)) as Hp.
      pose proof (skel_sweep i (instances w0) w0) as Hq. fold (hideOthers i w0) in Hq.
      apply (f_equal (fun t => t.1.2)) in Hp, Hq. cbn in Hp, Hq.
      rewrite <- Hq, <- Hp, list_lookup_fmap in Hi.
      destruct (heap (state (place e s (hideOthers i w0))) !! i) as [s'|] eqn:Hs';
        [|done].
      exists s'. split; [done|]. cbn in Hi. congruence. }
    pose proof (quiets_place e s (hideOthers i w0)) as Hpl.
    pose proof (quiets_sweep i (instances w0) w0) as Hsw. fold (hideOthers i w0) in Hsw.
    destruct (place e s (hideOthers i w0)) as [w1|m w1]; cbn [state] in *.
    - eapply rtc_r; [|apply q_defer].
      + peel. etrans; [exact Hw0|]. etrans; [exact Hsw|exact Hpl].
      + destruct (animSpeed (opts s)); exact Hlive.
    - etrans; [exact Hw0|]. etrans; [exact Hsw|exact Hpl]. }
  destruct (popover s) as [e|] eqn:Hp.
  - apply Hrest; [peels|]. change (heap (clearTimeout (showTimeout s) w)) with (heap w).
    rewrite list_lookup_fmap, Hs. cbn. by rewrite Hp.
  - destruct (render (opts s)) as [html|m]; [|cbn [state]; peels].
    destruct (jQuery _ html) as [parsed|m]; [|cbn [state]; peels].
    apply Hrest; [peels|]. cbn.
    rewrite list_lookup_fmap, list_lookup_alter_eq, Hs. reflexivity.
Qed.

Lemma quiets_docDispatch w : rtc quiet w (docDispatch w).
Proof.
  unfold docDispatch. generalize (docClick w). intros l. revert w.
  induction l as [|j l IH]; intros w; [reflexivity|].
  cbn [fold_left]. etrans; [apply quiets_hide|apply IH].
Qed.

Lemma quiets_onClick i w : rtc quiet w (state (onClick render i w)).
Proof.
  unfold onClick. destruct (heap w !! i) as [s|]; [|reflexivity].
  destruct (bound s); [|reflexivity].
  destruct (match popover s with Some e => isAttached e w | None => false end).
  - apply quiets_hide.
  - pose proof (quiets_show i w) as Hs.
    destruct (show render i w) as [w1|m w1]; cbn [state] in *; [|exact Hs].
    eapply rtc_r; [exact Hs|one_move].
Qed.

Lemma heap_clearTimeout id w : heap (clearTimeout id w) = heap w.
Proof. reflexivity. Qed.

Lemma quiets_onMouseEnter i w : rtc quiet w (onMouseEnter i w).
Proof.
  unfold onMouseEnter. destruct (heap w !! i) as [s|] eqn:Hs; [|reflexivity].
  destruct (bound s); [|reflexivity].
  eapply rtc_r; [|apply (q_showLater i (clearTimeout (hideTimeout s) w))];
    [peels|].
  rewrite heap_clearTimeout, Hs. eauto.
Qed.

Lemma quiets_scheduleHide i w :
  is_Some (heap w !! i) -> rtc quiet w (scheduleHide i w).
Proof.
  intros Hs. by apply rtc_once, q_hideLater.
Qed.

Lemma quiets_onMouseLeave i w : rtc quiet w (onMouseLeave i w).
Proof.
  unfold onMouseLeave. destruct (heap w !! i) as [s|] eqn:Hs; [|reflexivity].
  destruct (bound s); [|reflexivity].
  destruct (wasClicked s); [peels|].
  etrans; [|apply quiets_scheduleHide]; [peels|].
  rewrite heap_clearTimeout, Hs. eauto.
Qed.

Lemma overPopover_live i w s : overPopover i w = Some s -> heap w !! i = Some s.
Proof.
  unfold overPopover. destruct (heap w !! i) as [s'|]; [|discriminate].
  destruct (popover s'); [|discriminate].
  destruct (dom w !! _); [|discriminate].
  destruct (_ && _); [|discriminate]. congruence.
Qed.

Lemma quiets_onPopoverEnter i w : rtc quiet w (onPopoverEnter i w).
Proof. unfold onPopoverEnter. destruct (overPopover i w); peels. Qed.

Lemma quiets_onPopoverLeave i w : rtc quiet w (onPopoverLeave i w).
Proof.
  unfold onPopoverLeave. destruct (overPopover i w) as [s|] eqn:Ho; [|reflexivity].
  destruct (wasClicked s); [reflexivity|].
  etrans; [|apply quiets_scheduleHide]; [peels|].
  rewrite heap_clearTimeout, (overPopover_live _ _ _ Ho). eauto.
Qed.

Lemma quiets_fire id w : rtc quiet w (state (fire render id w)).
Proof.
  unfold fire. destruct (list_find _ (timers w)) as [[n [id' t]]|] eqn:Hf; [|reflexivity].
  apply list_find_Some in Hf as (Hn & Hid & _). cbn in Hid. subst id'.
  destruct t as [i|i|i].
  - etrans; [|apply quiets_show]. peels.
  - cbn [state]. etrans; [|apply quiets_hide]. peels.
  - cbn [state]. apply rtc_once, q_bind. by eapply list_elem_of_lookup_2.
Qed.

Lemma quiets_step ev w : isQuiet ev = true -> rtc quiet w (step render ev w).
Proof.
  destruct ev; cbn [step isQuiet]; try discriminate; intros _.
  - apply quiets_show.
  - apply quiets_hide.
  - etrans; [apply quiets_onClick|apply quiets_docDispatch].
  - apply quiets_onMouseEnter.
  - apply quiets_onMouseLeave.
  - reflexivity.
  - apply quiets_onPopoverEnter.
  - apply quiets_onPopoverLeave.
  - apply quiets_docDispatch.
  - apply quiets_fire.
  - peels.
Qed.

Lemma quiets_moves w w' : rtc quiet w w' -> rtc move w w'.
Proof. apply rtc_subrel. intros ? ?. apply mv_quiet. Qed.

Lemma moves_destroy i w : rtc move w (state (destroy i w)).
Proof.
  unfold destroy. destruct (heap w !! i) as [s|]; [|reflexivity].
  destruct (el s); cbn [state]; [|reflexivity]. apply rtc_once, mv_release.
Qed.

Lemma moves_step ev w : rtc move w (step render ev w).
Proof.
  destruct (isQuiet ev) eqn:Hq; [by apply quiets_moves, quiets_step|].
  destruct ev; try discriminate; cbn [step].
  - apply rtc_once, mv_plugin.
  - apply moves_destroy.
Qed.

Lemma moves_run evs w : rtc move w (run render evs w).
Proof.
  revert w. induction evs as [|ev evs IH]; intros w; [reflexivity|].
  cbn [run fold_left]. etrans; [apply moves_step|apply IH].
Qed.

(** ** What every elementary change preserves *)

Lemma NoDup_ids_filter (P : nat * task -> Prop) `{!forall x, Decision (P x)}
    (l : list (nat * task)) :
  NoDup l.*1 -> NoDup (filter P l).*1.
Proof.
  induction l as [|[id t] l IH]; [done|]. rewrite fmap_cons.
  intros [Hn Hl]%NoDup_cons.
  rewrite filter_cons. destruct (decide (P (id, t))); [|by apply IH].
  rewrite fmap_cons. apply NoDup_cons. split; [|by apply IH].
  intros [[id' t'] [Heq [_ Hin]%list_elem_of_filter]]%list_elem_of_fmap.
  cbn in Heq. subst id'. apply Hn. apply list_elem_of_fmap. by exists (id, t').
Qed.

(** A new timeout for object [i]. *)
Lemma Sound_setTimeout t w :
  Sound w -> taskOwner t < length (heap w) ->
  (forall j, t = TBindDoc j ->
     forall i s, heap w !! i = Some s ->
       showTimeout s <> nextTimer w /\ hideTimeout s <> nextTimer w) ->
  (forall i s, heap (setTimeout t w).2 !! i = Some s ->
     showTimeout s < S (nextTimer w) /\ hideTimeout s < S (nextTimer w)) ->
  Sound (setTimeout t w).2.
Proof.
  intros [H0 Ht Hn Hd Hs Hb] Hown Hnew Hst. constructor; cbn.
  - lia.
  - intros id t0 [Hin|Hin]%elem_of_app.
    + destruct (Ht _ _ Hin). split; [lia|done].
    + apply list_elem_of_singleton in Hin as [= -> ->]. split; [lia|done].
  - rewrite fmap_app. apply NoDup_app. split; [done|]. split.
    + intros id [[id' t'] [Heq Hin]]%list_elem_of_fmap. cbn in Heq. subst id'.
      intros ->%list_elem_of_singleton. cbn in Hin. destruct (Ht _ _ Hin). lia.
    + apply NoDup_singleton.
  - done.
  - exact Hst.
  - intros id j i s [Hin|Hin]%elem_of_app Hi.
    + by eapply Hb.
    + apply list_elem_of_singleton in Hin as [= -> <-]. by eapply Hnew.
Qed.

Lemma Sound_quiet w w' : quiet w w' -> Sound w -> Sound w'.
Proof.
  intros Hm HS. destruct Hm.
  - destruct HS as [H0 Ht Hn Hd Hs Hb]. constructor; cbn; try done.
    + intros id0 t [_ Hin]%list_elem_of_filter. by apply Ht.
    + by apply NoDup_ids_filter.
    + intros id0 j i s [_ Hin]%list_elem_of_filter. by eapply Hb.
  - apply Sound_setTimeout;
      [done|destruct H as (s0 & Hs0 & _); by eapply lookup_lt_Some| |].
    + intros j _ k s Hk. destruct (sound_stored w HS k s Hk). lia.
    + intros k s Hk. destruct (sound_stored w HS k s Hk). lia.
  - assert (Sound (setTimeout (TShow i) w).2) as [H0 Ht Hn Hd Hs Hb].
    { apply Sound_setTimeout; [done|by apply lookup_lt_is_Some|done|].
      intros k s Hk. destruct (sound_stored w HS k s Hk). lia. }
    constructor; cbn in *; try done.
    + intros id t Hin. rewrite length_alter. by apply Ht.
    + intros j Hj. rewrite length_alter. by apply Hd.
    + intros k s Hk. destruct (decide (k = i)) as [->|Hne].
      * rewrite list_lookup_alter_eq in Hk.
        destruct (heap w !! i) as [s0|] eqn:Hs0; [|done].
        injection Hk as <-. cbn. destruct (Hs i s0 Hs0). lia.
      * rewrite list_lookup_alter_ne in Hk by done. by eapply Hs.
    + intros id j k s Hin Hk. destruct (decide (k = i)) as [->|Hne].
      * rewrite list_lookup_alter_eq in Hk.
        destruct (heap w !! i) as [s0|] eqn:Hs0; [|done].
        injection Hk as <-. cbn. destruct (Hb id j i s0 Hin Hs0). split; [|done].
        intros <-. apply elem_of_app in Hin as [Hin|Hin].
        -- destruct (sound_timers w HS _ _ Hin). lia.
        -- by apply list_elem_of_singleton in Hin.
      * rewrite list_lookup_alter_ne in Hk by done. by eapply Hb.
  - assert (Sound (setTimeout (THide i) w).2) as [H0 Ht Hn Hd Hs Hb].
    { apply Sound_setTimeout; [done|by apply lookup_lt_is_Some|done|].
      intros k s Hk. destruct (sound_stored w HS k s Hk). lia. }
    unfold Exclusive.scheduleHide. constructor; cbn in *; try done.
    + intros id t Hin. rewrite length_alter. by apply Ht.
    + intros j Hj. rewrite length_alter. by apply Hd.
    + intros k s Hk. destruct (decide (k = i)) as [->|Hne].
      * rewrite list_lookup_alter_eq in Hk.
        destruct (heap w !! i) as [s0|] eqn:Hs0; [|done].
        injection Hk as <-. cbn. destruct (Hs i s0 Hs0). lia.
      * rewrite list_lookup_alter_ne in Hk by done. by eapply Hs.
    + intros id j k s Hin Hk. destruct (decide (k = i)) as [->|Hne].
      * rewrite list_lookup_alter_eq in Hk.
        destruct (heap w !! i) as [s0|] eqn:Hs0; [|done].
        injection Hk as <-. cbn. destruct (Hb id j i s0 Hin Hs0). split; [done|].
        intros <-. apply elem_of_app in Hin as [Hin|Hin].
        -- destruct (sound_timers w HS _ _ Hin). lia.
        -- by apply list_elem_of_singleton in Hin.
      * rewrite list_lookup_alter_ne in Hk by done. by eapply Hb.
  - destruct HS as [H0 Ht Hn Hd Hs Hb]. constructor; cbn; try done.
    intros j [_ Hin]%list_elem_of_filter. by apply Hd.
  - destruct HS as [H0 Ht Hn Hd Hs Hb]. constructor; cbn; try done.
    + intros id0 t [_ Hin]%list_elem_of_filter. by apply Ht.
    + by apply NoDup_ids_filter.
    + intros j [Hin|Hin]%elem_of_app; [by apply Hd|].
      apply list_elem_of_singleton in Hin as ->. by destruct (Ht _ _ H).
    + intros id0 j k s [_ Hin]%list_elem_of_filter. by eapply Hb.
  - destruct HS as [H0 Ht Hn Hd Hs Hb]. constructor; cbn; try done.
    + intros id t Hin. rewrite length_alter. by apply Ht.
    + intros j Hj. rewrite length_alter. by apply Hd.
    + intros k s Hk. destruct (decide (k = i)) as [->|Hne].
      * rewrite list_lookup_alter_eq in Hk.
        destruct (heap w !! i) as [s0|] eqn:Hs0; [|done].
        injection Hk as <-. destruct (H s0) as (_ & _ & _ & -> & -> & _). by apply (Hs i).
      * rewrite list_lookup_alter_ne in Hk by done. by eapply Hs.
    + intros id j k s Hin Hk. destruct (decide (k = i)) as [->|Hne].
      * rewrite list_lookup_alter_eq in Hk.
        destruct (heap w !! i) as [s0|] eqn:Hs0; [|done].
        injection Hk as <-. destruct (H s0) as (_ & _ & _ & -> & -> & _). by eapply Hb.
      * rewrite list_lookup_alter_ne in Hk by done. by eapply Hb.
  - by destruct HS.
  - by destruct HS.
  - by destruct HS.
Qed.

Lemma Sound_move w w' : move w w' -> Sound w -> Sound w'.
Proof.
  intros Hm HS. destruct Hm as [w w' Hq| |]; [by eapply Sound_quiet| |];
    destruct HS as [H0 Ht Hn Hd Hs Hb]; constructor; cbn; try done.
  - intros id0 t Hin. rewrite length_alter. by apply Ht.
  - intros j Hin. rewrite length_alter. by apply Hd.
  - intros k s Hk. destruct (decide (k = i)) as [->|Hne].
    + rewrite list_lookup_alter_eq in Hk.
      destruct (heap w !! i) as [s0|] eqn:Hs0; [|done].
      injection Hk as <-. exact (Hs i s0 Hs0).
    + rewrite list_lookup_alter_ne in Hk by done. by eapply Hs.
  - intros id j k s Hin Hk. destruct (decide (k = i)) as [->|Hne].
    + rewrite list_lookup_alter_eq in Hk.
      destruct (heap w !! i) as [s0|] eqn:Hs0; [|done].
      injection Hk as <-. exact (Hb id j i s0 Hin Hs0).
    + rewrite list_lookup_alter_ne in Hk by done. by eapply Hb.
  - intros id0 t Hin. rewrite length_app. destruct (Ht _ _ Hin). split; [done|lia].
  - intros j Hin. rewrite length_app. specialize (Hd _ Hin). lia.
  - intros k s [Hk|[_ Hk]]%lookup_app_Some; [by eapply Hs|].
    destruct (k - length (heap w)); [|done]. injection Hk as <-. cbn. lia.
  - intros id j k s Hin [Hk|[_ Hk]]%lookup_app_Some; [by eapply Hb|].
    destruct (k - length (heap w)); [|done]. injection Hk as <-. cbn.
    destruct (Ht _ _ Hin). lia.
Qed.

Lemma Sound_moves w w' : rtc move w w' -> Sound w -> Sound w'.
Proof. induction 1; eauto using Sound_move. Qed.

Lemma Sound_blank q : Sound (blankWith q).
Proof.
  constructor; cbn.
  - lia.
  - by intros id t ?%elem_of_nil.
  - apply NoDup_nil_2.
  - by intros i ?%elem_of_nil.
  - by intros [].
  - by intros id j i s ?%elem_of_nil.
Qed.

Lemma reachable_Sound w : reachable render w -> Sound w.
Proof.
  induction 1; [apply Sound_blank|].
  eapply Sound_moves; [apply moves_step|done].
Qed.

(** ** [$] stays what it is *)

Lemma jQuery_quiet w w' : quiet w w' -> jQuery w' = jQuery w.
Proof. by destruct 1. Qed.

Lemma jQuery_move w w' : move w w' -> jQuery w' = jQuery w.
Proof. destruct 1 as [w w' Hq| |]; [by apply jQuery_quiet|done..]. Qed.

Lemma jQuery_moves w w' : rtc move w w' -> jQuery w' = jQuery w.
Proof.
  induction 1 as [|x y z Hxy _ IH]; [done|]. by rewrite IH, (jQuery_move x y).
Qed.

Lemma jQuery_run evs w : jQuery (run render evs w) = jQuery w.
Proof. apply jQuery_moves, moves_run. Qed.

Lemma jQuery_show i w : jQuery (state (show render i w)) = jQuery w.
Proof. apply jQuery_moves, quiets_moves, quiets_show. Qed.

(** ** Listeners belong to objects that have their collection *)

Lemma hasPopover_updI i j f w :
  (forall s, popover s <> None -> popover (f s) <> None) ->
  hasPopover i w -> hasPopover i (updI j f w).
Proof.
  intros Hf (s & Hs & Hp). destruct (decide (j = i)) as [->|Hne].
  - exists (f s). split; [cbn; by rewrite list_lookup_alter_eq, Hs|auto].
  - exists s. split; [cbn; by rewrite list_lookup_alter_ne|done].
Qed.

Lemma Listening_quiet w w' : quiet w w' -> Listening w -> Listening w'.
Proof.
  intros Hm HL. destruct Hm; intros k Hk; cbn in Hk.
  - apply HL. destruct Hk as [Hk|[id0 [_ Hk]%list_elem_of_filter]]; eauto.
  - destruct Hk as [Hk|[id0 [Hk|Hk]%elem_of_app]].
    + apply HL. by left.
    + apply HL. eauto.
    + by apply list_elem_of_singleton in Hk as [= _ <-].
  - apply hasPopover_updI; [done|]. apply HL.
    destruct Hk as [Hk|[id0 [Hk|Hk]%elem_of_app]]; eauto.
    by apply list_elem_of_singleton in Hk.
  - unfold scheduleHide. cbn in *. apply hasPopover_updI; [done|]. apply HL.
    destruct Hk as [Hk|[id0 [Hk|Hk]%elem_of_app]]; eauto.
    by apply list_elem_of_singleton in Hk.
  - apply HL. destruct Hk as [[_ Hk]%list_elem_of_filter|Hk]; eauto.
  - apply HL.
    destruct Hk as [[Hk|Hk]%elem_of_app|[id0 [_ Hk]%list_elem_of_filter]]; eauto.
    apply list_elem_of_singleton in Hk as ->. eauto.
  - apply hasPopover_updI; [|by apply HL]. intros s. by destruct (H s) as (_ & _ & _ & _ & _ & ?).
  - by apply HL.
  - by apply HL.
  - by apply HL.
Qed.

Lemma Listening_move w w' : move w w' -> Listening w -> Listening w'.
Proof.
  intros Hm HL. destruct Hm as [w w' Hq| |]; [by eapply Listening_quiet| |];
    intros k Hk.
  - apply hasPopover_updI; [done|]. by apply HL.
  - destruct (HL k Hk) as (s & Hs & Hp). exists s. split; [|done].
    cbn. by apply lookup_app_l_Some.
Qed.

Lemma Listening_moves w w' : rtc move w w' -> Listening w -> Listening w'.
Proof. induction 1; eauto using Listening_move. Qed.

Lemma reachable_Listening w : reachable render w -> Listening w.
Proof.
  induction 1.
  - intros i [Hi|[id Hi]]; by apply elem_of_nil in Hi.
  - eapply Listening_moves; [apply moves_step|done].
Qed.

(** The triggers objects point at are changed by construction and
    destruction only. *)
Lemma els_quiet w w' :
  quiet w w' ->
  (fun s => (el s, bound s)) <$> heap w' = (fun s => (el s, bound s)) <$> heap w.
Proof.
  destruct 1; try reflexivity.
  - cbn. by apply fmap_alter_same.
  - unfold scheduleHide. cbn. by apply fmap_alter_same.
  - cbn. apply fmap_alter_same. intros s. by destruct (H s) as (-> & -> & _).
Qed.

Lemma els_quiets w w' :
  rtc quiet w w' ->
  (fun s => (el s, bound s)) <$> heap w' = (fun s => (el s, bound s)) <$> heap w.
Proof. induction 1 as [|x y z Hxy _ IH]; [done|]. by rewrite IH, (els_quiet x y). Qed.






End Facts.
End TraceFacts.

(** * More facts about the registry revisions *)
Module ExclusiveMore.
Import Env Trace Exclusive ExclusiveFacts TraceFacts.
Section Facts.
Variable render : options -> completion string.

Lemma world_ext w w' :
  rest w' = rest w -> dom w' = dom w -> w' = w.
Proof.
  destruct w, w'. cbn. intros [= -> -> -> -> -> -> -> -> -> ->] ->. reflexivity.
Qed.

Lemma filter_twice {A} (P : A -> Prop) `{!forall x, Decision (P x)} (l : list A) :
  filter P (filter P l) = filter P l.
Proof.
  induction l as [|x l IH]; [done|]. rewrite filter_cons.
  destruct (decide (P x)) as [Hx|Hx]; [|exact IH].
  rewrite filter_cons, decide_True by done. by rewrite IH.
Qed.

Lemma filter_fresh_nat (n : nat) (l : list nat) :
  (forall j, j ∈ l -> j <> n) -> filter (fun j => j <> n) l = l.
Proof.
  intros H. induction l as [|j l IH]; [done|].
  rewrite filter_cons, decide_True by (apply H; by left).
  f_equal. apply IH. intros k Hk. apply H. by right.
Qed.

Lemma fadeOut_twice speed x : fadeOut speed (fadeOut speed x) = fadeOut speed x.
Proof. destruct speed; destruct x; reflexivity. Qed.

Lemma alter_twice {A} (f : A -> A) i (l : list A) :
  (forall x, f (f x) = f x) -> alter f i (alter f i l) = alter f i l.
Proof.
  intros Hf. revert i. induction l as [|x l IH]; intros [|i]; cbn; try done.
  - by rewrite Hf.
  - f_equal. apply IH.
Qed.

Lemma hide_bookkeeping i w :
  (nextTimer (hide i w), requests (hide i w), nextRequest (hide i w),
   aborted (hide i w), jQuery (hide i w))
  = (nextTimer w, requests w, nextRequest w, aborted w, jQuery w).
Proof.
  unfold hide. destruct (heap w !! i) as [s|]; [|done].
  by destruct (popover s), (animSpeed (opts s)).
Qed.

(** A second [hide()] changes nothing on the page. *)
Lemma hide_hide i w :
  is_Some (heap w !! i) -> hide i (hide i w) = logHide i (hide i w).
Proof.
  intros [s Hs]. apply world_ext.
  - assert (heap (hide i w) !! i = Some (setWasClicked false s)) as Hs1.
    { rewrite hide_heap, list_lookup_alter_eq, Hs. reflexivity. }
    unfold rest. cbn [instances heap timers nextTimer docClick requests
                        nextRequest aborted hideCalls jQuery logHide].
    rewrite !hide_instances, !hide_heap.
    rewrite (hide_timers i _ _ Hs1), (hide_timers i _ _ Hs).
    rewrite (hide_docClick i (hide i w)), (hide_docClick i w) by eauto.
    rewrite (hide_hideCalls i (hide i w)) by eauto.
    rewrite !filter_twice, alter_twice by (by intros []).
    by pose proof (hide_bookkeeping i (hide i w)) as [= -> -> -> -> ->].
  - assert (heap (hide i w) !! i = Some (setWasClicked false s)) as Hs1.
    { rewrite hide_heap, list_lookup_alter_eq, Hs. reflexivity. }
    cbn [dom logHide]. rewrite (hide_dom i _ _ Hs1), (hide_dom i _ _ Hs).
    cbn [popover setWasClicked opts]. destruct (popover s); [|done].
    apply alter_twice. apply fadeOut_twice.
Qed.


Lemma finish_keeps x :
  attached x = true -> anim x <> Some ToTransparent ->
  attached (finishElem x) = true.
Proof. destruct x as [o m a [[]|] h|]; cbn; congruence. Qed.



(** ** The hover handlers *)

Lemma filter_fresh (n : nat) (l : list (nat * task)) :
  (forall id t, (id, t) ∈ l -> id < n) -> filter (fun t => t.1 <> n) l = l.
Proof.
  intros H. induction l as [|[id t] l IH]; [done|].
  rewrite filter_cons, decide_True.
  - f_equal. apply IH. intros id' t' Hin. apply (H id' t'). by right.
  - cbn. assert (id < n) by (apply (H id t); by left). lia.
Qed.

Lemma enter_then_leave i s w :
  Sound w -> heap w !! i = Some s -> bound s = true ->
  let w' := onMouseLeave i (onMouseEnter i w) in
  timers w' = filter (fun t => t.1 <> hideTimeout s) (timers w)
              ++ (if wasClicked s then [] else [(S (nextTimer w), THide i)])
  /\ dom w' = dom w /\ docClick w' = docClick w
  /\ fire render (nextTimer w) w' = Ok w'.
Proof.
  intros HS Hs Hb. pose proof (sound_timers w HS) as Ht.
  assert (forall id t,
            (id, t) ∈ filter (fun t => t.1 <> hideTimeout s) (timers w) ->
            id < nextTimer w) as Hlt.
  { intros id t [_ Hin]%list_elem_of_filter. destruct (Ht _ _ Hin). lia. }
  assert (timers (onMouseLeave i (onMouseEnter i w))
          = filter (fun t => t.1 <> hideTimeout s) (timers w)
            ++ (if wasClicked s then [] else [(S (nextTimer w), THide i)])
          /\ dom (onMouseLeave i (onMouseEnter i w)) = dom w
          /\ docClick (onMouseLeave i (onMouseEnter i w)) = docClick w) as (H1 & H2 & H3).
  { unfold onMouseEnter. rewrite Hs, Hb. cbn [setTimeout].
    unfold onMouseLeave.
    cbn [heap updI updHeap clearTimeout]. rewrite list_lookup_alter_eq, Hs.
    cbn [fmap option_fmap option_map bound setShowTimeout showTimeout wasClicked].
    rewrite Hb. unfold scheduleHide.
    destruct (wasClicked s); cbn;
      rewrite filter_app, (filter_fresh _ _ Hlt), filter_cons, decide_False
        by (cbn; intros H; by apply H);
      by rewrite filter_nil, app_nil_r. }
  split_and!; try done.
  unfold fire. destruct (list_find _ _) as [[n [id t]]|] eqn:Hf; [|done].
  exfalso. apply list_find_Some in Hf as (Hn & Hid & _). cbn in Hid. subst id.
  apply list_elem_of_lookup_2 in Hn. rewrite H1 in Hn.
  apply elem_of_app in Hn as [Hn|Hn].
  - specialize (Hlt _ _ Hn). lia.
  - destruct (wasClicked s); [by apply elem_of_nil in Hn|].
    apply list_elem_of_singleton in Hn as [= Hbad _]. lia.
Qed.

(** ** A click that reaches the document *)

Lemma fold_hide_sweep i l : forall w,
  (forall j, j ∈ l -> j <> i) ->
  fold_left (fun w j => hide j w) l w = sweep i l w.
Proof.
  induction l as [|j l IH]; intros w Hl; [done|].
  rewrite sweep_cons, decide_False by (apply Hl; by left).
  cbn [fold_left]. apply IH. intros k Hk. apply Hl. by right.
Qed.

Lemma docClick_fold_hide l : forall w,
  (forall j, j ∈ l -> j < length (heap w)) ->
  docClick (fold_left (fun w j => hide j w) l w)
  = filter (fun j => j ∉ l) (docClick w).
Proof.
  induction l as [|j l IH]; intros w Hl.
  - cbn. symmetry. induction (docClick w) as [|k d IHd]; [done|].
    rewrite filter_cons, decide_True by apply not_elem_of_nil. by rewrite IHd.
  - cbn [fold_left]. rewrite IH.
    + rewrite hide_docClick by (apply lookup_lt_is_Some, Hl; by left).
      rewrite list_filter_filter. apply list_filter_iff.
      intros k. rewrite not_elem_of_cons. tauto.
    + intros k Hk. rewrite hide_heap, length_alter. apply Hl. by right.
Qed.

Lemma docDispatch_spec w :
  Inv w -> (forall j, j ∈ docClick w -> j < length (heap w)) ->
  docClick (docDispatch w) = []
  /\ hideCalls (docDispatch w) = hideCalls w ++ docClick w
  /\ forall e x, dom (docDispatch w) !! e = Some x ->
       owner x ∈ docClick w -> leaving x.
Proof.
  intros [Hl Hreg] Hvalid. unfold docDispatch. split; [|split].
  - rewrite docClick_fold_hide by done. apply filter_none.
    intros j y Hy Hn. apply Hn. by eapply list_elem_of_lookup_2.
  - rewrite (fold_hide_sweep (length (heap w))).
    + rewrite sweep_hideCalls.
      * f_equal. apply filter_fresh_nat. intros j Hj. specialize (Hvalid j Hj). lia.
      * intros j Hj. by apply lookup_lt_is_Some, Hvalid.
    + intros j Hj. specialize (Hvalid j Hj). lia.
  - rewrite (fold_hide_sweep (length (heap w)))
      by (intros j Hj; specialize (Hvalid j Hj); lia).
    intros e x Hx Hin.
    assert (is_Some (dom w !! e)) as [x0 Hx0].
    { apply lookup_lt_is_Some.
      pose proof (f_equal (fun t => length t.2)
                    (skel_sweep (length (heap w)) (docClick w) w)) as Hlen.
      cbn [skel snd] in Hlen. rewrite !length_fmap in Hlen.
      rewrite <- Hlen. by eapply lookup_lt_Some. }
    destruct (sweep_dom (length (heap w)) (docClick w) w e x0 Hl Hx0)
      as (x' & Hx' & Ho & _ & _ & Hleave).
    rewrite Hx in Hx'. injection Hx' as <-. rewrite Ho in Hin.
    apply Hleave; [done|]. specialize (Hvalid _ Hin). lia.
Qed.

End Facts.
End ExclusiveMore.

(** * More facts about the remote-content revision *)
Module RemoteMore.
Import Env Remote RemoteFacts.

Lemma respond_finds r i w :
  NoDup (requests w).*1 -> (r, i) ∈ requests w ->
  exists k, list_find (fun q => q.1 = r) (requests w) = Some (k, (r, i)).
Proof.
  intros Hd Hin.
  destruct (list_find (fun q => q.1 = r) (requests w)) as [[k [r' j]]|] eqn:Hf.
  - apply list_find_Some in Hf as (Hk & Hr' & _). cbn in Hr'. subst r'.
    apply list_elem_of_lookup_2 in Hk.
    assert (j = i) as -> by by eapply NoDup_fst_agree. eauto.
  - apply list_find_None in Hf. rewrite Forall_forall in Hf.
    by destruct (Hf _ Hin).
Qed.

(** An answer without content: [complete] alone runs. *)
Lemma respond_failure r i s w :
  RInv w -> (r, i) ∈ requests w -> heap w !! i = Some s ->
  exists w',
    respond r None w = Ok w' /\ RInv w' /\ dom w' = dom w /\
    timers w' = timers w /\ docClick w' = docClick w /\
    nextRequest w' = nextRequest w /\
    heap w' !! i = Some (setRunning None s) /\
    (forall q, (q, i) ∉ requests w').
Proof.
  intros Hw Hin Hs. pose proof (RInv_respond r None w Hw) as Hw'.
  destruct Hw as (Hl & Hd & Hp).
  destruct (respond_finds r i w Hd Hin) as [k Hf].
  unfold respond in *. rewrite Hf in *. cbn [state] in Hw'.
  eexists. split; [reflexivity|]. split; [exact Hw'|].
  split_and!; try reflexivity.
  - cbn. by rewrite list_lookup_alter_eq, Hs.
  - intros q. cbn. by apply idle_after.
Qed.

(** An answer that arrives after [destroy()]. *)
Lemma respond_released r i s c html parsed w :
  RInv w -> (r, i) ∈ requests w -> heap w !! i = Some s -> el s = None ->
  markupFor (opts s) (prepareContent (opts s) c) = Normal html ->
  jQuery w html = Normal parsed ->
  exists w',
    respond r (Some c) w = Err "TypeError: $el is null" w' /\
    popoversOf i w' = [collection i html parsed] /\
    attachedPopovers w' = attachedPopovers w /\
    heap w' !! i = Some (setPopover (Some (length (dom w))) s) /\
    (forall q, (q, i) ∉ requests w').
Proof.
  intros Hw Hin Hs Hel Hm Hq.
  pose proof (RInv_respond r (Some c) w Hw) as Hw'.
  destruct Hw as (Hl & Hd & Hp).
  destruct (respond_finds r i w Hd Hin) as [k Hf].
  unfold respond in *. rewrite Hf in *.
  set (w1 := World _ _ _ _ _ _ _ _ _ _ _) in *.
  change (heap w1) with (heap w) in *. rewrite Hs in *.
  unfold buildAndShow, buildPopover in *.
  change (heap w1) with (heap w) in *. rewrite Hs, Hm in *.
  change (jQuery w1) with (jQuery w) in *. rewrite Hq in *.
  set (e := length (dom w1)) in *.
  set (wb := updI i (setPopover (Some e)) _) in *.
  set (sb := setPopover (Some e) s).
  assert (heap wb !! i = Some sb) as Hsb.
  { change (heap wb) with (alter (setPopover (Some e)) i (heap w)).
    by rewrite list_lookup_alter_eq, Hs. }
  assert (dom wb !! e = Some (collection i html parsed)) as Hxe.
  { change (dom wb) with (dom w ++ [collection i html parsed]).
    unfold e. change (dom w1) with (dom w).
    by rewrite lookup_app_r, Nat.sub_diag. }
  assert (showPopover i wb = Err "TypeError: $el is null" (stop e wb)) as Hsh.
  { unfold showPopover. rewrite Hsb. cbn [popover sb setPopover].
    unfold Exclusive.place, isAttached. cbn [stop updE updDom dom].
    rewrite list_lookup_alter_eq. fold (dom wb). rewrite Hxe. cbn.
    rewrite attached_setAnim, attached_collection. by rewrite Hel. }
  rewrite Hsh in *. cbn [state] in Hw'.
  exists (stop e wb). split; [done|].
  assert (heap (stop e wb) !! i = Some sb) as Hs' by exact Hsb.
  split; [|split; [|split; [exact Hs'|]]].
  - destruct (ExclusiveFacts.linked_exactly_one i sb e _ (proj1 Hw') Hs' eq_refl)
      as (x & Hx & ->).
    cbn [stop updE updDom dom] in Hx. fold (dom wb) in Hx.
    rewrite list_lookup_alter_eq, Hxe in Hx. injection Hx as <-.
    by destruct parsed.
  - unfold attachedPopovers. cbn [stop updE updDom dom]. fold (dom wb).
    change (dom wb) with (dom w ++ [collection i html parsed]).
    assert (alter (setAnim None) e (dom w ++ [collection i html parsed])
            = dom w ++ [collection i html parsed]) as ->.
    { unfold e. change (dom w1) with (dom w).
      rewrite alter_app_r_alt, Nat.sub_diag by done. cbn. by destruct parsed. }
    rewrite filter_app, filter_cons_False, filter_nil, app_nil_r; [done|].
    by rewrite attached_collection.
  - intros q. change (requests (stop e wb)) with (requests w1). cbn.
    by apply idle_after.
Qed.

(** An answer whose text [$] rejects. *)
Lemma respond_rejected r i s c html m w :
  RInv w -> (r, i) ∈ requests w -> heap w !! i = Some s ->
  markupFor (opts s) (prepareContent (opts s) c) = Normal html ->
  jQuery w html = Throw m ->
  exists w',
    respond r (Some c) w = Err m w' /\ dom w' = dom w /\
    heap w' = heap w /\ (forall q, (q, i) ∉ requests w').
Proof.
  intros Hw Hin Hs Hm Hq. destruct Hw as (Hl & Hd & Hp).
  destruct (respond_finds r i w Hd Hin) as [k Hf].
  unfold respond. rewrite Hf.
  set (w1 := World _ _ _ _ _ _ _ _ _ _ _).
  change (heap w1) with (heap w). rewrite Hs.
  unfold buildAndShow, buildPopover.
  change (heap w1) with (heap w). rewrite Hs, Hm.
  change (jQuery w1) with (jQuery w). rewrite Hq.
  exists w1. split_and!; try done. intros q. cbn. by apply idle_after.
Qed.

(** The markup of a popover built from content that is no URL. *)
Lemma publicShow_inline_markup i s html w :
  RInv w -> heap w !! i = Some s -> el s <> None -> popover s = None ->
  remote (opts s) = false ->
  markupFor (opts s) (prepareContent (opts s) (content_ (opts s))) = Normal html ->
  jQuery w html = Normal true ->
  exists w' x,
    publicShow i w = Ok w' /\ popoversOf i w' = [x] /\
    markup x = html /\ attached x = true.
Proof.
  intros Hw Hs Hel Hp Hrem Hm Hq.
  pose proof (RInv_publicShow i w Hw) as Hw'.
  set (w0 := updI i (setWasClicked true) (clearTimeout (showTimeout s) w)).
  assert (publicShow i w = show i w0) as Hpub
    by (unfold publicShow; by rewrite Hs).
  assert (heap w0 !! i = Some (setWasClicked true s)) as Hs0.
  { unfold w0. simpl. by rewrite list_lookup_alter_eq, Hs. }
  rewrite Hpub in *.
  rewrite (show_inline i (setWasClicked true s) html true w0 Hs0 Hp Hrem Hm Hq) in *.
  set (e := length (dom w0)).
  set (x1 := collection i html true) in *.
  set (sb := setPopover (Some e) (setWasClicked true s)).
  assert (heap (Exclusive.built i x1 w0) !! i = Some sb) as Hsb.
  { change (heap (Exclusive.built i x1 w0))
      with (alter (setPopover (Some e)) i (heap w0)).
    by rewrite list_lookup_alter_eq, Hs0. }
  destruct (showPopover_spec i sb e _ Hsb eq_refl Hel)
    as (w' & Hsh & Hh & Hd & _).
  rewrite Hsh in *. cbn [state] in Hw'.
  assert (heap w' !! i = Some sb) as Hs' by by rewrite Hh.
  destruct (ExclusiveFacts.linked_exactly_one i sb e w' (proj1 Hw') Hs' eq_refl)
    as (x & Hx & Hone).
  exists w', x. split; [done|]. split; [done|].
  rewrite Hd, list_lookup_alter_eq in Hx.
  assert (dom (Exclusive.built i x1 w0) !! e = Some x1) as Hnew.
  { unfold Exclusive.built. cbn. by rewrite lookup_app_r, Nat.sub_diag. }
  rewrite Hnew in Hx. injection Hx as <-.
  split; [apply ExclusiveFacts.markup_fadeIn|apply ExclusiveFacts.attached_fadeIn].
Qed.

(** The markup of a popover built from an answer. *)
Lemma respond_markup r i s c html w :
  RInv w -> (r, i) ∈ requests w -> heap w !! i = Some s -> el s <> None ->
  markupFor (opts s) (prepareContent (opts s) c) = Normal html ->
  jQuery w html = Normal true ->
  exists w' x,
    respond r (Some c) w = Ok w' /\ popoversOf i w' = [x] /\
    markup x = html /\ attached x = true.
Proof.
  intros Hw Hin Hs Hel Hm Hq.
  pose proof (RInv_respond r (Some c) w Hw) as Hw'.
  destruct Hw as (Hl & Hd & Hp).
  destruct (respond_finds r i w Hd Hin) as [k Hf].
  unfold respond in *. rewrite Hf in *.
  set (w1 := World _ _ _ _ _ _ _ _ _ _ _) in *.
  change (heap w1) with (heap w) in *. rewrite Hs in *.
  unfold buildAndShow, buildPopover in *.
  change (heap w1) with (heap w) in *. rewrite Hs, Hm in *.
  change (jQuery w1) with (jQuery w) in *. rewrite Hq in *.
  set (e := length (dom w1)) in *.
  set (wb := updI i (setPopover (Some e)) _) in *.
  set (sb := setPopover (Some e) s).
  assert (heap wb !! i = Some sb) as Hsb.
  { change (heap wb) with (alter (setPopover (Some e)) i (heap w)).
    by rewrite list_lookup_alter_eq, Hs. }
  assert (dom wb !! e = Some (collection i html true)) as Hxe.
  { change (dom wb) with (dom w ++ [collection i html true]).
    unfold e. change (dom w1) with (dom w).
    by rewrite lookup_app_r, Nat.sub_diag. }
  destruct (showPopover_spec i sb e wb Hsb eq_refl Hel)
    as (w2 & Hsh & Hh & Hdom & _).
  rewrite Hsh in *. cbn [state] in Hw'.
  set (w3 := updI i (setRunning None) w2) in *.
  assert (heap w3 !! i = Some (setRunning None sb)) as Hs3.
  { change (heap w3) with (alter (setRunning None) i (heap w2)).
    by rewrite list_lookup_alter_eq, Hh, Hsb. }
  destruct (ExclusiveFacts.linked_exactly_one i _ e w3 (proj1 Hw') Hs3 eq_refl)
    as (x & Hx & Hone).
  exists w3, x. split; [done|]. split; [done|].
  change (dom w3) with (dom w2) in Hx.
  rewrite Hdom, list_lookup_alter_eq, Hxe in Hx. injection Hx as <-.
  split; [apply ExclusiveFacts.markup_fadeIn|apply ExclusiveFacts.attached_fadeIn].
Qed.

End RemoteMore.

(** * Facts about [$.fn.popover] *)
Module PageFacts.
Import Env Trace Page TraceFacts.
Section Facts.
Variable render : options -> completion string.
Variable dispatch : Dispatch.arg -> Dispatch.outcome.

Lemma registered_quiets p w' :
  rtc quiet (world_of p) w' -> registered p -> registered (Page w' (store p)).
Proof.
  intros Hq Hr e i. cbn.
  pose proof (f_equal (fmap fst) (els_quiets _ _ Hq)) as Hels.
  rewrite <- !list_fmap_compose in Hels. change (fst ∘ _) with el in Hels.
  rewrite Hels. apply Hr.
Qed.

Lemma registered_destroy i p p' :
  registered p -> after (destroy i p) = Some p' -> registered p'.
Proof.
  intros Hr. unfold destroy.
  destruct (heap (world_of p) !! i) as [s|] eqn:Hs; [|by intros [= <-]].
  destruct (el s) as [e|] eqn:He; [|by intros [= <-]].
  intros [= <-] e' j. cbn.
  assert (store p !! e = Some i) as Hei.
  { apply Hr. by rewrite list_lookup_fmap, Hs, <- He. }
  rewrite list_lookup_fmap. destruct (decide (j = i)) as [->|Hji].
  - rewrite list_lookup_alter_eq, Hs. cbn. split; [|done].
    destruct (decide (e' = e)) as [->|Hne]; [by rewrite lookup_delete_eq|].
    rewrite lookup_delete_ne by done. intros He'%Hr.
    rewrite list_lookup_fmap, Hs in He'. cbn in He'. congruence.
  - rewrite list_lookup_alter_ne by done. rewrite <- list_lookup_fmap.
    etrans; [|apply Hr].
    destruct (decide (e' = e)) as [->|Hne]; [|by rewrite lookup_delete_ne].
    rewrite lookup_delete_eq, Hei. split; [done|congruence].
Qed.

Lemma registered_invoke name i p p' :
  registered p -> after (invoke render name i p) = Some p' -> registered p'.
Proof.
  intros Hr. unfold invoke.
  destruct (String.eqb name "show").
  { pose proof (quiets_show render i (world_of p)) as Hq.
    destruct (Exclusive.show render i (world_of p)); cbn; intros [= <-];
      by apply registered_quiets. }
  destruct (String.eqb name "hide").
  { cbn. intros [= <-]. apply registered_quiets; [|done]. apply quiets_hide. }
  destruct (String.eqb name "destroy"); [|done].
  by apply registered_destroy.
Qed.

Lemma instanceFor_spec c e p i p' :
  registered p -> instanceFor c e p = Normal (i, p') ->
  registered p' /\ store p' !! e = Some i
  /\ (forall e' j, store p !! e' = Some j -> store p' !! e' = Some j)
  /\ (forall e', e' <> e -> store p' !! e' = store p !! e')
  /\ (forall j s, heap (world_of p) !! j = Some s ->
        heap (world_of p') !! j = Some s).
Proof.
  intros Hr. unfold instanceFor.
  destruct (store p !! e) as [j|] eqn:He; [by intros [= <- <-]|].
  destruct (settings c e) as [o|m]; [|done]. intros [= <- <-]. cbn.
  split_and!.
  - intros e' j. cbn. rewrite fmap_app. cbn.
    destruct (decide (e' = e)) as [->|Hne].
    + rewrite lookup_insert_eq. split.
      * intros [= <-]. rewrite lookup_app_r by (by rewrite length_fmap).
        by rewrite length_fmap, Nat.sub_diag.
      * intros Hj. destruct (decide (j < length (heap (world_of p)))) as [Hlt|Hge].
        -- rewrite lookup_app_l in Hj by (by rewrite length_fmap).
           apply Hr in Hj. congruence.
        -- apply lookup_lt_Some in Hj. rewrite length_app, length_fmap in Hj.
           cbn in Hj. f_equal. lia.
    + rewrite lookup_insert_ne by done. etrans; [apply Hr|]. split.
      * intros Hj. by apply lookup_app_l_Some.
      * intros Hj. destruct (decide (j < length (heap (world_of p)))) as [Hlt|Hge].
        -- by rewrite lookup_app_l in Hj by (by rewrite length_fmap).
        -- rewrite lookup_app_r in Hj by (rewrite length_fmap; lia).
           rewrite length_fmap in Hj.
           destruct (j - length (heap (world_of p))) as [|k]; cbn in Hj; [|done].
           congruence.
  - by rewrite lookup_insert_eq.
  - intros e' j Hj. rewrite lookup_insert_ne; [done|]. congruence.
  - intros e' Hne. by rewrite lookup_insert_ne.
  - intros j s Hj. by apply lookup_app_l_Some.
Qed.

Lemma registered_each c e p p' :
  registered p -> after (each render dispatch c e p) = Some p' -> registered p'.
Proof.
  intros Hr. unfold each.
  destruct (instanceFor c e p) as [[i p1]|m] eqn:Hi; [|by intros [= <-]].
  destruct (instanceFor_spec c e p i p1 Hr Hi) as (Hr1 & _).
  destruct (dispatch (arg0 c)) as [name|m|].
  - by apply registered_invoke.
  - by intros [= <-].
  - by intros [= <-].
Qed.

Lemma registered_fnPopover c els : forall p p',
  registered p -> after (fnPopover render dispatch c els p) = Some p' ->
  registered p'.
Proof.
  induction els as [|e els IH]; intros p p' Hr; cbn [fnPopover].
  - by intros [= <-].
  - pose proof (registered_each c e p) as He.
    destruct (each render dispatch c e p) as [p1|m p1|].
    + apply IH. by apply He.
    + apply He. done.
    + done.
Qed.

Lemma registered_blank : registered (Page blank ∅).
Proof. intros e i. cbn. by destruct i. Qed.

Lemma reachable_registered p :
  reachable render dispatch p -> registered p.
Proof.
  induction 1 as [|c els p p' _ IH Hp|i p p' _ IH Hp|ev p _ IH Hq].
  - apply registered_blank.
  - by eapply registered_fnPopover.
  - by eapply registered_destroy.
  - apply registered_quiets; [|done]. by apply quiets_step.
Qed.

(** ** Calls that do not name a method *)

Lemma each_skipped c e i p :
  dispatch (arg0 c) = Dispatch.Skipped -> store p !! e = Some i ->
  each render dispatch c e p = Done p.
Proof. intros Hd He. unfold each, instanceFor. by rewrite He, Hd. Qed.

Lemma fnPopover_known c els : forall p,
  dispatch (arg0 c) = Dispatch.Skipped ->
  (forall e, e ∈ els -> is_Some (store p !! e)) ->
  fnPopover render dispatch c els p = Done p.
Proof.
  induction els as [|e els IH]; intros p Hd Hall; [done|].
  cbn [fnPopover]. destruct (Hall e) as [i Hi]; [by left|].
  rewrite (each_skipped c e i p Hd Hi). apply IH; [done|].
  intros e' He'. apply Hall. by right.
Qed.

Lemma fnPopover_activates c els : forall p,
  registered p -> dispatch (arg0 c) = Dispatch.Skipped ->
  (forall e, e ∈ els -> store p !! e = None ->
     exists o, settings c e = Normal o) ->
  exists p',
    fnPopover render dispatch c els p = Done p'
    /\ (forall e, e ∈ els -> is_Some (store p' !! e))
    /\ (forall e i, store p !! e = Some i -> store p' !! e = Some i)
    /\ (forall i s, heap (world_of p) !! i = Some s ->
          heap (world_of p') !! i = Some s).
Proof.
  induction els as [|e els IH]; intros p Hr Hd Hset.
  - exists p. split; [done|]. split; [by intros e ?%elem_of_nil|done].
  - cbn [fnPopover]. unfold each.
    assert (exists i p1, instanceFor c e p = Normal (i, p1)) as (i & p1 & Hi).
    { unfold instanceFor. destruct (store p !! e) as [i|] eqn:He; [by eauto|].
      destruct (Hset e) as [o ->]; [by left|done|]. eauto. }
    rewrite Hi, Hd.
    destruct (instanceFor_spec c e p i p1 Hr Hi)
      as (Hr1 & He1 & Hmono & Hother & Hheap).
    destruct (IH p1 Hr1 Hd) as (p' & Hp' & Hall & Hkeep & Hobj).
    { intros e' He' Hnone. apply Hset; [by right|].
      destruct (store p !! e') eqn:E; [|done].
      apply Hmono in E. congruence. }
    exists p'. split; [done|]. split; [|split].
    + intros e' [->|He']%elem_of_cons; [|by apply Hall].
      rewrite (Hkeep _ _ He1). eauto.
    + intros e' j Hj. by apply Hkeep, Hmono.
    + intros j s Hj. by apply Hobj, Hheap.
Qed.

End Facts.
End PageFacts.

(** * Facts about the second file *)
Module SecondFacts.
Import Env Second ExclusiveMore.
Section Facts.
Variable render : options -> completion string.

Lemma simple_hide_rest i s w :
  heap w !! i = Some s ->
  Exclusive.rest (Simple.hide i w)
  = (instances w, alter (setWasClicked false) i (heap w),
     filter (fun t => t.1 <> hideTimeout s) (timers w), nextTimer w,
     docClick w, requests w, nextRequest w, aborted w, hideCalls w ++ [i],
     jQuery w).
Proof.
  intros Hs. unfold Simple.hide. rewrite Hs.
  by destruct (popover s), (animSpeed (opts s)).
Qed.

Lemma simple_hide_dom i w : dom (Simple.hide i w) = dom (Exclusive.hide i w).
Proof.
  unfold Simple.hide, Exclusive.hide. destruct (heap w !! i) as [s|]; [|done].
  by destruct (popover s), (animSpeed (opts s)).
Qed.

Lemma simple_hide_hide i w :
  is_Some (heap w !! i) ->
  Simple.hide i (Simple.hide i w) = logHide i (Simple.hide i w).
Proof.
  intros [s Hs].
  assert (heap (Simple.hide i w) !! i = Some (setWasClicked false s)) as Hs1.
  { pose proof (simple_hide_rest i s w Hs) as [= _ -> _ _ _ _ _ _ _ _].
    by rewrite list_lookup_alter_eq, Hs. }
  apply world_ext.
  - rewrite (simple_hide_rest i _ _ Hs1). unfold Exclusive.rest at 1.
    cbn [instances heap timers nextTimer docClick requests nextRequest aborted
           hideCalls jQuery logHide].
    pose proof (simple_hide_rest i s w Hs) as [= -> -> -> -> -> -> -> -> -> ->].
    cbn [hideTimeout setWasClicked].
    by rewrite filter_twice, alter_twice by (by intros []).
  - cbn [dom logHide]. rewrite (simple_hide_dom i (Simple.hide i w)).
    rewrite (ExclusiveFacts.hide_dom i _ _ Hs1), simple_hide_dom.
    rewrite (ExclusiveFacts.hide_dom i _ _ Hs).
    cbn [popover setWasClicked opts]. destruct (popover s); [|done].
    apply alter_twice. apply fadeOut_twice.
Qed.

Lemma destroy_destroy i w : destroy i (destroy i w) = destroy i w.
Proof.
  unfold destroy at 2. destruct (heap w !! i) as [s|] eqn:Hs.
  - unfold destroy. cbn. rewrite list_lookup_alter_eq, Hs. cbn.
    unfold updI, updDoc, updHeap. cbn. f_equal. apply alter_twice. by intros [].
  - unfold destroy. by rewrite Hs.
Qed.

Lemma clearTimeout_twice id w : clearTimeout id (clearTimeout id w) = clearTimeout id w.
Proof. destruct w. unfold clearTimeout. cbn. f_equal. apply filter_twice. Qed.

Lemma Ok_inj w w' : Ok w = Ok w' -> w = w'.
Proof. congruence. Qed.

(** Where [show()] has returned with a popover that has elements, a
    second [show()] changes nothing. *)
Lemma show_show i s w w1 :
  heap w !! i = Some s -> showTimeout s < nextTimer w ->
  Exclusive.presentable render s w ->
  show render i w = Ok w1 -> show render i w1 = Ok w1.
Proof.
  intros Hs Hlt Hpres. unfold show at 1. rewrite Hs. unfold Exclusive.build.
  set (w0 := clearTimeout (showTimeout s) w).
  assert (forall e wb (sb : instance) x,
            heap wb !! i = Some sb -> popover sb = Some e ->
            showTimeout sb = showTimeout s -> nextTimer wb = nextTimer w ->
            clearTimeout (showTimeout s) wb = wb ->
            dom wb !! e = Some x -> nodes x = true ->
            (if isAttached e wb then Ok wb
             else Ok (setTimeout (TBindDoc i)
                        (fadeTo (animSpeed (opts s)) ToOpaque e
                           (stop e (updE e (setAttached true) wb)))).2) = Ok w1 ->
            show render i w1 = Ok w1) as Hrest.
  { intros e wb sb x Hsb Hp Hst Hn Hclr Hx Hnodes. unfold isAttached. rewrite Hx.
    destruct (attached x) eqn:Ha.
    - intros [= <-]. unfold show. rewrite Hsb, Hst, Hclr. unfold Exclusive.build.
      rewrite Hp. unfold isAttached. by rewrite Hx, Ha.
    - intros <-%Ok_inj. unfold show.
      assert (forall w2, heap (setTimeout (TBindDoc i) w2).2 = heap w2) as Hh by done.
      assert (heap (fadeTo (animSpeed (opts s)) ToOpaque e
                      (stop e (updE e (setAttached true) wb))) = heap wb) as Hh2.
      { by destruct (animSpeed (opts s)). }
      rewrite Hh, Hh2, Hsb, Hst. unfold Exclusive.build. rewrite Hp.
      set (w2 := fadeTo _ _ _ _) in *.
      assert (clearTimeout (showTimeout s) (setTimeout (TBindDoc i) w2).2
              = (setTimeout (TBindDoc i) w2).2) as ->.
      { assert (timers w2 = timers wb /\ nextTimer w2 = nextTimer wb) as [Ht2 Hn2].
        { unfold w2. by destruct (animSpeed (opts s)). }
        apply (f_equal timers) in Hclr. cbn in Hclr.
        destruct w2. cbn in *. unfold setTimeout, clearTimeout. cbn. f_equal.
        rewrite filter_app, Ht2, Hclr, filter_cons, decide_True by (cbn; lia).
        by rewrite filter_nil. }
      assert (isAttached e (setTimeout (TBindDoc i) w2).2 = true) as ->; [|done].
      unfold isAttached, w2. cbn [setTimeout snd dom].
      destruct x as [o m a an h|]; [|done].
      destruct (animSpeed (opts s)); cbn; rewrite !list_lookup_alter_eq, Hx; done. }
  unfold Exclusive.presentable in Hpres.
  destruct (popover s) as [e|] eqn:Hp.
  - destruct Hpres as (x & Hx & Hnodes).
    apply (Hrest e w0 s x); try done. apply clearTimeout_twice.
  - destruct Hpres as (html & Hr & Hq). rewrite Hr.
    change (jQuery w0) with (jQuery w). rewrite Hq.
    apply (Hrest (length (dom w0)) _ (setPopover (Some (length (dom w0))) s)
             (collection i html true)); try done.
    + cbn. by rewrite list_lookup_alter_eq, Hs.
    + unfold w0, clearTimeout, updI, updDom, updHeap. cbn. f_equal.
      apply filter_twice.
    + cbn. by rewrite lookup_app_r, Nat.sub_diag.
Qed.

End Facts.
End SecondFacts.

(** * Deferred registration and clicks on the trigger *)
Module ClickFacts.
Import Env Trace Exclusive ExclusiveFacts TraceFacts ExclusiveMore.
Section Facts.
Variable render : options -> completion string.

Lemma ids_agree (l : list (nat * task)) id t t' :
  NoDup l.*1 -> (id, t) ∈ l -> (id, t') ∈ l -> t = t'.
Proof.
  induction l as [|[id0 t0] l IH]; [by intros _ ?%elem_of_nil|].
  rewrite fmap_cons. intros [Hn Hl]%NoDup_cons H1 H2.
  apply elem_of_cons in H1 as [E1|H1]; apply elem_of_cons in H2 as [E2|H2].
  - congruence.
  - injection E1 as -> ->. destruct Hn. apply list_elem_of_fmap. by exists (id0, t').
  - injection E2 as -> ->. destruct Hn. apply list_elem_of_fmap. by exists (id0, t).
  - by apply IH.
Qed.

Lemma find_timer (l : list (nat * task)) id t :
  NoDup l.*1 -> (id, t) ∈ l ->
  exists k, list_find (fun x => x.1 = id) l = Some (k, (id, t)).
Proof.
  intros Hn Hin.
  destruct (list_find (fun x => x.1 = id) l) as [[k [id' t']]|] eqn:Hf.
  - apply list_find_Some in Hf as (Hk & Hid & _). cbn in Hid. subst id'.
    apply list_elem_of_lookup_2 in Hk.
    rewrite (ids_agree l id t t' Hn Hin Hk). eauto.
  - apply list_find_None in Hf. rewrite Forall_forall in Hf.
    by destruct (Hf _ Hin).
Qed.

(** [hide()] does not cancel the registration [show()] has deferred. *)
Lemma hide_keeps_deferred id i w :
  Inv w -> Sound w -> (id, TBindDoc i) ∈ timers w ->
  (id, TBindDoc i) ∈ timers (hide i w)
  /\ fire render id (hide i w) = Ok (docOne i (clearTimeout id (hide i w)))
  /\ forall e x, dom (hide i w) !! e = Some x -> owner x = i -> leaving x.
Proof.
  intros [Hl _] HS Hin.
  assert (is_Some (heap w !! i)) as [s Hs].
  { apply lookup_lt_is_Some. by destruct (sound_timers w HS _ _ Hin). }
  assert ((id, TBindDoc i) ∈ timers (hide i w)) as Hin'.
  { rewrite (hide_timers i s w Hs). apply list_elem_of_filter. split; [|done].
    cbn. intros Heq. destruct (sound_deferred w HS _ _ i s Hin Hs) as [_ Hne].
    congruence. }
  split; [exact Hin'|]. split.
  - assert (Sound (hide i w)) as HS'.
    { eapply Sound_moves; [|exact HS]. apply quiets_moves, quiets_hide. }
    destruct (find_timer _ id _ (sound_ids _ HS') Hin') as [k Hk].
    unfold fire. by rewrite Hk.
  - intros e x Hx Ho.
    assert (is_Some (dom w !! e)) as [x0 Hx0].
    { apply lookup_lt_is_Some.
      pose proof (f_equal (fun t => length t.2) (skel_hide i w)) as Hlen.
      cbn [skel snd] in Hlen. rewrite !length_fmap in Hlen.
      rewrite <- Hlen. by eapply lookup_lt_Some. }
    destruct (decide (owner x0 = i)) as [Hown|Hown].
    + destruct (hide_dom_own i w e x0 Hl Hx0 Hown) as (x' & Hx' & _ & Hlv).
      rewrite Hx in Hx'. by injection Hx' as <-.
    + rewrite (hide_dom_other i w e x0 Hl Hx0 Hown) in Hx.
      injection Hx as <-. done.
Qed.

Lemma docClick_sweep i l : forall w,
  (forall j, j ∈ l -> is_Some (heap w !! j)) ->
  docClick (sweep i l w) = filter (fun j => j = i \/ j ∉ l) (docClick w).
Proof.
  induction l as [|j l IH]; intros w Hl.
  - cbn. symmetry. induction (docClick w) as [|k d IHd]; [done|].
    rewrite filter_cons, decide_True by (right; apply not_elem_of_nil).
    by rewrite IHd.
  - rewrite sweep_cons. destruct (decide (j = i)) as [->|Hne].
    + rewrite IH by (intros k Hk; apply Hl; by right).
      apply list_filter_iff. intros k. rewrite not_elem_of_cons.
      destruct (decide (k = i)); tauto.
    + rewrite IH.
      * rewrite hide_docClick by (apply Hl; by left).
        rewrite list_filter_filter. apply list_filter_iff.
        intros k. rewrite not_elem_of_cons.
        destruct (decide (k = i)), (decide (k = j)); subst; tauto.
      * intros k Hk. rewrite hide_heap. apply lookup_lt_is_Some.
        rewrite length_alter. apply lookup_lt_is_Some, Hl. by right.
Qed.

Lemma filter_ext_in {A} (P Q : A -> Prop) `{!forall x, Decision (P x)}
    `{!forall x, Decision (Q x)} (l : list A) :
  (forall x, x ∈ l -> P x <-> Q x) -> filter P l = filter Q l.
Proof.
  induction l as [|x l IH]; intros Hext; [done|].
  rewrite !filter_cons. rewrite IH by (intros y Hy; apply Hext; by right).
  destruct (decide (P x)) as [Hp|Hp], (decide (Q x)) as [Hq|Hq]; try done.
  - destruct Hq. apply Hext; [by left|done].
  - destruct Hp. apply Hext; [by left|done].
Qed.

(** After [show()] the document listeners of all other objects are
    gone. *)
Lemma show_built_docClick i s e w w' :
  Inv w -> (forall j, j ∈ docClick w -> j < length (heap w)) ->
  heap w !! i = Some s -> popover s = Some e -> el s <> None ->
  show render i w = Ok w' ->
  docClick w' = filter (fun j => j = i) (docClick w).
Proof.
  intros Hw Hd Hs Hp Hel Hsh.
  destruct (show_built render i s e w Hs Hp Hel) as (w'' & Hsh' & _ & _ & _ & _ & Hdc & _).
  rewrite Hsh in Hsh'. injection Hsh' as <-. rewrite Hdc.
  rewrite docClick_sweep.
  - apply filter_ext_in. intros j Hj. split; [|tauto]. intros [->|Hn]; [done|].
    destruct Hn. destruct Hw as [_ ->]. apply elem_of_seq.
    specialize (Hd j Hj). lia.
  - intros j Hj. by apply (Inv_registered w).
Qed.

Lemma show_docClick i s w w' :
  Inv w -> (forall j, j ∈ docClick w -> j < length (heap w)) ->
  heap w !! i = Some s -> el s <> None ->
  show render i w = Ok w' ->
  docClick w' = filter (fun j => j = i) (docClick w).
Proof.
  intros Hw Hd Hs Hel Hsh. destruct (popover s) as [e|] eqn:Hp.
  - by eapply show_built_docClick.
  - destruct (render (opts s)) as [html|m] eqn:Hr.
    + destruct (jQuery w html) as [parsed|m] eqn:Hq.
      * rewrite (show_unbuilt render i s html parsed w Hs Hp Hr Hq) in Hsh.
        apply (show_built_docClick i (setPopover (Some (length (dom w))) s)
                 (length (dom w)) (built i (collection i html parsed) w));
          try done.
        -- eapply Inv_built; [done|done|apply owner_collection|done].
        -- intros j Hj. cbn. rewrite length_alter. by apply Hd.
        -- cbn. by rewrite list_lookup_alter_eq, Hs.
      * unfold show in Hsh. rewrite Hs in Hsh. unfold build in Hsh.
        rewrite Hp, Hr in Hsh. cbn [jQuery clearTimeout] in Hsh.
        by rewrite Hq in Hsh.
    + unfold show in Hsh. rewrite Hs in Hsh. unfold build in Hsh.
      by rewrite Hp, Hr in Hsh.
Qed.

Lemma fold_hide_heap l : forall w i s,
  heap w !! i = Some s ->
  heap (fold_left (fun w j => hide j w) l w) !! i
  = Some (if bool_decide (i ∈ l) then setWasClicked false s else s).
Proof.
  induction l as [|j l IH]; intros w i s Hs; [done|].
  cbn [fold_left]. destruct (decide (j = i)) as [->|Hne].
  - rewrite (IH _ i (setWasClicked false s))
      by (by rewrite hide_heap, list_lookup_alter_eq, Hs).
    rewrite (bool_decide_eq_true_2 (i ∈ i :: l)) by (by left).
    by destruct (bool_decide (i ∈ l)).
  - rewrite (IH _ i s) by (by rewrite hide_heap, list_lookup_alter_ne).
    apply f_equal. apply (f_equal (fun b : bool => if b then _ else _)).
    apply bool_decide_ext. rewrite elem_of_cons.
    assert (i <> j) by congruence. tauto.
Qed.

(** A [show()] that returns has deferred the registration. *)
Lemma show_defers i s w w' :
  heap w !! i = Some s -> show render i w = Ok w' ->
  exists w2, w' = (setTimeout (TBindDoc i) w2).2.
Proof.
  intros Hs. unfold show. rewrite Hs.
  destruct (build render i s _) as [[e w1]|m]; [|done].
  destruct (place e s _) as [w2|m w2]; [|done].
  intros [= <-]. eauto.
Qed.

End Facts.
End ClickFacts.


(** * The statements of the specification *)

Import Env Plain Scenes.

(** C1, as stated, fails: with [escape = true] a value made of a double
    and a single quote is inserted unchanged. *)
Lemma render_keeps_quotes :
  Tpl.replacePlaceholders "__q__" [("q", str1 (chr 34) +:+ "'")] (Some true)
  = Normal (str1 (chr 34) +:+ "'").
Proof. reflexivity. Qed.

(** C1, amended.  For data with distinct names free of pattern
    characters and values free of [$], [replacePlaceholders] is the
    literal substitution of every [__name__], the value having [&], [<]
    and [>] (and U+00A0) encoded first unless [escape] is [false], in
    which case it is inserted as it is; encoded text holds no [<] and no
    [>]; quotes are not encoded.  The two renderings of ["__a__-__b__"]
    are as the specification gives them. *)
Theorem render_escapes_markup (template : string) (d : Tpl.data)
    (escape : option bool) :
  plainData d = true ->
  Tpl.replacePlaceholders template d escape
    = Normal (Spec.render template d (escapes escape))
  /\ (forall v c, In c (list_ascii_of_string (Tpl.encodeText v)) ->
        c <> "<"%char /\ c <> ">"%char)
  /\ Tpl.encodeText "&<>" = "&amp;&lt;&gt;"
  /\ Tpl.replacePlaceholders "__a__-__b__" [("a", "<x>"); ("b", "y")] (Some true)
       = Normal "&lt;x&gt;-y"
  /\ Tpl.replacePlaceholders "__a__-__b__" [("a", "<x>"); ("b", "y")] (Some false)
       = Normal "<x>-y".
Proof.
  intros Hd. split; [by apply replacePlaceholders_plain|].
  split; [apply encodeText_no_angle|]. done.
Qed.

Lemma render_escapes_markup_witness :
  Tpl.replacePlaceholders "<p>__t__ and __t__</p>" [("t", "a<b"); ("u", "c")] None
  = Normal "<p>a&lt;b and a&lt;b</p>".
Proof.
  exact (proj1 (render_escapes_markup "<p>__t__ and __t__</p>"
                  [("t", "a<b"); ("u", "c")] None eq_refl)).
Defined.

(** C2 on the code: the second file of [src/jquery.popover.js] and
    [part_001] replace the first occurrence of a placeholder only; the
    regex revision replaces both, and leaves a longer name alone. *)
Theorem replace_first_occurrence_only :
  Tpl.replacePlaceholdersEach true "__a__ __a__" [("a", "x")] = "x __a__"
  /\ Tpl.replacePlaceholdersEach false "__a__ __a__" [("a", "x")] = "x __a__"
  /\ Tpl.replacePlaceholders "__a__ __a__" [("a", "x")] None = Normal "x x"
  /\ Tpl.replacePlaceholders "__ab__ __a__" [("a", "x")] None = Normal "__ab__ x".
Proof. vm_compute. repeat split. Qed.

(** C3 on the code: whatever the name, the pattern made of its escaped
    form compiles and stands for the characters of [__name__]
    themselves; for the name [a.b] the regex revision so matches
    [__a.b__] only and does not throw, but what it inserts is not the
    value: [data] is read under the escaped name. *)
Theorem special_name_loses_value :
  (forall name,
     Tpl.compile ("__" +:+ Tpl.escapeRegExp name +:+ "__")
     = Some (lits ("__" +:+ name +:+ "__")))
  /\ Tpl.replacePlaceholders "__a.b__ __aXb__" [("a.b", "v")] (Some true)
    = Normal "undefined __aXb__"
  /\ Tpl.replacePlaceholders "__a.b__ __aXb__" [("a.b", "v")] (Some false)
    = Normal "undefined __aXb__"
  /\ Tpl.lookup [("a.b", "v")] (Tpl.escapeRegExp "a.b") = None.
Proof. split; [exact compile_placeholder|]. vm_compute. repeat split. Qed.


(** In [part_000], content that is a string is handed to [$] as it
    stands.  A word such as [hello] is no markup: [$] reads it as a
    selector and gives an empty collection, so [show()] puts nothing into
    the document, however often it is called. *)
Lemma word_content_shows_nothing :
  let o := Options (tpl defOpts) (CText "hello") (fun c => c) true true true 100 in
  let w := Remote.run [Remote.Create 0 o; Remote.CallShow 0; Remote.CallShow 0]
             blank in
  popoversOf 0 w = [NoNodes 0 "hello"] /\ attachedPopovers w = []
  /\ attachedPopovers (settle w) = [].
Proof. vm_compute. repeat split. Qed.



(** C5, as stated, fails: with the default fade of 100 ms, after [A] was
    shown and then [B], both popovers are in the document. *)
Lemma two_popovers_attached :
  length (attachedPopovers
            (Exclusive.run Exclusive.render1
               [Exclusive.Create 0 defOpts; Exclusive.Create 1 defOpts;
                Exclusive.CallShow 0; Exclusive.CallShow 1] blank)) = 2.
Proof. vm_compute. repeat split. Qed.

(** C5, amended.  While the popover of [A] is in the document, [show()]
    of a live [B] whose popover has, or will have, elements makes the
    popover of [B] if there is none, then enters [hide()] of every other
    registered object, [A] among them, the popover of [B] being left as
    it is, and only then puts the popover of [B] into the document.  The
    popover of [A] is from then on fading out: it stays in the document
    until its fade ends, or, with a fade of 0 ms, is out of it at once; so
    is the popover of every object but [B].  Once the fades have ended the
    popover of [B] is the only one in the document. *)
Theorem show_dismisses_others (render : options -> completion string)
    (w : world) (a b : nat) (sa sb : instance) (ea : nat) (xa : elem) :
  Exclusive.reachable render w -> a <> b ->
  heap w !! a = Some sa -> popover sa = Some ea ->
  dom w !! ea = Some xa -> attached xa = true ->
  heap w !! b = Some sb -> el sb <> None -> Exclusive.presentable render sb w ->
  exists eb wb xb wp w',
    Exclusive.build render b sb (clearTimeout (showTimeout sb) w) = Normal (eb, wb)
    /\ dom wb !! ea = Some xa /\ dom wb !! eb = Some xb
    /\ (popover sb = None -> attached xb = false)
    /\ hideCalls (Exclusive.hideOthers b wb)
       = hideCalls w ++ filter (fun j => j <> b) (instances w)
    /\ a ∈ filter (fun j => j <> b) (instances w)
    /\ dom (Exclusive.hideOthers b wb) !! ea
       = Some (Exclusive.fadeOut (animSpeed (opts sa)) xa)
    /\ dom (Exclusive.hideOthers b wb) !! eb = Some xb
    /\ Exclusive.place eb sb (Exclusive.hideOthers b wb) = Ok wp
    /\ w' = (setTimeout (TBindDoc b)
               (fadeTo (animSpeed (opts sb)) ToOpaque eb wp)).2
    /\ Exclusive.show render b w = Ok w'
    /\ hideCalls w' = hideCalls w ++ filter (fun j => j <> b) (instances w)
    /\ dom w' !! ea = Some (Exclusive.fadeOut (animSpeed (opts sa)) xa)
    /\ (animSpeed (opts sa) <> 0 -> isAttached ea w' = true)
    /\ (animSpeed (opts sa) = 0 -> isAttached ea w' = false)
    /\ (forall e x, dom w' !! e = Some x -> owner x <> b -> Exclusive.leaving x)
    /\ (exists xb', popoversOf b w' = [xb'] /\ attached xb' = true)
    /\ length (attachedPopovers (settle w')) = 1.
Proof.
  intros Hw%ExclusiveFacts.reachable_Inv Hab Hsa Hpa Hxa Hatt Hsb Hel Hb.
  destruct (ExclusiveFacts.show_once render b sb w Hw Hsb Hel Hb)
    as (w' & sb' & eb' & xb' & Hsh & Hw' & Hsb' & _ & Hpb & Hxb & Hattb & Hone
        & Hanim & Hoth & Hper & Hcalls & _).
  assert (owner xa = a) as Hoa.
  { destruct Hw as [[H1 _] _]. destruct (H1 a sa ea Hsa Hpa) as (x & Hx & Ho).
    congruence. }
  assert (a ∈ instances w) as Hina.
  { destruct Hw as [_ Hr]. rewrite Hr, elem_of_seq. split; [lia|]. simpl.
    apply lookup_lt_is_Some. by eexists. }
  set (w0 := clearTimeout (showTimeout sb) w).
  assert (Exclusive.Inv w0) as Hw0 by (by eapply ExclusiveFacts.Inv_skel, Hw).
  destruct (ExclusiveFacts.build_presentable render b sb w0 Hw0 Hsb Hb)
    as (eb & wb & xb & Hbuild & Hwb & Hsbb & Hxbb & Hnb & Hob & Hnew & Hkeep & Hheap
        & Hinst & Hcb).
  assert (dom wb !! ea = Some xa) as Hxab by (by apply Hkeep).
  assert (heap wb !! a = Some sa) as Hsab by (by rewrite Hheap).
  assert (dom (Exclusive.hideOthers b wb) !! ea
          = Some (Exclusive.fadeOut (animSpeed (opts sa)) xa)) as Hswa.
  { unfold Exclusive.hideOthers.
    rewrite (ExclusiveFacts.sweep_dom_exact b (instances wb)
               (ExclusiveFacts.NoDup_registry wb Hwb) wb ea xa sa (proj1 Hwb) Hxab);
      [|by rewrite Hoa].
    rewrite bool_decide_eq_true_2; [done|].
    rewrite Hoa, Hinst. by split. }
  assert (dom (Exclusive.hideOthers b wb) !! eb = Some xb) as Hswb.
  { destruct (ExclusiveFacts.sweep_dom b (instances wb) wb eb xb (proj1 Hwb) Hxbb)
      as (x' & Hx' & _ & Hsame & _). by rewrite (Hsame Hob) in Hx'. }
  assert (hideCalls (Exclusive.hideOthers b wb)
          = hideCalls w ++ filter (fun j => j <> b) (instances w)) as Hswc.
  { unfold Exclusive.hideOthers. rewrite ExclusiveFacts.sweep_hideCalls.
    - by rewrite Hcb, Hinst.
    - intros j Hj. by apply (ExclusiveFacts.Inv_registered wb). }
  destruct (ExclusiveFacts.place_spec eb sb (Exclusive.hideOthers b wb) Hel)
    as (wp & Hplace & _).
  assert (Exclusive.show render b w
          = Ok (setTimeout (TBindDoc b)
                  (fadeTo (animSpeed (opts sb)) ToOpaque eb wp)).2) as Hshow.
  { unfold Exclusive.show. rewrite Hsb. fold w0. by rewrite Hbuild, Hplace. }
  assert (w' = (setTimeout (TBindDoc b)
                  (fadeTo (animSpeed (opts sb)) ToOpaque eb wp)).2) as Hw'eq
    by congruence.
  exists eb, wb, xb, wp, w'. split_and!; try done.
  - by apply list_elem_of_filter.
  - apply Hper; [done|congruence|by rewrite Hoa].
  - intros Hsp. unfold isAttached.
    rewrite (Hper ea xa sa Hxa); [|congruence|by rewrite Hoa].
    destruct xa as [o m att an h|]; [|done]. cbn in Hatt. subst att.
    by destruct (animSpeed (opts sa)).
  - intros Hsp. unfold isAttached.
    rewrite (Hper ea xa sa Hxa); [|congruence|by rewrite Hoa].
    rewrite Hsp. by destruct xa as [o m att [[]|] h|].
  - by exists xb'.
  - apply (filter_exactly_one _ _ eb' (finishElem xb')).
    + simpl. by rewrite list_lookup_fmap, Hxb.
    + by apply ExclusiveMore.finish_keeps.
    + intros j y. simpl. rewrite list_lookup_fmap.
      destruct (dom w' !! j) as [y0|] eqn:Hy0; [|done]. simpl.
      intros [= <-] Hy.
      destruct (decide (owner y0 = b)) as [Ho|Ho].
      * destruct Hw' as [[_ H2] _]. destruct (H2 j y0 Hy0) as (s & Hs & Hp).
        rewrite Ho in Hs. congruence.
      * rewrite (ExclusiveFacts.leaving_finish y0) in Hy; [done|]. by apply (Hoth j).
Qed.

Lemma show_dismisses_others_witness :
  exists w',
    Exclusive.show Exclusive.render1 1
      (Exclusive.run Exclusive.render1
         [Exclusive.Create 0 defOpts; Exclusive.Create 1 defOpts;
          Exclusive.CallShow 0] blank) = Ok w'
    /\ length (attachedPopovers (settle w')) = 1.
Proof.
  edestruct (show_dismisses_others Exclusive.render1
    (Exclusive.run Exclusive.render1
       [Exclusive.Create 0 defOpts; Exclusive.Create 1 defOpts;
        Exclusive.CallShow 0] blank)
    0 1) as (eb & wb & xb & wp & w' & H).
  - apply ExclusiveFacts.reachable_run, Exclusive.reach_init.
  - discriminate.
  - reflexivity.
  - reflexivity.
  - reflexivity.
  - reflexivity.
  - reflexivity.
  - discriminate.
  - eexists. split; reflexivity.
  - exists w'. split; [apply H|apply H].
Defined.

(** C6, as stated, fails: [hide()] leaves the pending show-delay timer
    in place. *)
Lemma hide_keeps_show_timer :
  timers shownAndHovered = [(2, TShow 0)]
  /\ timers (Exclusive.hide 0 shownAndHovered) = [(2, TShow 0)].
Proof. vm_compute. repeat split. Qed.

(** C6, amended.  [hide()] of an object whose popover is in the document
    cancels the pending hide-delay timer and no other, clears the clicked
    flag and starts the fade to 0; the popover stays in the document until
    the fade ends and is detached then; the object keeps its element.  In
    the first file of [src/jquery.popover.js] and in [part_000] it also
    unbinds the document click listener of this object.  The second file
    of [src/jquery.popover.js] does the same to timers, object and
    element, but leaves the document click listeners as they are. *)
Theorem hide_effects (w : world) (i : nat) (s : instance) (e : nat) (x : elem) :
  heap w !! i = Some s -> popover s = Some e ->
  dom w !! e = Some x -> attached x = true ->
  let w' := Exclusive.hide i w in
  timers w' = filter (fun t => t.1 <> hideTimeout s) (timers w)
  /\ docClick w' = filter (fun j => j <> i) (docClick w)
  /\ (exists s', heap w' !! i = Some s' /\ popover s' = Some e
                 /\ wasClicked s' = false)
  /\ (exists x', dom w' !! e = Some x' /\ markup x' = markup x
                 /\ Exclusive.leaving x'
                 /\ (animSpeed (opts s) <> 0 ->
                     attached x' = true /\ anim x' = Some ToTransparent))
  /\ isAttached e (updE e finishElem w') = false
  /\ length (dom (updE e finishElem w')) = length (dom w)
  /\ Remote.hide i w = w'
  /\ timers (Simple.hide i w) = timers w'
  /\ heap (Simple.hide i w) = heap w'
  /\ dom (Simple.hide i w) = dom w'
  /\ docClick (Simple.hide i w) = docClick w.
Proof.
  intros Hs Hp Hx Ha w'. unfold w'.
  split; [by apply ExclusiveFacts.hide_timers|].
  split; [by apply ExclusiveFacts.hide_docClick|].
  split.
  { rewrite ExclusiveFacts.hide_heap, list_lookup_alter_eq, Hs. simpl. by eexists. }
  pose proof (ExclusiveFacts.hide_dom i s w Hs) as Hd. rewrite Hp in Hd.
  assert (nodes x = true) as Hn by (by apply attached_nodes).
  split.
  { rewrite Hd, list_lookup_alter_eq, Hx. simpl. eexists. split; [done|].
    split; [apply ExclusiveFacts.markup_fadeOut|].
    split; [apply ExclusiveFacts.leaving_fadeOut|].
    destruct x as [o m att an h|]; [|done]. cbn in Ha. subst att.
    destruct (animSpeed (opts s)); [done|]. intros _. done. }
  split.
  { unfold isAttached. simpl. rewrite Hd, !list_lookup_alter_eq, Hx. simpl.
    apply ExclusiveFacts.leaving_finish, ExclusiveFacts.leaving_fadeOut. }
  split; [simpl; by rewrite Hd, !length_alter|].
  split; [apply RemoteFacts.hide_same|].
  unfold Simple.hide, Exclusive.hide. rewrite Hs, Hp.
  unfold fadeTo. by destruct (animSpeed (opts s)).
Qed.

Lemma hide_effects_witness :
  exists s,
    heap shownAndHovered !! 0 = Some s
    /\ timers (Exclusive.hide 0 shownAndHovered)
       = filter (fun t => t.1 <> hideTimeout s) (timers shownAndHovered).
Proof.
  assert (exists s x,
            heap shownAndHovered !! 0 = Some s /\ popover s = Some 0
            /\ dom shownAndHovered !! 0 = Some x /\ attached x = true)
    as (s & x & Hs & Hp & Hx & Ha).
  { vm_compute. eexists _, _. repeat split. }
  exists s. split; [exact Hs|].
  exact (proj1 (hide_effects shownAndHovered 0 s 0 x Hs Hp Hx Ha)).
Defined.

(** C7 on the code.  In the first file of [src/jquery.popover.js], after
    [destroy()] the document click listener and the handlers on the
    popover are still bound, and a click on the former trigger, which
    reaches the document, starts the fade of the popover.  In [part_000]
    the document listener is unbound, the handlers on the popover are
    not: the mouse leaving the popover still schedules [hide]. *)
Theorem destroy_leaves_listeners :
  let w := Exclusive.run Exclusive.render1
             [Exclusive.Create 0 defOpts; Exclusive.CallShow 0;
              Exclusive.Timeout 1; Exclusive.CallDestroy 0] blank in
  let v := Remote.run
             [Remote.Create 0 defOpts; Remote.MouseEnter 0; Remote.Timeout 1;
              Remote.Timeout 2; Remote.CallDestroy 0] blank in
  docClick w = [0]
  /\ handlers <$> dom w = [true]
  /\ anim <$> dom w = [Some ToOpaque]
  /\ anim <$> dom (Exclusive.step Exclusive.render1 (Exclusive.Click 0) w)
     = [Some ToTransparent]
  /\ Exclusive.step Exclusive.render1 (Exclusive.MouseEnter 0) w = w
  /\ docClick v = []
  /\ handlers <$> dom v = [true]
  /\ timers v = []
  /\ timers (Remote.step (Remote.PopoverLeave 0) v) = [(3, THide 0)].
Proof. vm_compute. repeat split. Qed.

(** C8, as stated, fails: [toString] is none of the public operations,
    yet it is found on the prototype chain and called; no error is
    raised. *)
Lemma inherited_name_not_rejected :
  ("toString" ∉ Dispatch.publicOperations)
  /\ Dispatch.dispatch (Dispatch.Str "toString") = Dispatch.Invoked "toString"
  /\ Dispatch.dispatch1 (Dispatch.Str "toString") = Dispatch.Invoked "toString".
Proof.
  split; [|done]. unfold Dispatch.publicOperations.
  rewrite !elem_of_cons, elem_of_nil. intros [?|[?|[?|[]]]]; discriminate.
Qed.

(** C8, amended.  A name under which the object has no function, of its
    own or inherited, is reported with an error that carries the name and
    the name of the plugin; [show], [hide] and [destroy] are called and
    raise no such error. *)
Theorem unknown_method_raises (name : string) :
  Dispatch.isFunction name = false ->
  Dispatch.dispatch (Dispatch.Str name)
    = Dispatch.Raised ("Method " +:+ str1 (chr 34) +:+ name +:+ str1 (chr 34)
                         +:+ " does not exist for " +:+ Dispatch.PLUGIN_NAME
                         +:+ " plugin")
  /\ Dispatch.dispatch1 (Dispatch.Str name)
    = Dispatch.Raised ("Method '" +:+ name +:+ "' doesn't exist for "
                         +:+ Dispatch.PLUGIN_NAME +:+ " plugin")
  /\ (forall op, op ∈ Dispatch.publicOperations ->
        Dispatch.dispatch (Dispatch.Str op) = Dispatch.Invoked op
        /\ Dispatch.dispatch1 (Dispatch.Str op) = Dispatch.Invoked op).
Proof.
  intros Hname. unfold Dispatch.dispatch, Dispatch.dispatch1. rewrite Hname.
  split; [done|]. split; [done|].
  intros op Hop. unfold Dispatch.publicOperations in Hop.
  rewrite !elem_of_cons, elem_of_nil in Hop.
  destruct Hop as [->|[->|[->|[]]]]; done.
Qed.

Lemma unknown_method_raises_witness :
  Dispatch.dispatch (Dispatch.Str "toggle")
  = Dispatch.Raised ("Method " +:+ str1 (chr 34) +:+ "toggle" +:+ str1 (chr 34)
                       +:+ " does not exist for popover plugin").
Proof. exact (proj1 (unknown_method_raises "toggle" eq_refl)). Defined.

(** C9.  In [part_000] no object ever has more than one request in
    flight; [loadRemoteContent] on an object whose request is in flight
    aborts that request, and the new request is then the only one. *)
Theorem one_request_in_flight (w : world) (i : nat) :
  Remote.reachable w ->
  length (filter (fun q => q.2 = i) (requests w)) <= 1
  /\ (forall s r, heap w !! i = Some s -> runningRequest s = Some r ->
        (r, i) ∈ requests w ->
        let w' := Remote.loadRemoteContent i w in
        r ∈ aborted w' /\ ((r, i) ∉ requests w')
        /\ filter (fun q => q.2 = i) (requests w') = [(nextRequest w, i)]).
Proof.
  intros Hw%RemoteFacts.reachable_RInv. split; [by apply RemoteFacts.RInv_one_request|].
  intros s r Hs Hr Hin w'.
  destruct (RemoteFacts.load_spec i s w Hw Hs) as (_ & _ & Hf & Hab & _).
  destruct (Hab r Hr Hin). done.
Qed.

Lemma one_request_in_flight_witness :
  let w := Remote.run [Remote.Create 0 remoteOpts; Remote.CallShow 0] blank in
  length (filter (fun q => q.2 = 0) (requests w)) <= 1
  /\ 1 ∈ aborted (Remote.loadRemoteContent 0 w)
  /\ filter (fun q => q.2 = 0) (requests (Remote.loadRemoteContent 0 w)) = [(2, 0)].
Proof.
  destruct (one_request_in_flight
              (Remote.run [Remote.Create 0 remoteOpts; Remote.CallShow 0] blank) 0)
    as [Hle Hload].
  - apply RemoteFacts.reachable_after, Remote.reach_init.
  - split; [exact Hle|].
    destruct (Hload _ 1 eq_refl eq_refl) as (Ha & _ & Hf).
    + by left.
    + split; [exact Ha|exact Hf].
Defined.

(** C10, as stated, fails: a [show()] that fails while it makes its
    popover ends before the sweep.  Here the template of the second
    object is a script template that holds a line of text, which [$]
    rejects; after [destroy()] of the first object, [show()] of the
    second enters no [hide()], and the popover of the destroyed object
    stays in the document. *)
Lemma failed_build_skips_sweep :
  let o := Options "Hi, This is a popover!" (content_ defOpts) (fun c => c)
             true true true 100 in
  let w1 := Exclusive.run Exclusive.render1
              [Exclusive.Create 0 defOpts; Exclusive.Create 1 o;
               Exclusive.CallShow 0; Exclusive.CallDestroy 0] blank in
  instances w1 = [0; 1]
  /\ Exclusive.show Exclusive.render1 1 w1
     = Err "Syntax error, unrecognized expression: Hi, This is a popover!" w1
  /\ hideCalls (state (Exclusive.show Exclusive.render1 1 w1)) = hideCalls w1
  /\ hideCalls w1 = [1]
  /\ isAttached 0 (state (Exclusive.show Exclusive.render1 1 w1)) = true.
Proof. vm_compute. repeat split. Qed.

(** C10, amended.  In the registry revisions an object that is in the
    registry is in it after [destroy()] and after whatever follows.  A
    later [show()] of another object whose [build] does not throw, the
    text of its popover being rendered and taken by [$], enters the
    [hide()] of the destroyed one; a [show()] of an object without popover
    whose [build] throws enters no [hide()] at all. *)
Theorem registry_keeps_destroyed (render : options -> completion string)
    (w : world) (i : nat) (evs : list Exclusive.event) :
  Exclusive.reachable render w -> i ∈ instances w ->
  let w1 := Exclusive.run render evs
              (Exclusive.step render (Exclusive.CallDestroy i) w) in
  i ∈ instances w1
  /\ (forall j sj,
        j <> i -> heap w1 !! j = Some sj -> Exclusive.builds render sj w1 ->
        exists calls,
          hideCalls (state (Exclusive.show render j w1)) = hideCalls w1 ++ calls
          /\ i ∈ calls)
  /\ (forall j sj,
        heap w1 !! j = Some sj -> popover sj = None ->
        (forall html parsed, render (opts sj) = Normal html ->
           jQuery w1 html <> Normal parsed) ->
        hideCalls (state (Exclusive.show render j w1)) = hideCalls w1).
Proof.
  intros Hw Hi w1.
  assert (i ∈ instances w1) as Hi1.
  { apply (ExclusiveFacts.registered_run render).
    by apply (ExclusiveFacts.registered_run render i [Exclusive.CallDestroy i]). }
  split; [done|].
  assert (Exclusive.Inv w1) as Hw1.
  { apply (ExclusiveFacts.reachable_Inv render), ExclusiveFacts.reachable_run.
    by constructor. }
  split.
  - intros j sj Hji Hsj Hb.
    exists (filter (fun k => k <> j) (instances w1)).
    split; [by apply (ExclusiveFacts.show_hideCalls render j sj)|].
    apply list_elem_of_filter. split; [congruence|done].
  - intros j sj Hsj Hp Hno.
    destruct (ExclusiveFacts.show_fails render j sj w1 Hsj Hp Hno) as [m ->].
    reflexivity.
Qed.

Lemma registry_keeps_destroyed_witness :
  let w1 := Exclusive.run Exclusive.render1 [Exclusive.AnimEnd 0]
              (Exclusive.step Exclusive.render1 (Exclusive.CallDestroy 0)
                 (Exclusive.run Exclusive.render1
                    [Exclusive.Create 0 defOpts; Exclusive.Create 1 defOpts;
                     Exclusive.CallShow 0] blank)) in
  0 ∈ instances w1
  /\ exists calls,
       hideCalls (state (Exclusive.show Exclusive.render1 1 w1))
       = hideCalls w1 ++ calls /\ 0 ∈ calls.
Proof.
  intros w1.
  destruct (registry_keeps_destroyed Exclusive.render1
              (Exclusive.run Exclusive.render1
                 [Exclusive.Create 0 defOpts; Exclusive.Create 1 defOpts;
                  Exclusive.CallShow 0] blank)
              0 [Exclusive.AnimEnd 0]) as (H1 & H2 & _).
  - apply ExclusiveFacts.reachable_run, Exclusive.reach_init.
  - by left.
  - split; [exact H1|].
    assert (exists sj, heap w1 !! 1 = Some sj /\ popover sj = None
                       /\ Exclusive.render1 (opts sj) = Exclusive.render1 defOpts)
      as (sj & Hsj & Hp & Hr).
    { vm_compute. eexists. repeat split. }
    apply (H2 1 sj); [discriminate|exact Hsj|].
    intros _. rewrite Hr. eexists _, true. split; reflexivity.
Defined.

(** * Further properties, beyond the statements of the specification *)

(** * Further properties of the template functions *)
Section MoreTemplate.
Import Tpl Plain Text.

(** X1.  Escaping the name is enough for [new RegExp] never to fail:
    unless the data has an own property called [hasOwnProperty], the regex
    revision of [replacePlaceholders] returns a string for every template
    and every data object, whatever characters the names contain. *)
Theorem placeholders_never_fail (html : string) (d : data) (escape : option bool) :
  lookup d "hasOwnProperty" = None ->
  exists out, replacePlaceholders html d escape = Normal out.
Proof. intros Hown. by apply forIn_total. Qed.

Lemma placeholders_never_fail_witness :
  exists out,
    replacePlaceholders "__a(b__ __[__" [("a(b", "x"); ("[", "y"); ("*", "z")] None
    = Normal out.
Proof. apply placeholders_never_fail. reflexivity. Defined.

(** X2.  A data object with an own property called [hasOwnProperty]
    makes the regex revision throw a [TypeError], whatever the template
    and the other properties are. *)
Theorem own_hasOwnProperty_throws (html : string) (d : data)
    (escape : option bool) (v : string) :
  lookup d "hasOwnProperty" = Some v ->
  replacePlaceholders html d escape
  = Throw "TypeError: data.hasOwnProperty is not a function".
Proof.
  intros Hown. unfold replacePlaceholders.
  destruct d as [|[k x] d]; [discriminate|].
  cbn [map forIn]. unfold substituteKey, hasOwnProperty. by rewrite Hown.
Qed.

Lemma own_hasOwnProperty_throws_witness :
  replacePlaceholders "<p>__text__</p>"
    [("text", "a"); ("hasOwnProperty", "b")] (Some true)
  = Throw "TypeError: data.hasOwnProperty is not a function".
Proof. apply (own_hasOwnProperty_throws _ _ _ "b"). reflexivity. Defined.

(** X3.  A template in which [__name__] occurs for no name of the data
    is returned unchanged by both revisions of [replacePlaceholders], in
    the regex revision provided no property is called [hasOwnProperty]. *)
Theorem unmentioned_names_change_nothing (html : string) (d : data)
    (escape : option bool) (escapeContent : bool) :
  (forall k, In k (map fst d) -> occurs ("__" +:+ k +:+ "__") html = false) ->
  lookup d "hasOwnProperty" = None ->
  replacePlaceholders html d escape = Normal html
  /\ replacePlaceholdersEach escapeContent html d = html.
Proof.
  intros Hall Hown. split; [by apply forIn_absent|by apply each_absent].
Qed.

Lemma unmentioned_names_change_nothing_witness :
  replacePlaceholders "<p>__text_</p>" [("text", "a"); ("t.xt", "b")] None
  = Normal "<p>__text_</p>"
  /\ replacePlaceholdersEach true "<p>__text_</p>" [("text", "a"); ("t.xt", "b")]
     = "<p>__text_</p>".
Proof.
  apply unmentioned_names_change_nothing; [|reflexivity].
  intros k [<-|[<-|[]]]; reflexivity.
Defined.

(** X4.  [htmlEncode] loses nothing: two texts with the same encoding
    are the same text. *)
Theorem htmlEncode_injective (a b : string) :
  htmlEncode (Some a) = htmlEncode (Some b) -> a = b.
Proof. apply encodeText_injective. Qed.

Lemma htmlEncode_injective_witness : "a<b&" = "a<b&".
Proof. apply htmlEncode_injective. reflexivity. Defined.

(** X5.  [htmlEncode] returns its argument exactly when the text has
    none of [&], [<], [>] and U+00A0; and it never returns a shorter
    string. *)
Theorem htmlEncode_fixed_points (s : string) :
  (htmlEncode (Some s) = s <-> entityFree s = true)
  /\ String.length s <= String.length (htmlEncode (Some s)).
Proof. split; [apply encodeText_fixed|apply encodeText_length]. Qed.

(** X6.  The value is a replacement pattern, not a text: where every
    value is [$&] and escaping is off, both revisions put each placeholder
    back where it was and return the template unchanged. *)
Theorem dollar_amp_restores_placeholder (html : string) (d : data) :
  distinctKeys d = true ->
  forallb (fun kv => plainName kv.1 && String.eqb kv.2 "$&") d = true ->
  replacePlaceholders html d (Some false) = Normal html
  /\ replacePlaceholdersEach false html d = html.
Proof.
  intros Hd Hall. rewrite forallb_forall in Hall. split.
  - unfold replacePlaceholders. apply forIn_amp.
    + apply lookup_absent. intros k v Hin. specialize (Hall _ Hin). cbn in Hall.
      apply andb_prop in Hall as [[_ Hn]%andb_prop _]. by apply negb_true_iff in Hn.
    + intros k v Hin. specialize (Hall _ Hin). cbn in Hall.
      apply andb_prop in Hall as [Hk Hv]. apply String.eqb_eq in Hv. subst v.
      split; [by apply lookup_distinct|done].
  - clear Hd. unfold replacePlaceholdersEach. revert html.
    induction d as [|[k v] d IH]; intros html; [reflexivity|].
    cbn [fold_left]. pose proof (Hall (k, v) (or_introl eq_refl)) as Hkv.
    cbn in Hkv. apply andb_prop in Hkv as [_ Hv]. apply String.eqb_eq in Hv.
    subst v. unfold replaceString at 2. rewrite replaceFirstFrom_amp.
    apply IH. intros x Hx. apply Hall. by right.
Qed.

Lemma dollar_amp_restores_placeholder_witness :
  replacePlaceholders "<b>__a__</b> __c__ __a__" [("a", "$&"); ("c", "$&")] (Some false)
  = Normal "<b>__a__</b> __c__ __a__"
  /\ replacePlaceholdersEach false "<b>__a__</b> __c__ __a__" [("a", "$&"); ("c", "$&")]
     = "<b>__a__</b> __c__ __a__".
Proof. apply dollar_amp_restores_placeholder; reflexivity. Defined.

(** X7.  Substitution goes name by name: with data the regex revision
    handles literally, filling a template with [d1 ++ d2] is filling it
    with [d1] and the result with [d2]; the [$.each] revision does so for
    every data. *)
Theorem placeholders_in_sequence (html : string) (d1 d2 : data)
    (escape : option bool) (escapeContent : bool) :
  plainData (d1 ++ d2) = true ->
  replacePlaceholders html (d1 ++ d2) escape
  = match replacePlaceholders html d1 escape with
    | Normal h => replacePlaceholders h d2 escape
    | Throw m => Throw m
    end
  /\ replacePlaceholdersEach escapeContent html (d1 ++ d2)
     = replacePlaceholdersEach escapeContent
         (replacePlaceholdersEach escapeContent html d1) d2.
Proof.
  intros H. destruct (plainData_app _ _ H) as [H1 H2]. split.
  - rewrite (replacePlaceholders_plain _ (d1 ++ d2)) by done.
    rewrite (replacePlaceholders_plain _ d1) by done.
    rewrite (replacePlaceholders_plain _ d2) by done.
    unfold Spec.render. by rewrite fold_left_app.
  - unfold replacePlaceholdersEach. by rewrite fold_left_app.
Qed.

Lemma placeholders_in_sequence_witness :
  replacePlaceholders "__a__ __b__" ([("a", "__b__")] ++ [("b", "<")]) None
  = match replacePlaceholders "__a__ __b__" [("a", "__b__")] None with
    | Normal h => replacePlaceholders h [("b", "<")] None
    | Throw m => Throw m
    end
  /\ replacePlaceholdersEach true "__a__ __b__" ([("a", "__b__")] ++ [("b", "<")])
     = replacePlaceholdersEach true
         (replacePlaceholdersEach true "__a__ __b__" [("a", "__b__")]) [("b", "<")].
Proof. apply placeholders_in_sequence. reflexivity. Defined.

End MoreTemplate.

(** * Further properties of the registry revisions *)
Section MoreExclusive.
Import Env Trace.

(** X8.  In the registry revisions the registry lists every object ever
    constructed, each once: [init] pushes the new object unless it is
    there already, and nothing removes an entry. *)
Theorem registry_lists_each_object_once (render : options -> completion string)
    (w : world) :
  Exclusive.reachable render w ->
  NoDup (instances w) /\ forall i, i ∈ instances w <-> is_Some (heap w !! i).
Proof.
  intros Hw%ExclusiveFacts.reachable_Inv. split.
  - by apply ExclusiveFacts.NoDup_registry.
  - intros i. destruct Hw as [_ ->]. rewrite elem_of_seq, lookup_lt_is_Some. lia.
Qed.

Lemma registry_lists_each_object_once_witness :
  NoDup (instances shownAndHovered)
  /\ forall i, i ∈ instances shownAndHovered
               <-> is_Some (heap shownAndHovered !! i).
Proof.
  apply (registry_lists_each_object_once Exclusive.render1).
  apply ExclusiveFacts.reachable_run, Exclusive.reach_init.
Defined.

(** X9.  [hide()] is idempotent in every revision: a second call right
    after the first changes nothing on the page; only the log of calls
    grows. *)
Theorem hide_twice (w : world) (i : nat) :
  is_Some (heap w !! i) ->
  Exclusive.hide i (Exclusive.hide i w) = logHide i (Exclusive.hide i w)
  /\ Remote.hide i (Remote.hide i w) = logHide i (Remote.hide i w)
  /\ Simple.hide i (Simple.hide i w) = logHide i (Simple.hide i w).
Proof.
  intros Hi. split; [by apply ExclusiveMore.hide_hide|]. split.
  - rewrite (RemoteFacts.hide_same i (Remote.hide i w)), (RemoteFacts.hide_same i w).
    by apply ExclusiveMore.hide_hide.
  - by apply SecondFacts.simple_hide_hide.
Qed.

Lemma hide_twice_witness :
  Exclusive.hide 0 (Exclusive.hide 0 shownAndHovered)
  = logHide 0 (Exclusive.hide 0 shownAndHovered).
Proof.
  assert (is_Some (heap shownAndHovered !! 0)) as H by (vm_compute; eauto).
  exact (proj1 (hide_twice shownAndHovered 0 H)).
Defined.

(** X10.  After [show()] of a live object whose popover has, or will
    have, elements (a collection made earlier that is not empty, or a
    text that can be rendered and is markup to [$]), the popover is in
    the document and stays: whatever animation was running before, also
    a fade-out started by [hide()], the end of the animation that
    [show()] leaves behind does not detach the popover. *)
Theorem show_outlives_fade (render : options -> completion string)
    (w : world) (i : nat) (s : instance) :
  Exclusive.reachable render w -> heap w !! i = Some s -> el s <> None ->
  Exclusive.presentable render s w ->
  exists w' s' e,
    Exclusive.show render i w = Ok w'
    /\ heap w' !! i = Some s' /\ popover s' = Some e
    /\ isAttached e w' = true
    /\ isAttached e (Exclusive.step render (Exclusive.AnimEnd e) w') = true.
Proof.
  intros Hw%ExclusiveFacts.reachable_Inv Hs Hel Hb.
  destruct (ExclusiveFacts.show_once render i s w Hw Hs Hel Hb)
    as (w' & s' & e & x & Hsh & _ & Hs' & _ & Hp & Hx & Ha & _ & Han & _).
  exists w', s', e. split_and!; try done.
  - unfold isAttached. by rewrite Hx.
  - unfold isAttached. cbn. rewrite list_lookup_alter_eq, Hx. cbn.
    by apply ExclusiveMore.finish_keeps.
Qed.

Lemma show_outlives_fade_witness :
  let w := Exclusive.run Exclusive.render1
             [Exclusive.Create 0 defOpts; Exclusive.CallShow 0;
              Exclusive.CallHide 0] blank in
  exists w' s' e,
    Exclusive.show Exclusive.render1 0 w = Ok w'
    /\ heap w' !! 0 = Some s' /\ popover s' = Some e
    /\ isAttached e w' = true
    /\ isAttached e (Exclusive.step Exclusive.render1 (Exclusive.AnimEnd e) w') = true.
Proof.
  intros w.
  assert (exists s x, heap w !! 0 = Some s /\ el s <> None /\ popover s = Some 0
                      /\ dom w !! 0 = Some x /\ nodes x = true)
    as (s & x & Hs & Hel & Hp & Hx & Hn).
  { vm_compute. eexists _, _. repeat split; discriminate. }
  apply (show_outlives_fade Exclusive.render1 w 0 s); [|exact Hs|exact Hel|].
  - apply ExclusiveFacts.reachable_run, Exclusive.reach_init.
  - unfold Exclusive.presentable. rewrite Hp. by exists x.
Defined.





(** X13.  Mouse enter followed by mouse leave on a trigger cancels the
    show that enter has scheduled: the timeout id it was given is not
    pending any more and firing it does nothing.  What stays is the hide
    that leave schedules unless the popover was shown by a click; no
    element and no document listener is touched. *)
Theorem hover_in_and_out (render : options -> completion string)
    (w : world) (i : nat) (s : instance) :
  Exclusive.reachable render w -> heap w !! i = Some s -> bound s = true ->
  let w' := Exclusive.onMouseLeave i (Exclusive.onMouseEnter i w) in
  timers w' = filter (fun t => t.1 <> hideTimeout s) (timers w)
              ++ (if wasClicked s then [] else [(S (nextTimer w), THide i)])
  /\ dom w' = dom w /\ docClick w' = docClick w
  /\ Exclusive.fire render (nextTimer w) w' = Ok w'.
Proof.
  intros Hw%TraceFacts.reachable_Sound Hs Hb.
  by apply ExclusiveMore.enter_then_leave.
Qed.

Lemma hover_in_and_out_witness :
  let w := Exclusive.run Exclusive.render1 [Exclusive.Create 0 defOpts] blank in
  timers (Exclusive.onMouseLeave 0 (Exclusive.onMouseEnter 0 w)) = [(2, THide 0)].
Proof.
  intros w.
  exact (proj1 (hover_in_and_out Exclusive.render1 w 0 _
                  (ExclusiveFacts.reachable_run _ _ _ (Exclusive.reach_init _ _))
                  eq_refl eq_refl)).
Defined.

(** X14.  A click that reaches the document runs [hide()] of every object
    whose listener is bound, in the order of binding, and leaves no
    listener bound; the popovers of these objects are on their way out of
    the document. *)
Theorem outside_click_closes (render : options -> completion string) (w : world) :
  Exclusive.reachable render w ->
  let w' := Exclusive.step render Exclusive.DocClick w in
  docClick w' = []
  /\ hideCalls w' = hideCalls w ++ docClick w
  /\ forall e x, dom w' !! e = Some x -> owner x ∈ docClick w ->
       Exclusive.leaving x.
Proof.
  intros Hw. apply ExclusiveMore.docDispatch_spec.
  - by eapply ExclusiveFacts.reachable_Inv.
  - apply sound_doc. by eapply TraceFacts.reachable_Sound.
Qed.

Lemma outside_click_closes_witness :
  docClick (Exclusive.step Exclusive.render1 Exclusive.DocClick shownAndHovered) = []
  /\ hideCalls (Exclusive.step Exclusive.render1 Exclusive.DocClick shownAndHovered)
     = hideCalls shownAndHovered ++ docClick shownAndHovered.
Proof.
  destruct (outside_click_closes Exclusive.render1 shownAndHovered) as (H1 & H2 & _).
  - apply ExclusiveFacts.reachable_run, Exclusive.reach_init.
  - by split.
Defined.

End MoreExclusive.

(** * Further properties of the remote-content revision *)
Section MoreRemote.
Import Env.

(** X15.  In [part_000] a request in flight always belongs to an object
    whose content is a URL, that has no popover element yet and that holds
    this very request in [runningRequest]. *)
Theorem request_belongs_to_unbuilt_object (w : world) (r i : nat) :
  Remote.reachable w -> (r, i) ∈ requests w ->
  exists s,
    heap w !! i = Some s /\ Remote.remote (opts s) = true
    /\ popover s = None /\ popoversOf i w = []
    /\ runningRequest s = Some r.
Proof.
  intros (Hl & Hd & Hp)%RemoteFacts.reachable_RInv Hin.
  destruct (Hp r i Hin) as [_ Hv]. rewrite list_lookup_fmap in Hv.
  destruct (heap w !! i) as [s|] eqn:Hs; [|discriminate].
  destruct (RemoteFacts.pending_named i s r w Hp Hs Hin) as (Hr & Hnone & Hrem).
  exists s. split_and!; try done. by eapply RemoteFacts.no_popover_yet.
Qed.

Lemma request_belongs_to_unbuilt_object_witness :
  exists s,
    heap (Remote.run [Remote.Create 0 remoteOpts; Remote.CallShow 0] blank) !! 0
    = Some s
    /\ Remote.remote (opts s) = true
    /\ popover s = None
    /\ popoversOf 0 (Remote.run [Remote.Create 0 remoteOpts; Remote.CallShow 0] blank)
       = []
    /\ runningRequest s = Some 1.
Proof.
  apply (request_belongs_to_unbuilt_object _ 1 0).
  - apply RemoteFacts.reachable_after, Remote.reach_init.
  - by left.
Defined.

(** X16.  When a fetch fails no popover is made and nothing is shown;
    [complete] clears [runningRequest], and the next [show()] fetches
    again. *)
Theorem failed_fetch_is_retried (w : world) (r i : nat) (s : instance) :
  Remote.reachable w -> (r, i) ∈ requests w -> heap w !! i = Some s ->
  exists w1 w2,
    Remote.respond r None w = Ok w1
    /\ dom w1 = dom w /\ timers w1 = timers w /\ docClick w1 = docClick w
    /\ heap w1 !! i = Some (setRunning None s)
    /\ (forall q, (q, i) ∉ requests w1)
    /\ Remote.publicShow i w1 = Ok w2
    /\ dom w2 = dom w
    /\ filter (fun q => q.2 = i) (requests w2) = [(nextRequest w, i)].
Proof.
  intros Hw%RemoteFacts.reachable_RInv Hin Hs.
  destruct (RemoteFacts.pending_named i s r w (proj2 (proj2 Hw)) Hs Hin)
    as (_ & Hnone & Hrem).
  destruct (RemoteMore.respond_failure r i s w Hw Hin Hs)
    as (w1 & Hr & Hw1 & Hdom & Ht & Hdc & Hn & Hs1 & Hidle).
  destruct (RemoteFacts.publicShow_remote i _ w1 Hw1 Hs1 Hnone Hrem)
    as (w2 & s2 & Hsh & _ & Hdom2 & _ & Hreq & _).
  exists w1, w2. split_and!; try done; congruence.
Qed.

Lemma failed_fetch_is_retried_witness :
  exists w1 w2,
    Remote.respond 1 None
      (Remote.run [Remote.Create 0 remoteOpts; Remote.CallShow 0] blank) = Ok w1
    /\ Remote.publicShow 0 w1 = Ok w2
    /\ filter (fun q => q.2 = 0) (requests w2) = [(2, 0)].
Proof.
  edestruct (failed_fetch_is_retried
               (Remote.run [Remote.Create 0 remoteOpts; Remote.CallShow 0] blank)
               1 0)
    as (w1 & w2 & H1 & _ & _ & _ & _ & _ & H2 & _ & H3).
  - apply RemoteFacts.reachable_after, Remote.reach_init.
  - by left.
  - reflexivity.
  - by exists w1, w2.
Defined.

(** X17.  [destroy()] does not abort a fetch.  When the answer arrives
    after [destroy()], [success] ends with an exception.  Where [$] takes
    the text made from the answer, the popover collection is made from
    it, then [showPopover] throws a [TypeError] at [$el.position()]: the
    collection is not put into the document.  Where [$] rejects the text,
    its exception ends [success] and no collection is made.  Either way,
    [complete] being skipped, [runningRequest] keeps the request that is
    over. *)
Theorem answer_after_destroy_throws (w : world) (r i : nat) (s : instance)
    (c : content) (html : string) :
  Remote.reachable w -> (r, i) ∈ requests w -> heap w !! i = Some s ->
  el s = None ->
  Remote.markupFor (opts s) (prepareContent (opts s) c) = Normal html ->
  (forall parsed, jQuery w html = Normal parsed ->
     exists w' s',
       Remote.respond r (Some c) w = Err "TypeError: $el is null" w'
       /\ popoversOf i w' = [collection i html parsed]
       /\ attachedPopovers w' = attachedPopovers w
       /\ heap w' !! i = Some s' /\ runningRequest s' = Some r
       /\ (forall q, (q, i) ∉ requests w'))
  /\ (forall m, jQuery w html = Throw m ->
       exists w',
         Remote.respond r (Some c) w = Err m w'
         /\ popoversOf i w' = [] /\ dom w' = dom w
         /\ heap w' !! i = Some s /\ runningRequest s = Some r
         /\ (forall q, (q, i) ∉ requests w')).
Proof.
  intros Hw%RemoteFacts.reachable_RInv Hin Hs Hel Hm.
  destruct (RemoteFacts.pending_named i s r w (proj2 (proj2 Hw)) Hs Hin)
    as (Hrun & Hnone & _).
  split.
  - intros parsed Hq.
    destruct (RemoteMore.respond_released r i s c html parsed w Hw Hin Hs Hel Hm Hq)
      as (w' & Hr & Hp & Hatt & Hs' & Hidle).
    exists w', (setPopover (Some (length (dom w))) s). by split_and!.
  - intros m Hq.
    destruct (RemoteMore.respond_rejected r i s c html m w Hw Hin Hs Hm Hq)
      as (w' & Hr & Hdom & Hheap & Hidle).
    exists w'. split_and!; try done.
    + unfold popoversOf. rewrite Hdom.
      by apply (RemoteFacts.no_popover_yet i s w (proj1 Hw)).
    + by rewrite Hheap.
Qed.

Lemma answer_after_destroy_throws_witness :
  exists w' s',
    Remote.respond 1 (Some (CText "<p>late</p>"))
      (Remote.run [Remote.Create 0 remoteOpts; Remote.CallShow 0;
                   Remote.CallDestroy 0] blank)
    = Err "TypeError: $el is null" w'
    /\ popoversOf 0 w' = [Elem 0 "<p>late</p>" false None true]
    /\ heap w' !! 0 = Some s' /\ runningRequest s' = Some 1.
Proof.
  edestruct answer_after_destroy_throws
    with (w := Remote.run [Remote.Create 0 remoteOpts; Remote.CallShow 0;
                           Remote.CallDestroy 0] blank)
         (r := 1) (i := 0) (c := CText "<p>late</p>") (html := "<p>late</p>")
    as [H _].
  - apply RemoteFacts.reachable_after, Remote.reach_init.
  - by left.
  - reflexivity.
  - reflexivity.
  - reflexivity.
  - destruct (H true eq_refl) as (w' & s' & H1 & H2 & _ & H4 & H5 & _).
    by exists w', s'.
Defined.

(** X18.  In [part_000] the text of a popover is what [markupFor] makes
    of the content after [prepareContent]: of [opts.content] where that
    is no URL, of the answer where it is one.  A string is taken as it
    stands, the template being left aside; an object fills the template.
    Where this text is markup to [$], [show()] of a live object, or the
    answer to its request, leaves one element with that markup, in the
    document. *)
Theorem popover_markup_follows_content (w : world) (i : nat) (s : instance) :
  Remote.reachable w -> heap w !! i = Some s -> el s <> None ->
  popover s = None ->
  (forall html,
     Remote.remote (opts s) = false ->
     Remote.markupFor (opts s) (prepareContent (opts s) (content_ (opts s)))
     = Normal html ->
     jQuery w html = Normal true ->
     exists w' x,
       Remote.publicShow i w = Ok w' /\ popoversOf i w' = [x]
       /\ markup x = html /\ attached x = true)
  /\ (forall r c html,
        (r, i) ∈ requests w ->
        Remote.markupFor (opts s) (prepareContent (opts s) c) = Normal html ->
        jQuery w html = Normal true ->
        exists w' x,
          Remote.respond r (Some c) w = Ok w' /\ popoversOf i w' = [x]
          /\ markup x = html /\ attached x = true).
Proof.
  intros Hw%RemoteFacts.reachable_RInv Hs Hel Hp. split.
  - intros html Hrem Hm Hq. by apply (RemoteMore.publicShow_inline_markup i s).
  - intros r c html Hin Hm Hq. by apply (RemoteMore.respond_markup r i s c).
Qed.

Lemma popover_markup_follows_content_witness :
  let o := Options (tpl defOpts) (CText "<b>hi</b>") (fun c => c)
             true true true 100 in
  exists w' x,
    Remote.publicShow 0 (Remote.run [Remote.Create 0 o] blank) = Ok w'
    /\ popoversOf 0 w' = [x] /\ markup x = "<b>hi</b>" /\ attached x = true.
Proof.
  intros o.
  refine (proj1 (popover_markup_follows_content
                   (Remote.run [Remote.Create 0 o] blank) 0 _ _ eq_refl _ eq_refl)
            "<b>hi</b>" eq_refl eq_refl eq_refl).
  - apply RemoteFacts.reachable_after, Remote.reach_init.
  - discriminate.
Defined.

End MoreRemote.

(** * Properties of [$.fn.popover] *)
Section MorePage.
Import Env Page.

(** X19.  In the registry revisions no trigger ever has two live
    objects: on every page that calls of the plugin, calls of [destroy()]
    and events lead to, the object stored under a trigger is the one
    object whose [$el] is that trigger. *)
Theorem one_object_per_trigger (render : options -> completion string)
    (dispatch : Dispatch.arg -> Dispatch.outcome) (p : page) :
  reachable render dispatch p ->
  forall e i s,
    heap (world_of p) !! i = Some s -> el s = Some e ->
    store p !! e = Some i
    /\ forall j s', heap (world_of p) !! j = Some s' -> el s' = Some e -> j = i.
Proof.
  intros Hr%PageFacts.reachable_registered e i s Hs He.
  assert (forall j s', heap (world_of p) !! j = Some s' -> el s' = Some e ->
            store p !! e = Some j) as Hstore.
  { intros j s' Hj Hel. apply Hr. by rewrite list_lookup_fmap, Hj, <- Hel. }
  split; [by eapply Hstore|].
  intros j s' Hj Hel. pose proof (Hstore _ _ Hj Hel). pose proof (Hstore _ _ Hs He).
  congruence.
Qed.

Lemma one_object_per_trigger_witness :
  exists p,
    after (fnPopover Exclusive.render1 Dispatch.dispatch
             (Call Dispatch.Undefined (fun _ => Normal defOpts)) [0; 1; 0]
             (Page blank ∅)) = Some p
    /\ store p !! 1 = Some 1.
Proof.
  assert (exists p s,
            after (fnPopover Exclusive.render1 Dispatch.dispatch
                     (Call Dispatch.Undefined (fun _ => Normal defOpts)) [0; 1; 0]
                     (Page blank ∅)) = Some p
            /\ heap (world_of p) !! 1 = Some s /\ el s = Some 1)
    as (p & s & Hp & Hs & He).
  { eexists _, _. split; [reflexivity|]. split; reflexivity. }
  exists p. split; [exact Hp|].
  refine (proj1 (one_object_per_trigger Exclusive.render1 Dispatch.dispatch p
                   _ 1 1 s Hs He)).
  eapply reach_call; [apply reach_blank|exact Hp].
Defined.

(** X20.  In the first file of [src/jquery.popover.js] activation is
    idempotent.  A call without a method name gives every trigger of the
    collection that has no object yet its object, and leaves the objects
    that exist, and the triggers they are stored under, as they are; a
    second such call, whatever options it brings, changes nothing at
    all. *)
Theorem activation_is_idempotent (render : options -> completion string)
    (c c' : call) (els : list nat) (p : page) :
  reachable render Dispatch.dispatch p ->
  (forall name, arg0 c <> Dispatch.Str name) ->
  (forall name, arg0 c' <> Dispatch.Str name) ->
  (forall e, e ∈ els -> store p !! e = None ->
     exists o, settings c e = Normal o) ->
  exists p1,
    fnPopover render Dispatch.dispatch c els p = Done p1
    /\ (forall e, e ∈ els -> is_Some (store p1 !! e))
    /\ (forall e i, store p !! e = Some i -> store p1 !! e = Some i)
    /\ (forall i s, heap (world_of p) !! i = Some s ->
          heap (world_of p1) !! i = Some s)
    /\ fnPopover render Dispatch.dispatch c' els p1 = Done p1.
Proof.
  intros Hr%PageFacts.reachable_registered Hc Hc' Hset.
  assert (forall a, (forall name, a <> Dispatch.Str name) ->
            Dispatch.dispatch a = Dispatch.Skipped) as Hskip.
  { intros [|name|] Ha; [done| |done]. by destruct (Ha name). }
  destruct (PageFacts.fnPopover_activates render Dispatch.dispatch c els p Hr
              (Hskip _ Hc) Hset) as (p1 & Hp1 & Hall & Hkeep & Hobj).
  exists p1. split_and!; try done.
  by apply PageFacts.fnPopover_known; [apply Hskip|].
Qed.

Lemma activation_is_idempotent_witness :
  exists p1,
    fnPopover Exclusive.render1 Dispatch.dispatch
      (Call Dispatch.Undefined (fun _ => Normal defOpts)) [0; 1] (Page blank ∅)
    = Done p1
    /\ fnPopover Exclusive.render1 Dispatch.dispatch
         (Call Dispatch.Obj (fun _ => Normal remoteOpts)) [0; 1] p1
       = Done p1.
Proof.
  edestruct (activation_is_idempotent Exclusive.render1
               (Call Dispatch.Undefined (fun _ => Normal defOpts))
               (Call Dispatch.Obj (fun _ => Normal remoteOpts)) [0; 1]
               (Page blank ∅)) as (p1 & H1 & _ & _ & _ & H2).
  - apply reach_blank.
  - discriminate.
  - discriminate.
  - intros e _ _. by eexists.
  - by exists p1.
Defined.

(** X21.  In [part_001] Auto pilot gets no further than the first
    trigger.  Its call has no argument, which this revision reports as
    an unknown method: the object of the first trigger is made if it is
    not there, then the loop ends with the exception.  The other triggers
    are left without object, also when Auto pilot runs again. *)
Theorem auto_pilot_stops_at_first_trigger (render : options -> completion string)
    (defaults : nat -> completion options) (e : nat) (others : list nat)
    (p : page) :
  (store p !! e = None -> exists o, defaults e = Normal o) ->
  exists p1,
    autoPilot render Dispatch.dispatch1 defaults (e :: others) p
    = Failed "Method 'undefined' doesn't exist for popover plugin" p1
    /\ is_Some (store p1 !! e)
    /\ (forall e', e' <> e -> store p1 !! e' = store p !! e')
    /\ forall defaults',
         autoPilot render Dispatch.dispatch1 defaults' (e :: others) p1
         = Failed "Method 'undefined' doesn't exist for popover plugin" p1.
Proof.
  intros Hset. unfold autoPilot. cbn [fnPopover]. unfold each, instanceFor.
  cbn [arg0 settings Dispatch.dispatch1 Dispatch.argText].
  destruct (store p !! e) as [i|] eqn:He.
  - exists p. split; [done|]. split; [by rewrite He|]. split; [done|].
    intros defaults'. by rewrite He.
  - destruct (Hset eq_refl) as [o ->]. eexists. split; [reflexivity|]. cbn.
    split; [by rewrite lookup_insert_eq|].
    split; [by intros e' Hne; rewrite lookup_insert_ne|].
    intros defaults'. by rewrite lookup_insert_eq.
Qed.

Lemma auto_pilot_stops_at_first_trigger_witness :
  exists p1,
    autoPilot Exclusive.render1 Dispatch.dispatch1 (fun _ => Normal defOpts)
      [0; 1; 2] (Page blank ∅)
    = Failed "Method 'undefined' doesn't exist for popover plugin" p1
    /\ store p1 !! 1 = None.
Proof.
  destruct (auto_pilot_stops_at_first_trigger Exclusive.render1
              (fun _ => Normal defOpts) 0 [1; 2] (Page blank ∅))
    as (p1 & H1 & _ & H2 & _).
  - intros _. by eexists.
  - exists p1. split; [exact H1|]. by rewrite H2.
Defined.

End MorePage.

(** * Properties of the second file of [src/jquery.popover.js] *)
Section MoreSecond.
Import Env Page.

(** X22.  In the second file [show()] leaves a popover that is in the
    document alone, so a [show()] that comes while the popover is fading
    out after [hide()] is lost: it only cancels the show timer, the fade
    goes on and its end detaches the popover. *)
Theorem show_during_fade_out_is_lost (render : options -> completion string)
    (w : world) (i : nat) (s : instance) (e : nat) (x : elem) :
  heap w !! i = Some s -> popover s = Some e ->
  dom w !! e = Some x -> attached x = true -> animSpeed (opts s) <> 0 ->
  let w1 := Simple.hide i w in
  Second.show render i w1 = Ok (clearTimeout (showTimeout s) w1)
  /\ isAttached e (clearTimeout (showTimeout s) w1) = true
  /\ isAttached e (updE e finishElem (clearTimeout (showTimeout s) w1)) = false.
Proof.
  intros Hs Hp Hx Ha Hspeed w1.
  assert (heap w1 !! i = Some (setWasClicked false s)) as Hs1.
  { unfold w1.
    pose proof (SecondFacts.simple_hide_rest i s w Hs) as [= _ -> _ _ _ _ _ _ _].
    by rewrite list_lookup_alter_eq, Hs. }
  assert (dom w1 !! e
          = Some (setAnim (Some ToTransparent) (setAnim None x))) as Hx1.
  { unfold w1. rewrite SecondFacts.simple_hide_dom.
    rewrite (ExclusiveFacts.hide_dom i s w Hs), Hp, list_lookup_alter_eq, Hx.
    unfold Exclusive.fadeOut. by destruct (animSpeed (opts s)). }
  split_and!.
  - unfold Second.show. rewrite Hs1. unfold Exclusive.build.
    cbn [popover setWasClicked showTimeout]. rewrite Hp.
    unfold isAttached. cbn [dom clearTimeout]. rewrite Hx1.
    by rewrite !attached_setAnim, Ha.
  - unfold isAttached. cbn [dom clearTimeout]. rewrite Hx1.
    by rewrite !attached_setAnim.
  - unfold isAttached. cbn [dom clearTimeout updE updDom].
    rewrite list_lookup_alter_eq, Hx1. by destruct x.
Qed.

Lemma show_during_fade_out_is_lost_witness :
  let w1 := Simple.hide 0 shownAndHovered in
  exists s,
    heap shownAndHovered !! 0 = Some s
    /\ Second.show Exclusive.render1 0 w1 = Ok (clearTimeout (showTimeout s) w1)
    /\ isAttached 0 (updE 0 finishElem (clearTimeout (showTimeout s) w1)) = false.
Proof.
  intros w1.
  assert (exists s x,
            heap shownAndHovered !! 0 = Some s /\ popover s = Some 0
            /\ dom shownAndHovered !! 0 = Some x /\ attached x = true
            /\ animSpeed (opts s) <> 0)
    as (s & x & Hs & Hp & Hx & Ha & Hspeed).
  { vm_compute. eexists _, _. repeat split. discriminate. }
  exists s. split; [exact Hs|].
  destruct (show_during_fade_out_is_lost Exclusive.render1 shownAndHovered 0 s 0 x
              Hs Hp Hx Ha Hspeed) as (H1 & _ & H3).
  by split.
Defined.

(** X23.  In the second file a method named in the call is called
    twice for every trigger, by the first and again by the third [if] of
    the callback.  For [hide] and [destroy] the second call changes
    nothing: the page is the one a single call leaves, but for the log of
    [hide].  So it is for [show] where the popover has, or will have,
    elements: a collection made earlier that is not empty, or a text that
    can be rendered and is markup to [$]. *)
Theorem named_method_runs_twice (render : options -> completion string)
    (c : call) (e i : nat) (s : instance) (p : page) (name : string) :
  arg0 c = Dispatch.Str name -> name ∈ ["show"; "hide"; "destroy"] ->
  store p !! e = Some i -> heap (world_of p) !! i = Some s ->
  showTimeout s < nextTimer (world_of p) ->
  Second.each render c e p
  = match Second.invoke render name i p with
    | Done p1 => Second.invoke render name i p1
    | o => o
    end
  /\ (name = "show" ->
      Exclusive.presentable render s (world_of p) ->
      Second.each render c e p
      = lift (store p) (Second.show render i (world_of p)))
  /\ (name = "hide" ->
      Second.each render c e p
      = Done (Page (logHide i (Simple.hide i (world_of p))) (store p)))
  /\ (name = "destroy" ->
      Second.each render c e p
      = Done (Page (Second.destroy i (world_of p)) (store p))).
Proof.
  intros Hc Hname He Hs Hlt.
  assert (Second.each render c e p
          = match Second.invoke render name i p with
            | Done p1 => Second.invoke render name i p1
            | o => o
            end) as Heach.
  { unfold Second.each, Second.instanceFor. rewrite He, Hc.
    repeat (apply elem_of_cons in Hname as [->|Hname]; [done|]).
    by apply elem_of_nil in Hname. }
  split; [exact Heach|]. rewrite Heach. unfold Second.invoke.
  split_and!; intros ->; cbn [String.eqb Ascii.eqb Bool.eqb].
  - intros Hpres.
    destruct (Second.show render i (world_of p)) as [w1|m w1] eqn:Hsh; [|done].
    cbn [lift world_of store].
    by rewrite (SecondFacts.show_show render i s _ w1 Hs Hlt Hpres Hsh).
  - cbn [world_of store]. by rewrite SecondFacts.simple_hide_hide by eauto.
  - cbn [world_of store]. by rewrite SecondFacts.destroy_destroy.
Qed.

Lemma named_method_runs_twice_witness :
  let p := Page shownAndHovered {[ 7 := 0 ]} in
  Second.each Exclusive.render1
    (Call (Dispatch.Str "hide") (fun _ => Normal defOpts)) 7 p
  = Done (Page (logHide 0 (Simple.hide 0 (world_of p))) (store p)).
Proof.
  intros p.
  assert (exists s, heap shownAndHovered !! 0 = Some s
                    /\ showTimeout s < nextTimer shownAndHovered)
    as (s & Hs & Hlt).
  { vm_compute. eexists. split; [reflexivity|]. cbn. lia. }
  assert ("hide" ∈ ["show"; "hide"; "destroy"]) as Hin by (by right; left).
  assert (store p !! 7 = Some 0) as Hst by apply lookup_singleton_eq.
  exact (proj1 (proj2 (proj2 (named_method_runs_twice Exclusive.render1
                  (Call (Dispatch.Str "hide") (fun _ => Normal defOpts)) 7 0 s
                  p "hide" eq_refl Hin Hst Hs Hlt))) eq_refl).
Defined.

End MoreSecond.

(** * The deferred registration of the document listener *)
Section MoreClicks.
Import Env Trace.

(** X24.  [hide()] does not cancel the registration of the document
    listener that [show()] has deferred.  After [show()] and [hide()] the
    popover is on its way out of the document, yet the deferred callback
    is still pending, and when it comes due it binds the listener. *)
Theorem deferred_listener_survives_hide (render : options -> completion string)
    (w : world) (id i : nat) :
  Exclusive.reachable render w -> (id, TBindDoc i) ∈ timers w ->
  let w1 := Exclusive.hide i w in
  (id, TBindDoc i) ∈ timers w1
  /\ (forall e x, dom w1 !! e = Some x -> owner x = i -> Exclusive.leaving x)
  /\ exists w2,
       Exclusive.fire render id w1 = Ok w2 /\ i ∈ docClick w2 /\ dom w2 = dom w1.
Proof.
  intros Hw Hin w1.
  destruct (ClickFacts.hide_keeps_deferred render id i w) as (H1 & H2 & H3);
    [by eapply ExclusiveFacts.reachable_Inv|by eapply TraceFacts.reachable_Sound
    |done|].
  split; [exact H1|]. split; [exact H3|].
  eexists. split; [exact H2|]. split; [|done].
  cbn. apply elem_of_app. right. by left.
Qed.

Lemma deferred_listener_survives_hide_witness :
  let w := Exclusive.run Exclusive.render1
             [Exclusive.Create 0 defOpts; Exclusive.CallShow 0] blank in
  exists w2,
    Exclusive.fire Exclusive.render1 1 (Exclusive.hide 0 w) = Ok w2
    /\ 0 ∈ docClick w2 /\ dom w2 = dom (Exclusive.hide 0 w).
Proof.
  intros w.
  refine (proj2 (proj2 (deferred_listener_survives_hide Exclusive.render1 w 1 0 _ _))).
  - apply ExclusiveFacts.reachable_run, Exclusive.reach_init.
  - by left.
Defined.

(** X25.  The click that opens a popover does not close it.  A click on
    the trigger of a live object whose popover is not in the document and
    has, or will have, elements (a collection made earlier that is not
    empty, or a text that can be rendered and is markup to [$]) shows it
    and sets [wasClicked]; the click goes on to the document, where no
    listener of this object is bound yet, the registration being deferred:
    the popover stays in the document and is not fading out. *)
Theorem click_opens_and_popover_stays (render : options -> completion string)
    (w : world) (i : nat) (s : instance) :
  Exclusive.reachable render w -> heap w !! i = Some s ->
  bound s = true -> el s <> None -> Exclusive.presentable render s w ->
  (forall e, popover s = Some e -> isAttached e w = false) ->
  i ∉ docClick w ->
  let w' := Exclusive.step render (Exclusive.Click i) w in
  exists s' e x,
    heap w' !! i = Some s' /\ wasClicked s' = true /\ popover s' = Some e
    /\ dom w' !! e = Some x /\ attached x = true /\ anim x <> Some ToTransparent
    /\ docClick w' = []
    /\ exists id, (id, TBindDoc i) ∈ timers w'.
Proof.
  intros Hw Hs Hb Hel Hbuild Hoff Hdoc w'.
  pose proof (ExclusiveFacts.reachable_Inv render w Hw) as HI.
  pose proof (TraceFacts.reachable_Sound render w Hw) as HS.
  destruct (ExclusiveFacts.show_once render i s w HI Hs Hel Hbuild)
    as (w1 & s1 & e & x & Hsh & HI1 & Hs1 & _ & Hp1 & Hx & Ha & _ & Han & _).
  pose proof (ClickFacts.show_docClick render i s w w1 HI (sound_doc w HS) Hs Hel Hsh)
    as Hdc.
  assert (docClick w1 = []) as Hdc1.
  { rewrite Hdc. apply filter_none.
    intros j y Hy ->. apply Hdoc. by eapply list_elem_of_lookup_2. }
  assert (w' = updI i (setWasClicked true) w1) as ->.
  { unfold w'. cbn [Exclusive.step]. unfold Exclusive.onClick. rewrite Hs, Hb.
    assert (match popover s with
            | Some e0 => isAttached e0 w
            | None => false
            end = false) as ->.
    { destruct (popover s) as [e0|]; [by apply Hoff|done]. }
    rewrite Hsh. cbn [state]. unfold Exclusive.docDispatch.
    change (docClick (updI i (setWasClicked true) w1)) with (docClick w1).
    by rewrite Hdc1. }
  exists (setWasClicked true s1), e, x. split_and!; try done.
  - cbn. by rewrite list_lookup_alter_eq, Hs1.
  - destruct (ClickFacts.show_defers render i s w w1 Hs Hsh) as [w2 ->].
    exists (nextTimer w2). cbn. apply elem_of_app. right. by left.
Qed.

Lemma click_opens_and_popover_stays_witness :
  let w := Exclusive.run Exclusive.render1 [Exclusive.Create 0 defOpts] blank in
  exists s' e x,
    heap (Exclusive.step Exclusive.render1 (Exclusive.Click 0) w) !! 0 = Some s'
    /\ wasClicked s' = true /\ popover s' = Some e
    /\ dom (Exclusive.step Exclusive.render1 (Exclusive.Click 0) w) !! e = Some x
    /\ attached x = true.
Proof.
  intros w.
  edestruct (click_opens_and_popover_stays Exclusive.render1 w 0)
    as (s' & e & x & H1 & H2 & H3 & H4 & H5 & _).
  - apply ExclusiveFacts.reachable_run, Exclusive.reach_init.
  - reflexivity.
  - reflexivity.
  - discriminate.
  - eexists. split; reflexivity.
  - discriminate.
  - apply not_elem_of_nil.
  - by exists s', e, x.
Defined.

(** X26.  Where the document listener of an object is bound while its
    popover is not in the document, as after [show()], [hide()] and the
    deferred registration, a click on the trigger opens the popover and
    closes it at once: the click goes on to the document, [hide()] runs,
    and the popover ends up on its way out with [wasClicked] reset. *)
Theorem click_with_stale_listener_closes (render : options -> completion string)
    (w : world) (i : nat) (s : instance) :
  Exclusive.reachable render w -> heap w !! i = Some s ->
  bound s = true -> el s <> None -> Exclusive.buildable render s ->
  (forall e, popover s = Some e -> isAttached e w = false) ->
  i ∈ docClick w ->
  let w' := Exclusive.step render (Exclusive.Click i) w in
  exists s' e x,
    heap w' !! i = Some s' /\ wasClicked s' = false /\ popover s' = Some e
    /\ dom w' !! e = Some x /\ Exclusive.leaving x
    /\ docClick w' = [].
Proof.
  intros Hw Hs Hb Hel Hbuild Hoff Hdoc w'.
  pose proof (ExclusiveFacts.reachable_Inv render w Hw) as HI.
  pose proof (TraceFacts.reachable_Sound render w Hw) as HS.
  assert (Exclusive.builds render s w) as Hbuilds.
  { destruct (TraceFacts.reachable_Listening render w Hw i) as (s0 & Hs0 & Hp0);
      [by left|].
    intros Hnone. congruence. }
  destruct (ExclusiveFacts.show_runs render i s w HI Hs Hel Hbuilds)
    as (w1 & s1 & e & x & Hsh & HI1 & Hs1 & _ & Hp1 & Hx & _).
  pose proof (ClickFacts.show_docClick render i s w w1 HI (sound_doc w HS) Hs Hel Hsh)
    as Hdc.
  set (w2 := updI i (setWasClicked true) w1).
  assert (w' = Exclusive.docDispatch w2) as ->.
  { unfold w'. cbn [Exclusive.step]. unfold Exclusive.onClick. rewrite Hs, Hb.
    assert (match popover s with
            | Some e0 => isAttached e0 w
            | None => false
            end = false) as ->.
    { destruct (popover s) as [e0|]; [by apply Hoff|done]. }
    by rewrite Hsh. }
  assert (Exclusive.Inv w2) as HI2.
  { eapply ExclusiveFacts.Inv_skel; [|exact HI1]. by apply skel_updI. }
  assert (heap w2 !! i = Some (setWasClicked true s1)) as Hs2.
  { cbn. by rewrite list_lookup_alter_eq, Hs1. }
  assert (i ∈ docClick w2) as Hin2.
  { change (docClick w2) with (docClick w1). rewrite Hdc.
    by apply list_elem_of_filter. }
  assert (forall j, j ∈ docClick w2 -> j < length (heap w2)) as Hvalid.
  { intros j Hj. change (docClick w2) with (docClick w1) in Hj. rewrite Hdc in Hj.
    apply list_elem_of_filter in Hj as [-> _]. by eapply lookup_lt_Some. }
  destruct (ExclusiveMore.docDispatch_spec w2 HI2 Hvalid) as (Hnone & _ & Hleave).
  pose proof (ClickFacts.fold_hide_heap (docClick w2) w2 i _ Hs2) as Hs3.
  fold (Exclusive.docDispatch w2) in Hs3.
  rewrite bool_decide_eq_true_2 in Hs3 by done.
  assert (Exclusive.Inv (Exclusive.docDispatch w2)) as HI3.
  { exact (ExclusiveFacts.Inv_step render Exclusive.DocClick w2 HI2). }
  destruct (proj1 (proj1 HI3) i _ e Hs3 Hp1) as (x3 & Hx3 & Ho3).
  exists (setWasClicked false (setWasClicked true s1)), e, x3.
  split_and!; try done. apply (Hleave e x3 Hx3). by rewrite Ho3.
Qed.

Lemma click_with_stale_listener_closes_witness :
  let w := Exclusive.run Exclusive.render1
             [Exclusive.Create 0 defOpts; Exclusive.CallShow 0;
              Exclusive.CallHide 0; Exclusive.Timeout 1; Exclusive.AnimEnd 0]
             blank in
  exists s' e x,
    heap (Exclusive.step Exclusive.render1 (Exclusive.Click 0) w) !! 0 = Some s'
    /\ wasClicked s' = false /\ popover s' = Some e
    /\ dom (Exclusive.step Exclusive.render1 (Exclusive.Click 0) w) !! e = Some x
    /\ Exclusive.leaving x.
Proof.
  intros w.
  assert (exists s, heap w !! 0 = Some s /\ bound s = true /\ el s <> None
                    /\ popover s = Some 0 /\ isAttached 0 w = false
                    /\ 0 ∈ docClick w)
    as (s & Hs & Hb & Hel & Hp & Ha & Hd).
  { vm_compute. eexists. repeat split; try discriminate. by left. }
  assert (Exclusive.reachable Exclusive.render1 w) as Hw
    by apply ExclusiveFacts.reachable_run, Exclusive.reach_init.
  assert (Exclusive.buildable Exclusive.render1 s) as Hbuild
    by (intros Hnone; congruence).
  assert (forall e, popover s = Some e -> isAttached e w = false) as Hoff
    by (intros e; rewrite Hp; by intros [= <-]).
  destruct (click_with_stale_listener_closes Exclusive.render1 w 0 s
              Hw Hs Hb Hel Hbuild Hoff Hd)
    as (s' & e & x & H1 & H2 & H3 & H4 & H5 & _).
  exists s', e, x.
  split; [exact H1|]. split; [exact H2|]. split; [exact H3|].
  split; [exact H4|exact H5].
Defined.

End MoreClicks.
